(** * spotipi-eink: the text-flow, compositor and polling loop of
      [spotipiEinkDisplay.py], embedded in Rocq.

    Python values are modelled as the code uses them: [int] as [Z], [str] as
    [string] (code points below 256), lists as [list], the attributes of the
    service object ([song_prev], [pic_counter], [idle_index] and the call
    counter of [limit_recursion]) as one record that every method threads
    through, and everything the service does to the outside world (display
    clears and pushes, sleeps, queries of the track source) as a trace of
    events. *)

From Stdlib Require Import List ZArith Lia Bool Arith String Ascii.
Import ListNotations.
Local Open Scope string_scope.
Local Open Scope Z_scope.

(** ** Python strings *)

Module PyStr.

(** [str.isspace] on the code points below 256: TAB..CR, FS..US, space,
    NEL (0x85) and NBSP (0xA0). *)
Definition isspace (c : ascii) : bool :=
  let n := N_of_ascii c in
  ((9 <=? n) && (n <=? 13) || (28 <=? n) && (n <=? 32)
   || (n =? 133) || (n =? 160))%N.

Definition is_empty (s : string) : bool :=
  match s with EmptyString => true | String _ _ => false end.

(** [s.split()]: maximal runs of non-whitespace characters; [cur] is the run
    being collected. *)
Fixpoint split_from (cur : string) (s : string) : list string :=
  match s with
  | EmptyString => if is_empty cur then [] else [cur]
  | String c s' =>
      if isspace c
      then (if is_empty cur then split_from "" s' else cur :: split_from "" s')
      else split_from (cur ++ String c "") s'
  end.

Definition split (s : string) : list string := split_from "" s.

(** [sep.join(l)]. *)
Fixpoint join (sep : string) (l : list string) : string :=
  match l with
  | [] => ""
  | w :: rest =>
      match rest with
      | [] => w
      | _ :: _ => w ++ sep ++ join sep rest
      end
  end.

(** [l[:k]] and [l[k:]], with Python's reading of a negative bound. *)
Definition slice_to {A : Type} (l : list A) (k : Z) : list A :=
  if 0 <=? k then firstn (Z.to_nat k) l
  else firstn (Z.to_nat (Z.of_nat (List.length l) + k)) l.

Definition slice_from {A : Type} (l : list A) (k : Z) : list A :=
  if 0 <=? k then skipn (Z.to_nat k) l
  else skipn (Z.to_nat (Z.of_nat (List.length l) + k)) l.

(** A word: what [split] produces, non-empty and free of whitespace. *)
Fixpoint no_space (s : string) : bool :=
  match s with
  | EmptyString => true
  | String c s' => negb (isspace c) && no_space s'
  end.

Definition is_word (s : string) : bool := negb (is_empty s) && no_space s.

Fixpoint all_space (s : string) : bool :=
  match s with
  | EmptyString => true
  | String c s' => isspace c && all_space s'
  end.

End PyStr.
Import PyStr.

(** ** TextFlow: [_break_fix] *)

(** The [text] argument of [_break_fix]: [None], a [str], or (in the
    recursive call) the list of the remaining tokens. *)
Inductive pytext : Type :=
| TNone
| TStr (s : string)
| TList (l : list string).

(** Python truthiness of the argument ([if not text]). *)
Definition truthy_text (t : pytext) : bool :=
  match t with
  | TNone => false
  | TStr s => negb (is_empty s)
  | TList l => match l with [] => false | _ :: _ => true end
  end.

Record font : Type := mkFont { font_path : string; font_size : Z }.

(** A yielded pair [(t, w)]. *)
Definition segment : Type := (string * Z)%type.

Section TextFlow.

(** [int(draw.textlength(text=t, font=font))]: the font metrics belong to
    Pillow and the font file. *)
Variable textlength : font -> string -> Z.

Section Wrap.
Variable width : Z.
Variable fnt : font.

(** The [while lo < hi] loop over the token list [text]; [None] when the
    fuel is gone before the loop exits. *)
Fixpoint narrow (text : list string) (fuel : nat) (lo hi : Z) : option Z :=
  if lo <? hi then
    match fuel with
    | O => None
    | S fuel' =>
        let mid := (lo + hi + 1) / 2 in
        let t := join " " (slice_to text mid) in
        let w := textlength fnt t in
        if w <=? width then narrow text fuel' mid hi
        else narrow text fuel' lo (mid - 1)
    end
  else Some lo.

Definition tokens_of (text : pytext) : list string :=
  match text with
  | TStr s => split s
  | TList l => l
  | TNone => []
  end.

(** The generator. [fuel] bounds the number of generator frames entered;
    the result is the list of segments yielded so far and whether the
    generator is exhausted. *)
Fixpoint _break_fix (fuel : nat) (text : pytext) : list segment * bool :=
  match fuel with
  | O => ([], false)
  | S fuel' =>
      if negb (truthy_text text) then ([], true)
      else
        let toks := tokens_of text in
        match narrow toks (List.length toks) 0 (Z.of_nat (List.length toks)) with
        | None => ([], false)
        | Some lo =>
            let t := join " " (slice_to toks lo) in
            let w := textlength fnt t in
            let '(rest, fin) := _break_fix fuel' (TList (slice_from toks lo)) in
            ((t, w) :: rest, fin)
        end
  end.

(** The first [k] tokens, joined, stay within the budget. *)
Definition fits_budget (toks : list string) (k : Z) : Prop :=
  textlength fnt (join " " (slice_to toks k)) <= width.

(** The measure never shrinks when a token is added: the assumption
    behind the binary search. *)
Definition monotone : Prop :=
  forall (toks : list string) (i j : nat), (i <= j)%nat ->
    textlength fnt (join " " (firstn i toks))
    <= textlength fnt (join " " (firstn j toks)).

(** Every token of the string, alone, is within the budget. *)
Definition tokens_fit (s : string) : Prop :=
  forall t, In t (split s) -> textlength fnt t <= width.

(** The segment yielded for a chunk of tokens. *)
Definition segment_of (c : list string) : segment :=
  (join " " c, textlength fnt (join " " c)).

(** [list(self._break_fix(text, width, font, draw))]. A generator that
    is not exhausted after [len + 2] frames never is (lemma
    [break_fix_never_finishes]); CPython then raises [RecursionError],
    which is [None] here. *)
Definition list_break_fix (text : pytext) : option (list segment) :=
  let '(segs, fin) := _break_fix (S (S (List.length (tokens_of text)))) text in
  if fin then Some segs else None.

End Wrap.

End TextFlow.

(** ** Pillow images, at the level of sizes and drawing commands

    An image is its size and the list of the operations that produced its
    contents. Pillow itself is not part of the repository: each operation
    below has the result size Pillow documents, and fails ([None], an
    exception in Python) on the sizes Pillow rejects. *)

Module PIL.

Inductive layer : Type :=
| Fitted (src_w src_h : Z)
| Cropped (left upper right lower : Z)
| Resized (src_w src_h : Z)
| Pasted (w h x y : Z)
| Blurred (radius : Z)
| Text (x y : Z) (t : string) (fill : string).

Record image : Type := mkImage { width : Z; height : Z; layers : list layer }.

(** [Image.new('RGB', (w, h))]: a negative size is a [ValueError]. *)
Definition new (w h : Z) : option image :=
  if (0 <=? w) && (0 <=? h) then Some (mkImage w h []) else None.

(** [image.crop((left, upper, right, lower))]: the result has the size of
    the box, also where the box leaves the image. *)
Definition crop (im : image) (left upper right lower : Z) : option image :=
  if (left <=? right) && (upper <=? lower)
  then Some (mkImage (right - left) (lower - upper)
               (layers im ++ [Cropped left upper right lower]))
  else None.

(** [image.resize((w, h), ...)]: the target must be positive. *)
Definition resize (im : image) (w h : Z) : option image :=
  if (0 <? w) && (0 <? h)
  then Some (mkImage w h (layers im ++ [Resized (width im) (height im)]))
  else None.

(** [ImageOps.fit(image, (w, h), centering=(0.0, 0.0))]: divides by the two
    heights, then resizes a crop of the source to exactly [(w, h)]. *)
Definition fit (im : image) (w h : Z) : option image :=
  if (height im =? 0) || (h =? 0) then None
  else if (0 <? w) && (0 <? h)
  then Some (mkImage w h (layers im ++ [Fitted (width im) (height im)]))
  else None.

(** [dst.paste(src, (x, y))] draws into [dst]; the size of [dst] stays. *)
Definition paste (dst src : image) (x y : Z) : image :=
  mkImage (width dst) (height dst)
    (layers dst ++ [Pasted (width src) (height src) x y]).

(** [image.filter(ImageFilter.GaussianBlur(radius))]. *)
Definition gaussian_blur (im : image) (radius : Z) : image :=
  mkImage (width im) (height im) (layers im ++ [Blurred radius]).

(** [ImageDraw.Draw(im).text((x, y), t, font=font, fill=fill)]. *)
Definition text (im : image) (x y : Z) (t fill : string) : image :=
  mkImage (width im) (height im) (layers im ++ [Text x y t fill]).

End PIL.

(** [range(start, stop, step)] as a list; a zero step is a [ValueError]. *)
Definition py_range (start stop step : Z) : option (list Z) :=
  if step =? 0 then None
  else
    let n := if 0 <? step then (stop - start + step - 1) / step
             else (start - stop - step - 1) / (- step) in
    Some (map (fun i => start + Z.of_nat i * step) (seq 0 (Z.to_nat n))).

(** ** TextBlockRenderer: [_fit_text_top_down], [_fit_text_bottom_up] *)

Section Render.

Variable textlength : font -> string -> Z.

(** The body of [for t, _ in pieces]: the shadow first when the offset is
    positive, then the text; [y] and [h_taken_by_text] advance by
    [font_size]. Returns the image, the final [y] and the height taken. *)
Fixpoint draw_pieces (img : PIL.image) (pieces : list segment)
    (text_color shadow_text_color : string)
    (x_start_offset offset_text_px_shadow font_size : Z)
    (y h_taken_by_text : Z) : PIL.image * Z * Z :=
  match pieces with
  | [] => (img, y, h_taken_by_text)
  | (t, _) :: rest =>
      let img1 :=
        if offset_text_px_shadow >? 0
        then PIL.text img (x_start_offset + offset_text_px_shadow)
               (y + offset_text_px_shadow) t shadow_text_color
        else img in
      let img2 := PIL.text img1 x_start_offset y t text_color in
      draw_pieces img2 rest text_color shadow_text_color
        x_start_offset offset_text_px_shadow font_size
        (y + font_size) (h_taken_by_text + font_size)
  end.

(** What one line adds to the image when drawn at height [y]. *)
Definition line_layers (text_color shadow_text_color : string)
    (x_start_offset offset_text_px_shadow : Z) (y : Z) (t : string)
    : list PIL.layer :=
  ((if offset_text_px_shadow >? 0
    then [PIL.Text (x_start_offset + offset_text_px_shadow)
            (y + offset_text_px_shadow) t shadow_text_color]
    else []) ++ [PIL.Text x_start_offset y t text_color])%list.

(** Lines stacked downwards from [y], one [line_height] apart. *)
Fixpoint stacked (text_color shadow_text_color : string)
    (x_start_offset offset_text_px_shadow line_height : Z) (y : Z)
    (pieces : list segment) : list PIL.layer :=
  match pieces with
  | [] => []
  | (t, _) :: rest =>
      (line_layers text_color shadow_text_color x_start_offset
         offset_text_px_shadow y t
       ++ stacked text_color shadow_text_color x_start_offset
            offset_text_px_shadow line_height (y + line_height) rest)%list
  end.

(** Returns the image drawn into and the height used; [None] when
    [list(self._break_fix(...))] raises. *)
Definition _fit_text_top_down (img : PIL.image) (text : pytext)
    (text_color shadow_text_color : string) (fnt : font)
    (y_offset font_size x_start_offset x_end_offset offset_text_px_shadow : Z)
    : option (PIL.image * Z) :=
  let width :=
    PIL.width img - x_start_offset - x_end_offset - offset_text_px_shadow in
  match list_break_fix textlength width fnt text with
  | None => None
  | Some pieces =>
      let '(img', _, h) :=
        draw_pieces img pieces text_color shadow_text_color
          x_start_offset offset_text_px_shadow font_size y_offset 0 in
      Some (img', h)
  end.

Definition _fit_text_bottom_up (img : PIL.image) (text : pytext)
    (text_color shadow_text_color : string) (fnt : font)
    (y_offset font_size x_start_offset x_end_offset offset_text_px_shadow : Z)
    : option (PIL.image * Z) :=
  let width :=
    PIL.width img - x_start_offset - x_end_offset - offset_text_px_shadow in
  match list_break_fix textlength width fnt text with
  | None => None
  | Some pieces =>
      let len := Z.of_nat (List.length pieces) in
      let y_offset :=
        if len >? 1 then y_offset - (len - 1) * font_size else y_offset in
      let '(img', _, h) :=
        draw_pieces img pieces text_color shadow_text_color
          x_start_offset offset_text_px_shadow font_size y_offset 0 in
      Some (img', h)
  end.

End Render.

(** ** Configuration ([eink_options.ini], fallbacks applied) *)

Module Config.

Record t : Type := mk {
  width : Z;
  height : Z;
  album_cover_small_px : Z;
  album_cover_small : bool;
  offset_px_left : Z;
  offset_px_right : Z;
  offset_px_top : Z;
  offset_px_bottom : Z;
  offset_text_px_shadow : Z;
  text_direction : string;
  background_blur : Z;
  background_mode : string;
  font_path : string;
  font_size_title : Z;
  font_size_artist : Z;
  display_refresh_counter : Z;
  idle_display_time : Z;
  idle_shuffle : bool;
  no_song_cover : string
}.

End Config.

(** ** FrameCompositor: [_gen_pic] *)

Section Compositor.

Variable textlength : font -> string -> Z.
Variable cfg : Config.t.

(** [for y in range(0, target_h, bg_h): image_new.paste(image, (x, y))]. *)
Definition tile_column (image_new image : PIL.image) (x : Z) (ys : list Z)
    : PIL.image :=
  fold_left (fun im y => PIL.paste im image x y) ys image_new.

(** The outer [for x in range(0, target_w, bg_w)]; the inner [range] is
    built once per column and raises on a zero step. *)
Fixpoint tile_columns (image_new image : PIL.image) (xs : list Z)
    (target_h bg_h : Z) : option PIL.image :=
  match xs with
  | [] => Some image_new
  | x :: xs' =>
      match py_range 0 target_h bg_h with
      | None => None
      | Some ys =>
          tile_columns (tile_column image_new image x ys) image xs'
            target_h bg_h
      end
  end.

(** The background: [fit], [repeat], or the fallback crop. *)
Definition background (image : PIL.image) : option PIL.image :=
  let bg_w := PIL.width image in
  let bg_h := PIL.height image in
  let bg_mode := Config.background_mode cfg in
  if String.eqb bg_mode "fit" then
    let target_size := (Config.width cfg, Config.height cfg) in
    if negb (bg_w =? fst target_size) || negb (bg_h =? snd target_size)
    then PIL.fit image (fst target_size) (snd target_size)
    else PIL.crop image 0 0 (fst target_size) (snd target_size)
  else if String.eqb bg_mode "repeat" then
    let target_w := Config.width cfg in
    let target_h := Config.height cfg in
    match PIL.new target_w target_h with
    | None => None
    | Some image_new =>
        match py_range 0 target_w bg_w with
        | None => None
        | Some xs => tile_columns image_new image xs target_h bg_h
        end
    end
  else
    let target_size := (Config.width cfg, Config.height cfg) in
    PIL.crop image 0 0 (fst target_size) (snd target_size).

(** The optional blur, coupled to [album_cover_small]. *)
Definition blur_background (image_new : PIL.image) : PIL.image :=
  if Config.album_cover_small cfg && (Config.background_blur cfg >? 0)
  then PIL.gaussian_blur image_new (Config.background_blur cfg)
  else image_new.

(** The optional small cover, resized from the original [image]. *)
Definition small_cover (image image_new : PIL.image) (show_small_cover : bool)
    : option PIL.image :=
  if show_small_cover && Config.album_cover_small cfg then
    let px := Config.album_cover_small_px cfg in
    match PIL.resize image px px with
    | None => None
    | Some cover_smaller =>
        let album_pos_x := (PIL.width image_new - px) / 2 in
        Some (PIL.paste image_new cover_smaller album_pos_x
                (Config.offset_px_top cfg))
    end
  else Some image_new.

(** Title and artist, by [text_direction]. *)
Definition render_text (image_new : PIL.image) (artist title : string)
    : option PIL.image :=
  let font_title :=
    mkFont (Config.font_path cfg) (Config.font_size_title cfg) in
  let font_artist :=
    mkFont (Config.font_path cfg) (Config.font_size_artist cfg) in
  let left := Config.offset_px_left cfg in
  let right := Config.offset_px_right cfg in
  let shadow := Config.offset_text_px_shadow cfg in
  if String.eqb (Config.text_direction cfg) "top-down" then
    let title_position_y :=
      Config.album_cover_small_px cfg + Config.offset_px_top cfg + 10 in
    match _fit_text_top_down textlength image_new (TStr title)
            "white" "black" font_title title_position_y
            (Config.font_size_title cfg) left right shadow with
    | None => None
    | Some (image1, title_height) =>
        let artist_position_y :=
          Config.album_cover_small_px cfg + Config.offset_px_top cfg + 10
          + title_height in
        match _fit_text_top_down textlength image1 (TStr artist)
                "white" "black" font_artist artist_position_y
                (Config.font_size_artist cfg) left right shadow with
        | None => None
        | Some (image2, _) => Some image2
        end
    end
  else if String.eqb (Config.text_direction cfg) "bottom-up" then
    let artist_position_y :=
      PIL.height image_new
      - (Config.offset_px_bottom cfg + Config.font_size_artist cfg) in
    match _fit_text_bottom_up textlength image_new (TStr artist)
            "white" "black" font_artist artist_position_y
            (Config.font_size_artist cfg) left right shadow with
    | None => None
    | Some (image1, artist_height) =>
        let title_position_y :=
          PIL.height image1
          - (Config.offset_px_bottom cfg + Config.font_size_title cfg)
          - artist_height in
        match _fit_text_bottom_up textlength image1 (TStr title)
                "white" "black" font_title title_position_y
                (Config.font_size_title cfg) left right shadow with
        | None => None
        | Some (image2, _) => Some image2
        end
    end
  else Some image_new.

(** The width left for text on a canvas-wide image. *)
Definition text_budget : Z :=
  Config.width cfg - Config.offset_px_left cfg - Config.offset_px_right cfg
  - Config.offset_text_px_shadow cfg.

(** [_gen_pic(image, artist, title, show_small_cover)]; [None] when an
    exception leaves it. *)
Definition _gen_pic (image : PIL.image) (artist title : string)
    (show_small_cover : bool) : option PIL.image :=
  match background image with
  | None => None
  | Some image_new =>
      match small_cover image (blur_background image_new) show_small_cover with
      | None => None
      | Some image_new' => render_text image_new' artist title
      end
  end.

End Compositor.

(** ** The service object and its effects *)

(** What [_get_song_info] returns: [None] (from the recursion limiter),
    the empty list, or [[song, cover_url, artist]]. *)
Inductive song_info : Type :=
| SNone
| SEmpty
| Song (title cover_url artist : string).

(** Python truthiness of a [song_request]. *)
Definition truthy (r : song_info) : bool :=
  match r with Song _ _ _ => true | _ => false end.

(** One answer of the Spotify client to a poll. *)
Inductive playing : Type :=
| NoToken                                   (* no token could be obtained *)
| Silent                                    (* [currently_playing] gave nothing *)
| Episode (name show cover_url : string)
| Track (name artists cover_url : string)   (* artist names already joined *)
| Ad
| Unknown                                   (* type 'unknown', or no type at all *)
| Unsupported (ctype : string)
| Malformed                                 (* a lookup raised [TypeError] *)
| Fails.                                    (* any other exception *)

Inductive event : Type :=
| Clean                                     (* [_display_clean] *)
| Show (frame : PIL.image)                  (* [_display_image] *)
| Sleep (secs : Z)                          (* [time.sleep] of whole seconds *)
| Nap                                       (* [time.sleep(0.01)] *)
| Query                                     (* one request to the track source *)
| Update (song_request : song_info).        (* [_display_update_process] entered *)

(** The mutable attributes: of the instance, of the function object wrapped
    by [limit_recursion] ([count]), and how far the outside world has been
    consumed ([asked] polls answered, [drawn] random draws). *)
Record service : Type := mkService {
  song_prev : string;
  pic_counter : Z;
  idle_index : Z;
  count : Z;
  asked : nat;
  drawn : nat
}.

Definition set_song_prev (v : string) (s : service) : service :=
  mkService v (pic_counter s) (idle_index s) (count s) (asked s) (drawn s).
Definition set_pic_counter (v : Z) (s : service) : service :=
  mkService (song_prev s) v (idle_index s) (count s) (asked s) (drawn s).
Definition set_idle_index (v : Z) (s : service) : service :=
  mkService (song_prev s) (pic_counter s) v (count s) (asked s) (drawn s).
Definition set_count (v : Z) (s : service) : service :=
  mkService (song_prev s) (pic_counter s) (idle_index s) v (asked s) (drawn s).
Definition set_asked (v : nat) (s : service) : service :=
  mkService (song_prev s) (pic_counter s) (idle_index s) (count s) v (drawn s).
Definition set_drawn (v : nat) (s : service) : service :=
  mkService (song_prev s) (pic_counter s) (idle_index s) (count s) (asked s) v.

(** The attributes after [__init__]. *)
Definition fresh : service := mkService "" 0 0 0 0 0.

(** How a call ends: with a value, with an exception, or (in the model
    only) with its fuel spent. *)
Inductive outcome (A : Type) : Type :=
| Returned (a : A)
| Raised
| Stuck.
Arguments Returned {A} a.
Arguments Raised {A}.
Arguments Stuck {A}.

(** A method: from the attributes to the events it caused, the attributes it
    left, and how it ended. *)
Definition M (A : Type) : Type := service -> list event * service * outcome A.

Definition ret {A : Type} (a : A) : M A := fun s => ([], s, Returned a).

Definition bind {A B : Type} (m : M A) (k : A -> M B) : M B :=
  fun s =>
    let '(e1, s1, r) := m s in
    match r with
    | Returned a => let '(e2, s2, r2) := k a s1 in ((e1 ++ e2)%list, s2, r2)
    | Raised => (e1, s1, Raised)
    | Stuck => (e1, s1, Stuck)
    end.

Definition emit (e : event) : M unit := fun s => ([e], s, Returned tt).
Definition gets {A : Type} (f : service -> A) : M A := fun s => ([], s, Returned (f s)).
Definition modify (f : service -> service) : M unit := fun s => ([], f s, Returned tt).
Definition raise {A : Type} : M A := fun s => ([], s, Raised).
Definition stuck {A : Type} : M A := fun s => ([], s, Stuck).

(** [try: m  except Exception: handler]. *)
Definition try_except {A : Type} (m handler : M A) : M A :=
  fun s =>
    let '(e1, s1, r) := m s in
    match r with
    | Raised => let '(e2, s2, r2) := handler s1 in ((e1 ++ e2)%list, s2, r2)
    | _ => (e1, s1, r)
    end.

(** A call that cannot touch the attributes and may raise. *)
Definition lift {A : Type} (o : option A) : M A :=
  match o with Some a => ret a | None => raise end.

Declare Scope service_scope.
Delimit Scope service_scope with service.
Notation "x <- m ;; k" := (bind m (fun x => k))
  (at level 100, m at next level, right associativity) : service_scope.
Notation "m ;; k" := (bind m (fun _ => k))
  (at level 100, right associativity) : service_scope.
Local Open Scope service_scope.

(** [@limit_recursion(limit)]: the wrapper around [func]. The decrement is
    not in a [finally], so an exception leaves [count] raised. *)
Definition limit_recursion {A : Type} (limit : Z) (none : A) (func : M A) : M A :=
  modify (fun s => set_count (count s + 1) s);;
  c <- gets count;;
  result <- (if c <? limit then func else ret none);;
  modify (fun s => set_count (count s - 1) s);;
  ret result.

Definition events {A : Type} (x : list event * service * outcome A) : list event :=
  fst (fst x).
Definition final {A : Type} (x : list event * service * outcome A) : service :=
  snd (fst x).
Definition result {A : Type} (x : list event * service * outcome A) : outcome A :=
  snd x.

(** Seconds slept in whole-second sleeps, and frame builds requested. *)
Fixpoint slept (evs : list event) : Z :=
  match evs with
  | [] => 0
  | Sleep secs :: rest => secs + slept rest
  | _ :: rest => slept rest
  end.

Fixpoint builds (evs : list event) : nat :=
  match evs with
  | [] => O
  | Update _ :: rest => S (builds rest)
  | _ :: rest => builds rest
  end.

Fixpoint clears (evs : list event) : nat :=
  match evs with
  | [] => O
  | Clean :: rest => S (clears rest)
  | _ :: rest => clears rest
  end.

(** [l[i]] for a Python list: a negative index counts from the end, an index
    out of range is an [IndexError]. *)
Definition py_index {A : Type} (l : list A) (i : Z) : option A :=
  let n := Z.of_nat (List.length l) in
  if (0 <=? i) && (i <? n) then nth_error l (Z.to_nat i)
  else if (- n <=? i) && (i <? 0) then nth_error l (Z.to_nat (n + i))
  else None.

Section Service.

(** The world around the service. *)
Variable textlength : font -> string -> Z.
Variable cfg : Config.t.
Variable delay : Z.                              (* [SpotipiEinkDisplay(delay)] *)
Variable idle_images : list string.              (* [_load_idle_images()] *)
Variable open_image : string -> option PIL.image.   (* [Image.open(path)] *)
Variable fetch_cover : string -> option PIL.image.  (* [requests.get] + [Image.open] *)
Variable source : nat -> playing.                (* the k-th answer of Spotify *)
Variable rand : nat -> nat.                      (* the k-th random draw *)

(** *** IdleGallery: [_get_idle_image] *)

(** The path handed to [Image.open]; the cursor moves before the file is
    opened. *)
Definition idle_path : M string :=
  match idle_images with
  | [] => ret (Config.no_song_cover cfg)
  | _ :: _ =>
      if Config.idle_shuffle cfg then
        k <- gets drawn;;
        modify (set_drawn (S k));;
        lift (nth_error idle_images (rand k mod List.length idle_images)%nat)
      else
        i <- gets idle_index;;
        img_path <- lift (py_index idle_images i);;
        modify (set_idle_index ((i + 1) mod Z.of_nat (List.length idle_images)));;
        ret img_path
  end.

Definition _get_idle_image : M PIL.image :=
  p <- idle_path;;
  lift (open_image p).

(** *** RefreshCounter and display: [_display_update_process] *)

Definition _display_clean : M unit := emit Clean.
Definition _display_image (image : PIL.image) : M unit := emit (Show image).

Definition compose (song_request : song_info) : M PIL.image :=
  match song_request with
  | Song title cover_url artist =>
      try_except
        (cover <- lift (fetch_cover cover_url);;
         lift (_gen_pic textlength cfg cover artist title true))
        (fallback_cover <- lift (open_image (Config.no_song_cover cfg));;
         lift (_gen_pic textlength cfg fallback_cover artist title true))
  | _ =>
      idle_img <- _get_idle_image;;
      lift (_gen_pic textlength cfg idle_img "" "" false)
  end.

Definition _display_update_process (song_request : song_info) : M unit :=
  emit (Update song_request);;
  image <- compose song_request;;
  let refresh_limit := Config.display_refresh_counter cfg in
  c <- gets pic_counter;;
  (if c >? refresh_limit
   then _display_clean;; modify (set_pic_counter 0)
   else ret tt);;
  _display_image image;;
  modify (fun s => set_pic_counter (pic_counter s + 1) s).

(** *** The poll: [_get_song_info] under [@limit_recursion(limit=10)] *)

Definition recursion_limit : Z := 10.

(** What the body does with the answer of the source; [again] is
    [self._get_song_info()], the wrapped method. *)
Definition classify (again : M song_info) (p : playing) : M song_info :=
  match p with
  | NoToken => ret SEmpty
  | Silent => ret SEmpty
  | Episode name show cover_url => ret (Song name cover_url show)
  | Track name artists cover_url => ret (Song name cover_url artists)
  | Ad => ret SEmpty
  | Unknown => emit Nap;; again
  | Unsupported _ => ret SEmpty
  | Malformed => emit Nap;; again
  | Fails => raise
  end.

Fixpoint get_song_info_rec (fuel : nat) : M song_info :=
  limit_recursion recursion_limit SNone
    match fuel with
    | O => stuck
    | S fuel' =>
        k <- gets asked;;
        modify (set_asked (S k));;
        emit Query;;
        classify (get_song_info_rec fuel') (source k)
    end.

(** The fuel is the room the limiter leaves; it is never spent (lemma
    [get_song_info_not_stuck]). *)
Definition _get_song_info : M song_info :=
  fun s => get_song_info_rec (Z.to_nat (recursion_limit - count s)) s.

(** *** PlaybackPoller: the body of [while True] in [start] *)

(** [while elapsed < self.idle_display_time]: returns the final
    [elapsed]. *)
Fixpoint idle_sleep (fuel : nat) (elapsed : Z) : M Z :=
  if elapsed <? Config.idle_display_time cfg then
    match fuel with
    | O => stuck
    | S fuel' =>
        let sleep_increment := 5 in
        emit (Sleep sleep_increment);;
        let elapsed := elapsed + sleep_increment in
        r <- _get_song_info;;
        if truthy r then ret elapsed else idle_sleep fuel' elapsed
    end
  else ret elapsed.

Definition idle_wait : M Z :=
  idle_sleep (Z.to_nat (Config.idle_display_time cfg)) 0.

(** None of the next [n] polls made from [s] on returns a track. *)
Fixpoint no_track_for (n : nat) (s : service) : Prop :=
  match n with
  | O => True
  | S n' =>
      match _get_song_info s with
      | (_, s', Returned r) => truthy r = false /\ no_track_for n' s'
      | _ => False
      end
  end.

(** How the inner [try] block ends: at [continue], or at its end. *)
Inductive flow : Type := Continue | FallThrough.

(** A track is playing: rebuild the frame when the key changed. *)
Definition playing_branch (song_request : song_info) (title cover_url : string)
    : M flow :=
  let new_song_key := title ++ cover_url in
  prev <- gets song_prev;;
  (if negb (String.eqb prev new_song_key)
   then modify (set_song_prev new_song_key);;
        _display_update_process song_request
   else ret tt);;
  ret FallThrough.

(** Nothing is playing: the idle frame, then the bounded wait. *)
Definition idle_branch : M flow :=
  modify (set_song_prev "NO_SONG");;
  _display_update_process SEmpty;;
  idle_wait;;
  ret Continue.

Definition poll_once : M flow :=
  song_request <- _get_song_info;;
  match song_request with
  | Song title cover_url _ => playing_branch song_request title cover_url
  | _ => idle_branch
  end.

(** The [i]-th of the polls made from [s] on is the first to return a
    track. *)
Fixpoint first_track_at (i : nat) (s : service) : Prop :=
  match i with
  | O => False
  | S i' =>
      match _get_song_info s with
      | (_, s', Returned r) =>
          if truthy r then i' = O else first_track_at i' s'
      | _ => False
      end
  end.

(** One turn of the loop: the [try], its [except Exception], and the
    trailing [time.sleep(self.delay)] unless [continue] was reached. *)
Definition iteration : M unit :=
  f <- try_except poll_once (ret FallThrough);;
  match f with
  | Continue => ret tt
  | FallThrough => emit (Sleep delay)
  end.

Fixpoint iterations (n : nat) : M unit :=
  match n with
  | O => ret tt
  | S n' => iteration;; iterations n'
  end.

(** [start()], cut after [n] turns of the loop. *)
Definition start (n : nat) : M unit :=
  _display_clean;; iterations n.

(** [n] calls of a method in a row, results collected. *)
Fixpoint calls {A : Type} (n : nat) (m : M A) : M (list A) :=
  match n with
  | O => ret []
  | S n' => a <- m;; rest <- calls n' m;; ret (a :: rest)
  end.

End Service.

(** ** A concrete world, for running the service

    A 640x400 panel, a fixed-pitch font whose glyphs are half the font size
    wide, covers and idle images that always load. *)

Module Sample.

Definition textlength (f : font) (s : string) : Z :=
  font_size f * Z.of_nat (String.length s) / 2.

Definition cfg : Config.t :=
  Config.mk 640 400 200 true 20 20 0 20 4 "bottom-up" 5 "fit"
    "/usr/share/fonts/truetype/freefont/FreeSans.ttf" 40 30
    20 300 false "/home/pi/spotipi-eink/resources/default.jpg".

Definition title_font : font :=
  mkFont (Config.font_path cfg) (Config.font_size_title cfg).

(** The text budget of [cfg]: 640 - 20 - 20 - 4. *)
Definition budget : Z := 596.

Definition delay : Z := 1.

Definition idle_images : list string :=
  ["idle_images/a.png"; "idle_images/b.jpg"; "idle_images/c.jpeg"].

Definition open_image (path : string) : option PIL.image :=
  if String.eqb path "idle_images/a.png" then Some (PIL.mkImage 800 480 [])
  else if String.eqb path "idle_images/b.jpg" then Some (PIL.mkImage 1024 768 [])
  else if String.eqb path "idle_images/c.jpeg" then Some (PIL.mkImage 320 200 [])
  else Some (PIL.mkImage 640 400 []).

Definition fetch_cover (url : string) : option PIL.image :=
  Some (PIL.mkImage 640 640 []).

Definition rand (k : nat) : nat := k.

Definition track_a : playing :=
  Track "Blue in Green" "Miles Davis" "https://i.scdn.co/image/ab67616d".

(** Spotify answers with the same track at every poll. *)
Definition always_a (k : nat) : playing := track_a.

(** Spotify has no classification to give. *)
Definition always_unknown (k : nat) : playing := Unknown.

(** Nothing plays for the first [n] polls, then [track_a] does. *)
Definition silent_then_a (n k : nat) : playing :=
  if (k <? n)%nat then Silent else track_a.

(** What [_get_song_info] makes of [track_a]. *)
Definition song_a : song_info :=
  Song "Blue in Green" "https://i.scdn.co/image/ab67616d" "Miles Davis".

Definition update : song_info -> M unit :=
  _display_update_process textlength cfg idle_images open_image fetch_cover rand.

Definition turn (source : nat -> playing) : M unit :=
  iteration textlength cfg delay idle_images open_image fetch_cover source rand.

Definition turns (source : nat -> playing) (n : nat) : M unit :=
  iterations textlength cfg delay idle_images open_image fetch_cover source
    rand n.

(** The frame of [song_a]. *)
Definition frame_a : PIL.image :=
  match _gen_pic textlength cfg (PIL.mkImage 640 640 []) "Miles Davis"
          "Blue in Green" true with
  | Some frame => frame
  | None => PIL.mkImage 0 0 []
  end.

End Sample.

(** ** Idle image discovery: [_load_idle_images] *)

Module Files.

(** [c.lower()] on the code points below 256: A..Z and the capital letters
    of Latin-1 (0xC0..0xDE, the multiplication sign apart) move up by 32. *)
Definition lower_char (c : ascii) : ascii :=
  let n := N_of_ascii c in
  if ((65 <=? n) && (n <=? 90)
      || (192 <=? n) && (n <=? 222) && negb (n =? 215))%N
  then ascii_of_N (n + 32)
  else c.

(** [s.lower()]. *)
Fixpoint lower (s : string) : string :=
  match s with
  | EmptyString => EmptyString
  | String c s' => String (lower_char c) (lower s')
  end.







End Files.

(** ** More vocabulary: lines, answers and traces *)

Section Greedy.

Variable textlength : font -> string -> Z.
Variable width : Z.
Variable fnt : font.

(** Every chunk is as long as the budget allows: with the first token of
    what follows it would be too wide. *)
Fixpoint greedy (chunks : list (list string)) : Prop :=
  match chunks with
  | [] => True
  | c :: rest =>
      match List.concat rest with
      | [] => True
      | t :: _ => width < textlength fnt (join " " (c ++ [t]))
      end
      /\ greedy rest
  end.

End Greedy.

(** An answer that makes [_get_song_info] call itself again. *)
Definition retried (p : playing) : bool :=
  match p with Unknown | Malformed => true | _ => false end.

(** What [_get_song_info] returns for an answer it does not retry; [None]
    for the answers it retries and for an exception. *)
Definition settled (p : playing) : option song_info :=
  match p with
  | NoToken | Silent | Ad | Unsupported _ => Some SEmpty
  | Episode name show cover_url => Some (Song name cover_url show)
  | Track name artists cover_url => Some (Song name cover_url artists)
  | Unknown | Malformed | Fails => None
  end.

(** Frames pushed, and requests sent to the track source. *)
Fixpoint shows (evs : list event) : nat :=
  match evs with
  | [] => O
  | Show _ :: rest => S (shows rest)
  | _ :: rest => shows rest
  end.

Fixpoint queries (evs : list event) : nat :=
  match evs with
  | [] => O
  | Query :: rest => S (queries rest)
  | _ :: rest => queries rest
  end.


Section Runs.

Variable textlength : font -> string -> Z.
Variable cfg : Config.t.
Variable delay : Z.
Variable idle_images : list string.
Variable open_image : string -> option PIL.image.
Variable fetch_cover : string -> option PIL.image.
Variable source : nat -> playing.
Variable rand : nat -> nat.

(** For the next [n] turns of the loop, the poll that opens the turn
    returns a track whose title+coverUrl is [key]. *)
Fixpoint same_key_for (key : string) (n : nat) (s : service) : Prop :=
  match n with
  | O => True
  | S n' =>
      (exists t c a,
          result (_get_song_info source s) = Returned (Song t c a)
          /\ t ++ c = key)
      /\ same_key_for key n'
           (final (iteration textlength cfg delay idle_images open_image
                     fetch_cover source rand s))
  end.

(** For the next [n] turns of the loop the first answer of the source
    raises. *)
Definition fails_for (n : nat) (s : service) : Prop :=
  forall i, (i < n)%nat -> source (asked s + i) = Fails.

End Runs.

(** A method that, once the limiter's counter has reached the last level
    it lets through, asks the source nothing and keeps that counter and the
    number of answers consumed. *)
Definition asks_nothing {A : Type} (m : M A) : Prop :=
  forall s,
    9 <= count s ->
    queries (events (m s)) = O
    /\ count (final (m s)) = count s
    /\ asked (final (m s)) = asked s.

(** A method that leaves alone what the debounce and the refresh counter
    rest on, and neither builds, pushes nor clears. *)
Definition keeps_display {A : Type} (m : M A) : Prop :=
  forall s,
    builds (events (m s)) = O
    /\ shows (events (m s)) = O
    /\ clears (events (m s)) = O
    /\ song_prev (final (m s)) = song_prev s
    /\ pic_counter (final (m s)) = pic_counter s
    /\ idle_index (final (m s)) = idle_index s.

(** The sample panel with a tiled background. *)
Definition tiled_cfg : Config.t :=
  Config.mk 640 400 200 true 20 20 0 20 4 "bottom-up" 5 "repeat"
    "/usr/share/fonts/truetype/freefont/FreeSans.ttf" 40 30
    20 300 false "/home/pi/spotipi-eink/resources/default.jpg".

(** A track whose title is one word wider than the text budget of the
    sample panel, playing at every poll. *)
Definition wide_track : playing :=
  Track "Supercalifragilisticexpialidocious" "Julie Andrews"
    "https://i.scdn.co/image/ab67616d0000b273".

Definition always_wide (k : nat) : playing := wide_track.


(** Spotify raises at the first nine polls, then plays [track_a]. *)
Definition nine_failures_then_a (k : nat) : playing :=
  if (k <? 9)%nat then Fails else Sample.track_a.

(** Two answers without a type, then [track_a]. *)
Definition unknown_twice_then_a (k : nat) : playing :=
  if (k <? 2)%nat then Unknown else Sample.track_a.

(** The gallery cursor is an index of the gallery (0 when the gallery is
    empty). *)
Definition cursor_in_range (idle_images : list string) (s : service) : Prop :=
  0 <= idle_index s < Z.max 1 (Z.of_nat (List.length idle_images)).

(** The refresh counter is between 0 and one above the threshold. *)
Definition counter_in_range (cfg : Config.t) (s : service) : Prop :=
  0 <= pic_counter s <= Config.display_refresh_counter cfg + 1.

(** ** Vocabulary of the statements *)

(** Two images of the same size. *)
Definition same_size (a b : PIL.image) : Prop :=
  PIL.width a = PIL.width b /\ PIL.height a = PIL.height b.

(** A method causes no event, always ends, and keeps the previous key, the
    refresh counter and the state of the poll. *)
Definition quiet {A : Type} (m : M A) : Prop :=
  forall s,
    events (m s) = []
    /\ song_prev (final (m s)) = song_prev s
    /\ pic_counter (final (m s)) = pic_counter s
    /\ count (final (m s)) = count s
    /\ asked (final (m s)) = asked s
    /\ result (m s) <> Stuck.

(** A method never exhausts the fuel of the model: it returns or raises. *)
Definition never_stuck {A : Type} (m : M A) : Prop :=
  forall s, result (m s) <> Stuck.

(** A method leaves the display alone: it neither sleeps whole seconds, nor
    asks for a frame, nor clears, and keeps the three loop attributes. *)
Definition off_display {A : Type} (m : M A) : Prop :=
  forall s,
    slept (events (m s)) = 0
    /\ builds (events (m s)) = O
    /\ clears (events (m s)) = O
    /\ song_prev (final (m s)) = song_prev s
    /\ pic_counter (final (m s)) = pic_counter s
    /\ idle_index (final (m s)) = idle_index s
    /\ drawn (final (m s)) = drawn s.

(** ** Proof steps *)

(** Projections of the service record and of results, and the counters on
    traces, computed away; arithmetic is left alone. *)
Ltac svc :=
  unfold events, final, result in *;
  cbn [fst snd song_prev pic_counter idle_index count asked drawn
       set_song_prev set_pic_counter set_idle_index set_count set_asked
       set_drawn slept builds clears app] in *.

(** Two states built by setters from the same fields. *)
Ltac same_state :=
  unfold set_song_prev, set_pic_counter, set_idle_index, set_count, set_asked,
    set_drawn;
  cbn [song_prev pic_counter idle_index count asked drawn];
  f_equal; try lia.

(** [svc], with the pushes and the queries of a trace counted as well. *)
Ltac trace :=
  svc; cbn [shows queries] in *.

(** * Facts *)

(** ** Slices, [split] and [join] *)

Lemma slice_to_nonneg {A : Type} (l : list A) (k : Z) :
  0 <= k -> slice_to l k = firstn (Z.to_nat k) l.
Proof.
  intros Hk. unfold slice_to.
  destruct (0 <=? k) eqn:E; [reflexivity | apply Z.leb_gt in E; lia].
Qed.

Lemma slice_from_nonneg {A : Type} (l : list A) (k : Z) :
  0 <= k -> slice_from l k = skipn (Z.to_nat k) l.
Proof.
  intros Hk. unfold slice_from.
  destruct (0 <=? k) eqn:E; [reflexivity | apply Z.leb_gt in E; lia].
Qed.

Lemma slice_to_from {A : Type} (l : list A) (k : Z) :
  (slice_to l k ++ slice_from l k)%list = l.
Proof.
  unfold slice_to, slice_from. destruct (0 <=? k); apply firstn_skipn.
Qed.

Lemma in_slice_from {A : Type} (l : list A) (k : Z) (x : A) :
  In x (slice_from l k) -> In x l.
Proof.
  intros H. rewrite <- (slice_to_from l k). apply in_or_app. now right.
Qed.

Lemma append_empty_r (s : string) : s ++ "" = s.
Proof. induction s as [|c s IH]; simpl; [reflexivity | now rewrite IH]. Qed.

Lemma append_assoc' (a b c : string) : (a ++ b) ++ c = a ++ (b ++ c).
Proof. induction a as [|x a IH]; simpl; [reflexivity | now rewrite IH]. Qed.

Lemma is_empty_append (a b : string) :
  is_empty (a ++ b) = is_empty a && is_empty b.
Proof. destruct a; reflexivity. Qed.

Lemma no_space_append (a b : string) :
  no_space (a ++ b) = no_space a && no_space b.
Proof.
  induction a as [|c a IH]; simpl; [reflexivity |].
  rewrite IH. now rewrite andb_assoc.
Qed.

(** A run of non-blank characters is collected whole. *)
Lemma split_from_run (w : string) :
  forall cur s, no_space w = true ->
    split_from cur (w ++ s) = split_from (cur ++ w) s.
Proof.
  induction w as [|c w IH]; intros cur s Hw; simpl in *.
  - now rewrite append_empty_r.
  - apply andb_true_iff in Hw as [Hc Hw].
    apply negb_true_iff in Hc. rewrite Hc.
    rewrite IH by assumption. now rewrite append_assoc'.
Qed.

Lemma split_from_words (s : string) :
  forall cur, no_space cur = true ->
    Forall (fun w => is_word w = true) (split_from cur s).
Proof.
  induction s as [|c s IH]; intros cur Hcur; simpl.
  - destruct (is_empty cur) eqn:E; constructor; [| constructor].
    unfold is_word. now rewrite E, Hcur.
  - destruct (isspace c) eqn:Ec.
    + destruct (is_empty cur) eqn:E.
      * now apply IH.
      * constructor; [unfold is_word; now rewrite E, Hcur | now apply IH].
    + apply IH. rewrite no_space_append, Hcur. simpl. now rewrite Ec.
Qed.

Lemma split_words (s : string) : Forall (fun w => is_word w = true) (split s).
Proof. now apply split_from_words. Qed.

(** [split] undoes [join] on words. *)
Lemma split_join (ws : list string) :
  Forall (fun w => is_word w = true) ws -> split (join " " ws) = ws.
Proof.
  destruct ws as [|w ws]; [reflexivity |].
  revert w. induction ws as [|w2 ws IH]; intros w Hall.
  - apply Forall_inv in Hall. unfold is_word in Hall.
    apply andb_true_iff in Hall as [Hne Hns]. apply negb_true_iff in Hne.
    unfold split. simpl join. rewrite <- (append_empty_r w) at 1.
    rewrite split_from_run by assumption. simpl. now rewrite Hne.
  - pose proof (Forall_inv Hall) as Hw. apply Forall_inv_tail in Hall.
    unfold is_word in Hw.
    apply andb_true_iff in Hw as [Hne Hns]. apply negb_true_iff in Hne.
    unfold split. change (join " " (w :: w2 :: ws))
      with (w ++ " " ++ join " " (w2 :: ws)).
    rewrite split_from_run by assumption. simpl append at 1.
    simpl split_from. rewrite Hne. f_equal. now apply IH.
Qed.

Lemma split_all_space (s : string) : all_space s = true -> split s = [].
Proof.
  unfold split. induction s as [|c s IH]; intros H; simpl in *.
  - reflexivity.
  - apply andb_true_iff in H as [Hc Hs]. rewrite Hc. simpl. now apply IH.
Qed.

(** ** TextFlow *)

Section TextFlowFacts.

Variable textlength : font -> string -> Z.
Variable width : Z.
Variable fnt : font.

Local Notation "'narrow''" := (narrow textlength width fnt).
Local Notation "'break_fix'" := (_break_fix textlength width fnt).
Local Notation "'measure'" := (textlength fnt).
Local Notation "'fits'" := (fits_budget textlength width fnt).
Local Notation "'seg_of'" := (segment_of textlength fnt).

Lemma narrow_eq (toks : list string) (fuel : nat) (lo hi : Z) :
  narrow' toks fuel lo hi =
  if lo <? hi then
    match fuel with
    | O => None
    | S fuel' =>
        if measure (join " " (slice_to toks ((lo + hi + 1) / 2))) <=? width
        then narrow' toks fuel' ((lo + hi + 1) / 2) hi
        else narrow' toks fuel' lo ((lo + hi + 1) / 2 - 1)
    end
  else Some lo.
Proof. destruct fuel; reflexivity. Qed.

Lemma mid_between (lo hi : Z) :
  lo < hi -> lo < (lo + hi + 1) / 2 <= hi.
Proof. intros H. Z.div_mod_to_equations. lia. Qed.

(** The loop exits: the range shrinks at every turn. *)
Lemma narrow_exits (toks : list string) :
  forall fuel lo hi, hi - lo <= Z.of_nat fuel ->
    exists r, narrow' toks fuel lo hi = Some r.
Proof.
  induction fuel as [|fuel IH]; intros lo hi Hf; rewrite narrow_eq.
  - destruct (lo <? hi) eqn:E; [apply Z.ltb_lt in E; lia | eauto].
  - destruct (lo <? hi) eqn:E; [| eauto].
    apply Z.ltb_lt in E. pose proof (mid_between lo hi E) as Hm.
    destruct (_ <=? width); apply IH; lia.
Qed.

(** What the loop leaves in [lo]: a count inside the range that is the
    starting [lo] or fits. *)
Lemma narrow_sound (toks : list string) :
  forall fuel lo hi r, lo <= hi ->
    narrow' toks fuel lo hi = Some r ->
    lo <= r <= hi /\ (r = lo \/ fits toks r).
Proof.
  induction fuel as [|fuel IH]; intros lo hi r Hle; rewrite narrow_eq.
  - destruct (lo <? hi) eqn:E; [discriminate |].
    apply Z.ltb_ge in E. intros [= <-]. split; [lia | now left].
  - destruct (lo <? hi) eqn:E.
    + apply Z.ltb_lt in E. pose proof (mid_between lo hi E) as Hm.
      destruct (_ <=? width) eqn:Ew; intros Hr.
      * apply IH in Hr; [| lia]. destruct Hr as [Hr [-> | Hfit]].
        -- split; [lia |]. right. unfold fits_budget. now apply Z.leb_le.
        -- split; [lia | now right].
      * apply IH in Hr; [| lia]. destruct Hr as [Hr Hor].
        split; [lia | exact Hor].
    + apply Z.ltb_ge in E. intros [= <-]. split; [lia | now left].
Qed.

(** When the first token alone fits, the loop keeps at least one token. *)
Lemma narrow_keeps_one (toks : list string) :
  fits toks 1 ->
  forall fuel lo hi r, 0 <= lo <= hi -> 1 <= hi ->
    narrow' toks fuel lo hi = Some r -> 1 <= r.
Proof.
  intros H1. induction fuel as [|fuel IH]; intros lo hi r Hle Hhi;
    rewrite narrow_eq.
  - destruct (lo <? hi) eqn:E; [discriminate |].
    apply Z.ltb_ge in E. intros [= <-]. lia.
  - destruct (lo <? hi) eqn:E.
    + apply Z.ltb_lt in E. pose proof (mid_between lo hi E) as Hm.
      destruct (_ <=? width) eqn:Ew; intros Hr.
      * apply IH in Hr; lia.
      * assert ((lo + hi + 1) / 2 <> 1) as Hne.
        { intros Heq. rewrite Heq in Ew. apply Z.leb_gt in Ew.
          unfold fits_budget in H1. lia. }
        apply IH in Hr; lia.
    + apply Z.ltb_ge in E. intros [= <-]. lia.
Qed.

(** When no count in the range fits, the loop leaves [lo] where it was. *)
Lemma narrow_stays (toks : list string) :
  forall fuel lo hi r,
    (forall k, lo < k <= hi -> ~ fits toks k) ->
    narrow' toks fuel lo hi = Some r -> r = lo.
Proof.
  induction fuel as [|fuel IH]; intros lo hi r Hno; rewrite narrow_eq.
  - destruct (lo <? hi); [discriminate | now intros [= <-]].
  - destruct (lo <? hi) eqn:E; [| now intros [= <-]].
    apply Z.ltb_lt in E. pose proof (mid_between lo hi E) as Hm.
    destruct (_ <=? width) eqn:Ew; intros Hr.
    + exfalso. apply (Hno ((lo + hi + 1) / 2)); [lia |].
      unfold fits_budget. now apply Z.leb_le.
    + apply IH in Hr; [exact Hr |]. intros k Hk. apply Hno. lia.
Qed.

Lemma break_fix_eq (fuel : nat) (text : pytext) :
  break_fix (S fuel) text =
  if negb (truthy_text text) then ([], true)
  else
    match narrow' (tokens_of text) (List.length (tokens_of text)) 0
            (Z.of_nat (List.length (tokens_of text))) with
    | None => ([], false)
    | Some lo =>
        let '(rest, fin) :=
          break_fix fuel (TList (slice_from (tokens_of text) lo)) in
        (seg_of (slice_to (tokens_of text) lo) :: rest, fin)
    end.
Proof. reflexivity. Qed.

(** A frame that keeps no token of a non-empty list hands the same list
    to the next frame: the generator yields empty segments for ever. *)
Lemma break_fix_loops (toks : list string) :
  toks <> [] ->
  narrow' toks (List.length toks) 0 (Z.of_nat (List.length toks)) = Some 0 ->
  forall n, break_fix n (TList toks) = (repeat ("", measure "") n, false).
Proof.
  intros Hne H0. induction n as [|n IH]; [reflexivity |].
  rewrite break_fix_eq. destruct toks as [|t toks]; [congruence |].
  cbn [truthy_text negb tokens_of]. rewrite H0.
  rewrite slice_from_nonneg, slice_to_nonneg by lia.
  cbn [Z.to_nat skipn firstn]. rewrite IH. reflexivity.
Qed.


(** When every token alone fits the budget, the generator is exhausted
    after at most one frame per token, and its segments are the chunks of
    a partition of the tokens, none empty, each within the budget. No
    assumption on the measure is needed for this. *)
Lemma break_fix_chunks :
  forall n toks, (List.length toks <= n)%nat ->
    (forall t, In t toks -> measure t <= width) ->
    forall fuel, (n < fuel)%nat ->
    exists chunks,
      break_fix fuel (TList toks) = (map seg_of chunks, true)
      /\ List.concat chunks = toks
      /\ Forall (fun c => c <> [] /\ measure (join " " c) <= width) chunks.
Proof.
  induction n as [|n IH]; intros toks Hlen Hfit fuel Hfuel.
  - destruct toks; [| simpl in Hlen; lia].
    destruct fuel; [lia |]. exists []. repeat split; constructor.
  - destruct fuel as [|fuel]; [lia |].
    destruct toks as [|t toks].
    { exists []. repeat split; constructor. }
    set (l := t :: toks) in *.
    assert (Hl : 1 <= Z.of_nat (List.length l)) by (subst l; simpl; lia).
    destruct (narrow_exits l (List.length l) 0
                (Z.of_nat (List.length l)) ltac:(lia)) as [r Hr].
    pose proof (narrow_sound l _ 0 (Z.of_nat (List.length l)) r ltac:(lia) Hr)
      as [Hrange Hor].
    assert (H1 : fits l 1).
    { unfold fits_budget. rewrite slice_to_nonneg by lia.
      subst l. simpl. apply Hfit. now left. }
    pose proof (narrow_keeps_one l H1 _ 0 (Z.of_nat (List.length l)) r
                  ltac:(lia) Hl Hr) as Hpos.
    destruct Hor as [-> | Hfits]; [lia |].
    assert (Hrest : (List.length (slice_from l r) <= n)%nat).
    { rewrite slice_from_nonneg by lia. rewrite length_skipn.
      subst l. cbn [List.length] in *. lia. }
    destruct (IH (slice_from l r) Hrest
                (fun t' Ht' => Hfit t' (in_slice_from l r t' Ht'))
                fuel ltac:(lia)) as [chunks [Hbf [Hcat Hall]]].
    exists (slice_to l r :: chunks).
    rewrite break_fix_eq. subst l. cbn [truthy_text negb tokens_of].
    rewrite Hr, Hbf. repeat split.
    + simpl. rewrite Hcat. apply slice_to_from.
    + constructor; [| exact Hall]. split; [| exact Hfits].
      rewrite slice_to_nonneg by lia.
      destruct (Z.to_nat r) eqn:E; [lia | discriminate].
Qed.

(** A generator that is not exhausted within one frame per token (and one
    more) has met a frame that keeps no token, and never is. *)
Lemma break_fix_list_never_finishes :
  forall n toks, (List.length toks <= n)%nat ->
    forall fuel, (n < fuel)%nat ->
    snd (break_fix fuel (TList toks)) = false ->
    forall m, snd (break_fix m (TList toks)) = false.
Proof.
  induction n as [|n IH]; intros toks Hlen fuel Hfuel Hnot m.
  - destruct toks; [| simpl in Hlen; lia].
    destruct fuel; [lia | discriminate].
  - destruct fuel as [|fuel]; [lia |].
    destruct toks as [|t toks]; [discriminate |].
    set (l := t :: toks) in *.
    destruct (narrow_exits l (List.length l) 0
                (Z.of_nat (List.length l)) ltac:(lia)) as [r Hr].
    pose proof (narrow_sound l _ 0 (Z.of_nat (List.length l)) r ltac:(lia) Hr)
      as [Hrange _].
    destruct (Z.eq_dec r 0) as [-> | Hr0].
    + rewrite (break_fix_loops l); [reflexivity | | exact Hr].
      subst l. discriminate.
    + assert (Hrest : (List.length (slice_from l r) <= n)%nat).
      { rewrite slice_from_nonneg by lia. rewrite length_skipn.
        subst l. cbn [List.length] in *. lia. }
      rewrite break_fix_eq in Hnot. subst l.
      cbn [truthy_text negb tokens_of] in Hnot. rewrite Hr in Hnot.
      destruct (break_fix fuel (TList (slice_from (t :: toks) r)))
        as [rest fin] eqn:Erest.
      simpl in Hnot. subst fin.
      destruct m as [|m]; [reflexivity |].
      rewrite break_fix_eq. cbn [truthy_text negb tokens_of]. rewrite Hr.
      pose proof (IH _ Hrest fuel ltac:(lia)
                    ltac:(rewrite Erest; reflexivity) m) as Hm.
      destruct (break_fix m (TList (slice_from (t :: toks) r))) as [rest' fin'].
      simpl in *. exact Hm.
Qed.

(** The first frame on a string works on its tokens. *)
Lemma break_fix_str (fuel : nat) (s : string) :
  split s <> [] -> break_fix fuel (TStr s) = break_fix fuel (TList (split s)).
Proof.
  intros Hne. destruct fuel; [reflexivity |].
  rewrite !break_fix_eq. cbn [tokens_of truthy_text].
  destruct s as [|c s]; [now elim Hne |].
  destruct (split (String c s)); [now elim Hne | reflexivity].
Qed.

(** [list_break_fix] answers [None] only for a generator that is never
    exhausted. *)
Lemma break_fix_never_finishes (text : pytext) :
  list_break_fix textlength width fnt text = None ->
  forall n, snd (break_fix n text) = false.
Proof.
  unfold list_break_fix. intros H n.
  destruct (break_fix (S (S (List.length (tokens_of text)))) text)
    as [segs fin] eqn:E.
  destruct fin; [discriminate |].
  destruct text as [| s | l].
  - discriminate.
  - destruct (split s) as [|w ws] eqn:Es.
    + rewrite break_fix_eq in E. cbn [tokens_of truthy_text] in E.
      destruct s; [discriminate |]. rewrite Es in E. simpl in E.
      discriminate.
    + rewrite break_fix_str in * by (rewrite Es; discriminate).
      cbn [tokens_of] in E.
      apply (break_fix_list_never_finishes (List.length (split s)) _
               (le_n _) (S (S (List.length (split s)))) ltac:(lia)).
      now rewrite E.
  - cbn [tokens_of] in E.
    apply (break_fix_list_never_finishes (List.length l) _
             (le_n _) (S (S (List.length l))) ltac:(lia)).
    now rewrite E.
Qed.


(** A token wider than the budget, alone in the list: the loop keeps
    nothing, for any measure. *)
Lemma break_fix_oversize_token (tok : string) :
  width < measure tok ->
  forall n, break_fix n (TList [tok]) = (repeat ("", measure "") n, false).
Proof.
  intros Hbig. apply break_fix_loops; [discriminate |].
  assert (E : (measure tok <=? width) = false) by (apply Z.leb_gt; lia).
  change (narrow' [tok] (List.length [tok]) 0 (Z.of_nat (List.length [tok])))
    with (if measure tok <=? width then narrow' [tok] 0 1 1
          else narrow' [tok] 0 0 0).
  now rewrite E.
Qed.

(** With a monotone measure the same happens whenever the first of the
    remaining tokens is wider than the budget. *)
Lemma break_fix_oversize_head (t : string) (toks : list string) :
  monotone textlength fnt -> width < measure t ->
  forall n,
    break_fix n (TList (t :: toks)) = (repeat ("", measure "") n, false).
Proof.
  intros Hmono Hbig. apply break_fix_loops; [discriminate |].
  set (l := t :: toks).
  destruct (narrow_exits l (List.length l) 0 (Z.of_nat (List.length l))
              ltac:(lia)) as [r Hr].
  rewrite Hr. f_equal. apply (narrow_stays l _ _ _ _) in Hr; [exact Hr |].
  intros k Hk. unfold fits_budget. rewrite slice_to_nonneg by lia.
  pose proof (Hmono l 1%nat (Z.to_nat k) ltac:(lia)) as Hm.
  subst l. cbn [firstn join] in Hm. cbn [firstn join]. lia.
Qed.

Lemma flat_map_split_chunks (chunks : list (list string)) :
  Forall (fun w => is_word w = true) (List.concat chunks) ->
  flat_map (fun sg : segment => split (fst sg)) (map seg_of chunks)
  = List.concat chunks.
Proof.
  induction chunks as [|c cs IH]; intros Hall; [reflexivity |].
  simpl in *. apply Forall_app in Hall as [Hc Hcs].
  rewrite IH by assumption. now rewrite split_join.
Qed.

(** The line breaking of a text whose tokens each fit the budget: the
    generator is exhausted, the tokens of its segments are the tokens of
    the text in order, every segment carries its measure, holds at least
    one token and stays within the budget. *)
Lemma break_fix_wraps (s : string) :
  split s <> [] ->
  (forall t, In t (split s) -> measure t <= width) ->
  exists segs,
    list_break_fix textlength width fnt (TStr s) = Some segs
    /\ flat_map (fun sg : segment => split (fst sg)) segs = split s
    /\ Forall (fun sg : segment =>
                 snd sg = measure (fst sg) /\ snd sg <= width
                 /\ fst sg <> "") segs.
Proof.
  intros Hne Hfit.
  destruct (break_fix_chunks (List.length (split s)) (split s) (le_n _) Hfit
              (S (S (List.length (split s)))) ltac:(lia))
    as [chunks [Hbf [Hcat Hall]]].
  exists (map seg_of chunks). repeat split.
  - unfold list_break_fix. rewrite break_fix_str by assumption.
    cbn [tokens_of]. now rewrite Hbf.
  - rewrite flat_map_split_chunks; [exact Hcat |].
    rewrite Hcat. apply split_words.
  - assert (Hw : Forall (fun c => Forall (fun w => is_word w = true) c) chunks).
    { pose proof (split_words s) as Hws. rewrite <- Hcat in Hws.
      clear - Hws. induction chunks as [|c cs IH]; constructor.
      - simpl in Hws. now apply Forall_app in Hws as [? _].
      - apply IH. simpl in Hws. now apply Forall_app in Hws as [_ ?]. }
    clear - Hall Hw. induction Hall as [|c cs [Hc Hm] _ IH]; simpl.
    + constructor.
    + apply Forall_cons_iff in Hw as [Hwc Hws].
      constructor; [| now apply IH].
      simpl. repeat split; [exact Hm |].
      destruct c as [|w c]; [congruence |].
      apply Forall_inv in Hwc. unfold is_word in Hwc.
      apply andb_true_iff in Hwc as [Hwe _]. apply negb_true_iff in Hwe.
      destruct w; [discriminate |]. destruct c; discriminate.
Qed.

End TextFlowFacts.

Section TextFlowClaims.

Variable textlength : font -> string -> Z.

(** C1 (the code departs from it). A text made of one word that is wider
    than the budget is never emitted: whatever the budget and the
    measure, every frame of [_break_fix] keeps no token, yields the empty
    segment and hands the same one-token list to the next frame, so the
    generator is never exhausted and [list(...)] has no result. *)
Theorem oversize_token_never_emitted :
  forall (width : Z) (fnt : font) (tok : string),
    is_word tok = true ->
    width < textlength fnt tok ->
    (forall n, _break_fix textlength width fnt n (TStr tok)
               = (repeat ("", textlength fnt "") n, false))
    /\ list_break_fix textlength width fnt (TStr tok) = None.
Proof.
  intros width fnt tok Hw Hbig.
  assert (Hs : split tok = [tok]).
  { change tok with (join " " [tok]) at 1. apply split_join.
    now constructor. }
  assert (Hall : forall n, _break_fix textlength width fnt n (TStr tok)
                           = (repeat ("", textlength fnt "") n, false)).
  { intros n. rewrite break_fix_str by (rewrite Hs; discriminate).
    rewrite Hs. now apply break_fix_oversize_token. }
  split; [exact Hall |].
  unfold list_break_fix. now rewrite Hall.
Qed.

(** C10. A non-empty string of whitespace has no token, and [_break_fix]
    yields for it exactly one segment, with the empty text; both
    renderers draw that empty line and return one [font_size]. The empty
    string and [None] yield nothing, and the renderers return 0 and leave
    the image alone. *)
Theorem whitespace_only_takes_one_line :
  forall (s : string), s <> "" -> all_space s = true ->
  forall (width : Z) (fnt : font) (img : PIL.image)
         (text_color shadow_text_color : string)
         (y_offset fsize x_start x_end shadow : Z),
    let blank :=
      PIL.text
        (if shadow >? 0
         then PIL.text img (x_start + shadow) (y_offset + shadow) ""
                shadow_text_color
         else img)
        x_start y_offset "" text_color in
    split s = []
    /\ (forall fuel, (2 <= fuel)%nat ->
          _break_fix textlength width fnt fuel (TStr s)
          = ([("", textlength fnt "")], true))
    /\ list_break_fix textlength width fnt (TStr s)
       = Some [("", textlength fnt "")]
    /\ _fit_text_top_down textlength img (TStr s) text_color
         shadow_text_color fnt y_offset fsize x_start x_end shadow
       = Some (blank, fsize)
    /\ _fit_text_bottom_up textlength img (TStr s) text_color
         shadow_text_color fnt y_offset fsize x_start x_end shadow
       = Some (blank, fsize)
    /\ (forall text, text = TStr "" \/ text = TNone ->
          list_break_fix textlength width fnt text = Some []
          /\ _fit_text_top_down textlength img text text_color
               shadow_text_color fnt y_offset fsize x_start x_end shadow
             = Some (img, 0)
          /\ _fit_text_bottom_up textlength img text text_color
               shadow_text_color fnt y_offset fsize x_start x_end shadow
             = Some (img, 0)).
Proof.
  intros s Hne Hsp width fnt img tc sc y fs x xe sh blank.
  pose proof (split_all_space s Hsp) as Hsplit.
  assert (Hbf : forall w fuel, (2 <= fuel)%nat ->
            _break_fix textlength w fnt fuel (TStr s)
            = ([("", textlength fnt "")], true)).
  { intros w fuel Hf. destruct fuel as [|[|fuel]]; try lia.
    rewrite break_fix_eq. cbn [truthy_text tokens_of].
    destruct s; [congruence |]. rewrite Hsplit. reflexivity. }
  assert (Hlist : forall w, list_break_fix textlength w fnt (TStr s)
                            = Some [("", textlength fnt "")]).
  { intros w. unfold list_break_fix. rewrite Hbf; [reflexivity |].
    cbn [tokens_of]. lia. }
  repeat split.
  - exact Hsplit.
  - apply Hbf.
  - apply Hlist.
  - unfold _fit_text_top_down. rewrite Hlist. reflexivity.
  - unfold _fit_text_bottom_up. rewrite Hlist. reflexivity.
  - destruct H as [-> | ->]; reflexivity.
  - destruct H as [-> | ->]; reflexivity.
  - destruct H as [-> | ->]; reflexivity.
Qed.

End TextFlowClaims.

Lemma oversize_token_never_emitted_witness :
  is_word "Pneumonoultramicroscopicsilicovolcanoconiosis" = true
  /\ Sample.budget
     < Sample.textlength Sample.title_font
         "Pneumonoultramicroscopicsilicovolcanoconiosis"
  /\ (forall n,
        _break_fix Sample.textlength Sample.budget Sample.title_font n
          (TStr "Pneumonoultramicroscopicsilicovolcanoconiosis")
        = (repeat ("", 0) n, false))
  /\ list_break_fix Sample.textlength Sample.budget Sample.title_font
       (TStr "Pneumonoultramicroscopicsilicovolcanoconiosis") = None.
Proof.
  split; [reflexivity |]. split; [reflexivity |].
  apply (oversize_token_never_emitted Sample.textlength Sample.budget
           Sample.title_font "Pneumonoultramicroscopicsilicovolcanoconiosis");
    reflexivity.
Defined.

Lemma whitespace_only_takes_one_line_witness :
  _fit_text_top_down Sample.textlength (PIL.mkImage 640 400 []) (TStr "   ")
    "white" "black" Sample.title_font 210 40 20 20 4
  = Some (PIL.mkImage 640 400
            [PIL.Text 24 214 "" "black"; PIL.Text 20 210 "" "white"], 40).
Proof.
  assert (Hne : "   " <> "") by discriminate.
  exact (proj1 (proj2 (proj2 (proj2
    (whitespace_only_takes_one_line Sample.textlength "   " Hne eq_refl
       Sample.budget Sample.title_font (PIL.mkImage 640 400 [])
       "white" "black" 210 40 20 20 4))))).
Defined.

(** C2 (the code departs from it, through the defect of C1). A title with
    one word wider than the budget: the generator yields the words before
    it, then the empty segment for ever; the wide word and what follows it
    are never emitted, so the segments never add up to the title. *)
Theorem oversize_word_blocks_the_rest :
  (forall n,
      _break_fix Sample.textlength Sample.budget Sample.title_font (S n)
        (TStr "The Supercalifragilisticexpialidocious Song")
      = (("The", 60) :: repeat ("", 0) n, false))
  /\ list_break_fix Sample.textlength Sample.budget Sample.title_font
       (TStr "The Supercalifragilisticexpialidocious Song") = None.
Proof.
  assert (Hall : forall n,
      _break_fix Sample.textlength Sample.budget Sample.title_font (S n)
        (TStr "The Supercalifragilisticexpialidocious Song")
      = (("The", 60) :: repeat ("", 0) n, false)).
  { intros n.
    rewrite break_fix_str by (vm_compute; discriminate).
    rewrite break_fix_eq.
    change (split "The Supercalifragilisticexpialidocious Song")
      with ["The"; "Supercalifragilisticexpialidocious"; "Song"].
    set (toks := ["The"; "Supercalifragilisticexpialidocious"; "Song"]).
    cbn [truthy_text tokens_of negb toks].
    replace (narrow Sample.textlength Sample.budget Sample.title_font toks
               (List.length toks) 0 (Z.of_nat (List.length toks)))
      with (Some 1) by (vm_compute; reflexivity).
    replace (slice_from toks 1)
      with ["Supercalifragilisticexpialidocious"; "Song"] by reflexivity.
    rewrite (break_fix_loops Sample.textlength Sample.budget Sample.title_font
               ["Supercalifragilisticexpialidocious"; "Song"]);
      [reflexivity | discriminate | vm_compute; reflexivity]. }
  split; [exact Hall |].
  unfold list_break_fix. now rewrite Hall.
Qed.

(** ** Traces *)

Lemma slept_app (a b : list event) : slept (a ++ b) = slept a + slept b.
Proof.
  induction a as [|e a IH]; [reflexivity |].
  destruct e; simpl; rewrite IH; lia.
Qed.

Lemma builds_app (a b : list event) : builds (a ++ b) = (builds a + builds b)%nat.
Proof.
  induction a as [|e a IH]; [reflexivity |].
  destruct e; simpl; rewrite IH; lia.
Qed.

Lemma clears_app (a b : list event) : clears (a ++ b) = (clears a + clears b)%nat.
Proof.
  induction a as [|e a IH]; [reflexivity |].
  destruct e; simpl; rewrite IH; lia.
Qed.

(** ** The poll *)

Section PollFacts.

Variable source : nat -> playing.

Local Notation "'poll_rec'" := (get_song_info_rec source).
Local Notation "'poll'" := (_get_song_info source).

Lemma poll_rec_eq (fuel : nat) (s : service) :
  poll_rec fuel s =
  let s1 := set_count (count s + 1) s in
  if count s + 1 <? recursion_limit then
    match fuel with
    | O => ([], s1, Stuck)
    | S fuel' =>
        let s2 := set_asked (S (asked s)) s1 in
        match source (asked s) with
        | Episode name show cover_url =>
            ([Query], set_count (count s) s2, Returned (Song name cover_url show))
        | Track name artists cover_url =>
            ([Query], set_count (count s) s2, Returned (Song name cover_url artists))
        | Unknown | Malformed =>
            let '(e, s3, r) := poll_rec fuel' s2 in
            match r with
            | Returned a => (Query :: Nap :: e, set_count (count s3 - 1) s3, Returned a)
            | Raised => (Query :: Nap :: e, s3, Raised)
            | Stuck => (Query :: Nap :: e, s3, Stuck)
            end
        | Fails => ([Query], s2, Raised)
        | _ => ([Query], set_count (count s) s2, Returned SEmpty)
        end
    end
  else ([], set_count (count s) s1, Returned SNone).
Proof.
  destruct s as [sp pc ii c a d].
  destruct fuel as [|fuel]; cbn [get_song_info_rec];
    cbv beta iota zeta delta
      [limit_recursion bind modify gets ret emit stuck raise classify count
       set_count set_asked asked song_prev pic_counter idle_index drawn];
    destruct (c + 1 <? recursion_limit) eqn:E; cbn [app];
    try (do 3 f_equal; lia); try reflexivity.
  destruct (source a) eqn:Es;
    cbv beta iota zeta delta
      [limit_recursion bind modify gets ret emit stuck raise classify count
       set_count set_asked asked song_prev pic_counter idle_index drawn];
    cbn [app]; try (do 3 f_equal; lia); try reflexivity.
  - destruct (poll_rec fuel _) as [[e s3] [x | |]]; cbn [app];
      rewrite ?app_nil_r; reflexivity.
  - destruct (poll_rec fuel _) as [[e s3] [x | |]]; cbn [app];
      rewrite ?app_nil_r; reflexivity.
Qed.

Lemma poll_rec_off_display (fuel : nat) : off_display (poll_rec fuel).
Proof.
  induction fuel as [|fuel IH]; intros s; rewrite poll_rec_eq; cbv zeta.
  - destruct (count s + 1 <? recursion_limit); svc; auto 10.
  - destruct (count s + 1 <? recursion_limit); [| svc; auto 10].
    destruct (source (asked s)); try (svc; auto 10; fail).
    all: specialize (IH (set_asked (S (asked s)) (set_count (count s + 1) s)));
      destruct (poll_rec fuel _) as [[e s3] [x | |]]; svc; tauto.
Qed.

Lemma poll_off_display : off_display poll.
Proof. intros s. apply poll_rec_off_display. Qed.

(** The limiter leaves room for [limit - 1 - count] nested calls, and the
    fuel covers them. *)
Lemma poll_rec_not_stuck :
  forall fuel s, recursion_limit - 1 - count s <= Z.of_nat fuel ->
    result (poll_rec fuel s) <> Stuck.
Proof.
  induction fuel as [|fuel IH]; intros s Hroom; rewrite poll_rec_eq; cbv zeta.
  - destruct (count s + 1 <? recursion_limit) eqn:E; [| discriminate].
    apply Z.ltb_lt in E. lia.
  - destruct (count s + 1 <? recursion_limit) eqn:E; [| discriminate].
    destruct (source (asked s)); try discriminate.
    all: specialize (IH (set_asked (S (asked s)) (set_count (count s + 1) s)));
      destruct (poll_rec fuel _) as [[e s3] [x | |]];
      svc; try discriminate; apply IH; lia.
Qed.

Lemma get_song_info_not_stuck (s : service) : result (poll s) <> Stuck.
Proof. apply poll_rec_not_stuck. lia. Qed.

(** A poll that returns gives the counter of the limiter back, and has
    asked the source at most as often as the limiter left room. *)
Lemma poll_rec_bounded :
  forall fuel s a, result (poll_rec fuel s) = Returned a ->
    count (final (poll_rec fuel s)) = count s
    /\ (asked s <= asked (final (poll_rec fuel s)))%nat
    /\ Z.of_nat (asked (final (poll_rec fuel s)) - asked s)
       <= Z.max 0 (recursion_limit - 1 - count s).
Proof.
  induction fuel as [|fuel IH]; intros s a; rewrite poll_rec_eq; cbv zeta.
  - destruct (count s + 1 <? recursion_limit) eqn:E; [discriminate |].
    intros _. svc. lia.
  - destruct (count s + 1 <? recursion_limit) eqn:E;
      [| intros _; svc; lia].
    apply Z.ltb_lt in E.
    destruct (source (asked s)); try discriminate;
      try (intros _; svc; lia).
    all: specialize (IH (set_asked (S (asked s)) (set_count (count s + 1) s)));
      destruct (poll_rec fuel _) as [[e s3] [x | |]];
      svc; try discriminate;
      intros _; specialize (IH x eq_refl); lia.
Qed.

(** Answers of 'unknown' all the way: one query and one pause per level
    until the limiter refuses the call, and [None] comes back through
    every level. *)
Lemma unknown_chain :
  forall d fuel s,
    Z.of_nat d = recursion_limit - 1 - count s -> (d <= fuel)%nat ->
    (forall i, (i < d)%nat -> source (asked s + i) = Unknown) ->
    poll_rec fuel s
    = (List.concat (repeat [Query; Nap] d), set_asked (asked s + d) s,
       Returned SNone).
Proof.
  induction d as [|d IH]; intros fuel s Hd Hfuel Hsrc; rewrite poll_rec_eq;
    cbv zeta.
  - destruct (count s + 1 <? recursion_limit) eqn:E;
      [apply Z.ltb_lt in E; lia |].
    destruct s; svc. do 2 f_equal. same_state.
  - destruct (count s + 1 <? recursion_limit) eqn:E;
      [| apply Z.ltb_ge in E; lia].
    destruct fuel as [|fuel]; [lia |].
    pose proof (Hsrc O ltac:(lia)) as H0. rewrite Nat.add_0_r in H0.
    rewrite H0.
    rewrite (IH fuel (set_asked (S (asked s)) (set_count (count s + 1) s))).
    + destruct s; svc. cbn [repeat List.concat app]. do 2 f_equal.
      same_state.
    + destruct s; svc. lia.
    + lia.
    + intros i Hi. destruct s; svc.
      replace (S asked0 + i)%nat with (asked0 + S i)%nat by lia.
      apply Hsrc. lia.
Qed.

End PollFacts.

(** ** TextBlockRenderer *)

Section RenderFacts.

Variable textlength : font -> string -> Z.
Variables (text_color shadow_text_color : string).
Variables (x_start shadow fsize : Z).

Local Notation "'draw'" :=
  (fun img pieces y h =>
     draw_pieces img pieces text_color shadow_text_color x_start shadow
       fsize y h).
Local Notation "'stack'" :=
  (stacked text_color shadow_text_color x_start shadow fsize).
Local Notation "'line'" :=
  (line_layers text_color shadow_text_color x_start shadow).

(** The loop over the pieces: the size of the image stays, the lines are
    stacked from the starting [y], and both counters advance by one
    [font_size] per piece. *)
Lemma draw_pieces_spec (pieces : list segment) :
  forall img y h,
    let n := Z.of_nat (List.length pieces) in
    draw img pieces y h
    = (PIL.mkImage (PIL.width img) (PIL.height img)
         (PIL.layers img ++ stack y pieces),
       y + n * fsize, h + n * fsize).
Proof.
  induction pieces as [|[t w] rest IH]; intros img y h n.
  - cbn [draw_pieces stacked]. rewrite app_nil_r. destruct img; cbn.
    subst n. cbn [List.length Z.of_nat].
    apply f_equal2; [apply f_equal2; [reflexivity |] |]; lia.
  - cbn [draw_pieces stacked]. rewrite IH. subst n.
    cbn [List.length]. rewrite Nat2Z.inj_succ.
    unfold line_layers. destruct (shadow >? 0);
      cbn [PIL.text PIL.width PIL.height PIL.layers];
      rewrite <- ?app_assoc; cbn [app];
      (apply f_equal2; [apply f_equal2; [reflexivity |] |]; lia).
Qed.

(** The last of the stacked lines sits one [font_size] lower per line
    before it. *)
Lemma stacked_last (init : list segment) (t : string) (w : Z) :
  forall y,
    stack y (init ++ [(t, w)])
    = (stack y init
       ++ line (y + Z.of_nat (List.length init) * fsize) t)%list.
Proof.
  induction init as [|[t' w'] init IH]; intros y.
  - cbn [app stacked List.length Z.of_nat]. rewrite app_nil_r.
    now replace (y + 0 * fsize) with y by lia.
  - cbn [app stacked List.length]. rewrite IH, Nat2Z.inj_succ.
    rewrite <- app_assoc. do 3 f_equal. lia.
Qed.

(** C6. A text that wraps into N >= 1 lines, drawn bottom-up from the
    anchor Y with line height H: the first line is drawn at Y - (N-1)*H and
    the lines are stacked downwards from there, so that the commands of the
    last line are the last ones added and sit at exactly Y; the height
    returned is N*H. *)
Theorem bottom_up_last_line_on_anchor :
  forall (img : PIL.image) (text : pytext) (fnt : font)
         (y_offset x_end : Z) (pieces : list segment),
    list_break_fix textlength
      (PIL.width img - x_start - x_end - shadow) fnt text = Some pieces ->
    (1 <= List.length pieces)%nat ->
    let n := Z.of_nat (List.length pieces) in
    exists img' earlier,
      _fit_text_bottom_up textlength img text text_color shadow_text_color
        fnt y_offset fsize x_start x_end shadow = Some (img', n * fsize)
      /\ PIL.layers img'
         = (PIL.layers img ++ stack (y_offset - (n - 1) * fsize) pieces)%list
      /\ PIL.layers img'
         = (PIL.layers img ++ earlier
            ++ line y_offset (fst (last pieces ("", 0))))%list.
Proof.
  intros img text fnt y_offset x_end pieces Hlist Hlen n.
  unfold _fit_text_bottom_up. rewrite Hlist. fold n.
  set (y0 := if n >? 1 then y_offset - (n - 1) * fsize else y_offset).
  assert (Hy0 : y0 = y_offset - (n - 1) * fsize).
  { subst y0. destruct (n >? 1) eqn:E; [reflexivity |].
    assert (n = 1) by lia. lia. }
  pose proof (draw_pieces_spec pieces img y0 0) as Hdraw.
  cbv zeta in Hdraw. rewrite Hdraw. fold n.
  destruct (exists_last (l := pieces)) as [init [[t w] Hpieces]].
  { intros ->. simpl in Hlen. lia. }
  exists (PIL.mkImage (PIL.width img) (PIL.height img)
            (PIL.layers img ++ stack y0 pieces)),
         (stack y0 init).
  repeat split.
  - cbn [PIL.layers]. now rewrite Hy0.
  - assert (Hn : n = Z.of_nat (List.length init) + 1).
    { subst n. rewrite Hpieces, length_app, Nat2Z.inj_add. reflexivity. }
    cbn [PIL.layers]. rewrite Hpieces at 1. rewrite stacked_last.
    replace (last pieces ("", 0)) with (t, w)
      by (rewrite Hpieces, last_last; reflexivity).
    replace (y0 + Z.of_nat (List.length init) * fsize) with y_offset by lia.
    reflexivity.
Qed.

End RenderFacts.

(** ** FrameCompositor *)

Section CompositorFacts.

Variable textlength : font -> string -> Z.
Variable cfg : Config.t.

Local Notation "'W'" := (Config.width cfg).
Local Notation "'H'" := (Config.height cfg).

Lemma tile_column_size (image : PIL.image) (x : Z) (ys : list Z) :
  forall image_new, same_size (tile_column image_new image x ys) image_new.
Proof.
  unfold tile_column.
  induction ys as [|y ys IH]; intros image_new; [now split |].
  cbn [fold_left]. destruct (IH (PIL.paste image_new image x y)) as [Hw Hh].
  split; [rewrite Hw | rewrite Hh]; reflexivity.
Qed.

Lemma tile_columns_size (image : PIL.image) (target_h bg_h : Z) (xs : list Z) :
  forall image_new im,
    tile_columns image_new image xs target_h bg_h = Some im ->
    same_size im image_new.
Proof.
  induction xs as [|x xs IH]; intros image_new im; cbn [tile_columns].
  - intros [= <-]. now split.
  - destruct (py_range 0 target_h bg_h) as [ys|]; [| discriminate].
    intros Him. apply IH in Him. destruct Him as [Hw Hh].
    destruct (tile_column_size image x ys image_new) as [Hw' Hh'].
    split; congruence.
Qed.

Lemma tile_columns_some (image : PIL.image) (target_h bg_h : Z) (xs : list Z) :
  bg_h <> 0 ->
  forall image_new,
    exists im, tile_columns image_new image xs target_h bg_h = Some im.
Proof.
  intros Hne. induction xs as [|x xs IH]; intros image_new; cbn [tile_columns].
  - eauto.
  - unfold py_range. destruct (bg_h =? 0) eqn:E;
      [apply Z.eqb_eq in E; contradiction | apply IH].
Qed.

(** Every branch of the background step ends on the canvas size. *)
Lemma background_size (image im : PIL.image) :
  background cfg image = Some im -> PIL.width im = W /\ PIL.height im = H.
Proof.
  unfold background, PIL.fit, PIL.crop, PIL.new. cbn [fst snd].
  destruct (String.eqb (Config.background_mode cfg) "fit").
  - destruct (negb (PIL.width image =? W) || negb (PIL.height image =? H)).
    + destruct ((PIL.height image =? 0) || (H =? 0)); [discriminate |].
      destruct ((0 <? W) && (0 <? H)); [| discriminate].
      intros [= <-]. cbn. split; reflexivity.
    + destruct ((0 <=? W) && (0 <=? H)); [| discriminate].
      intros [= <-]. cbn. split; lia.
  - destruct (String.eqb (Config.background_mode cfg) "repeat").
    + destruct ((0 <=? W) && (0 <=? H)); [| discriminate].
      destruct (py_range 0 W (PIL.width image)) as [xs|]; [| discriminate].
      intros Him. apply tile_columns_size in Him. exact Him.
    + destruct ((0 <=? W) && (0 <=? H)); [| discriminate].
      intros [= <-]. cbn. split; lia.
Qed.

Lemma background_some (image : PIL.image) :
  0 < PIL.width image -> 0 < PIL.height image -> 0 < W -> 0 < H ->
  exists im, background cfg image = Some im.
Proof.
  intros Hiw Hih Hw Hh.
  unfold background, PIL.fit, PIL.crop, PIL.new. cbn [fst snd].
  assert (E1 : (PIL.height image =? 0) || (H =? 0) = false).
  { apply orb_false_iff. split; apply Z.eqb_neq; lia. }
  assert (E2 : (0 <? W) && (0 <? H) = true).
  { apply andb_true_iff. split; apply Z.ltb_lt; lia. }
  assert (E3 : (0 <=? W) && (0 <=? H) = true).
  { apply andb_true_iff. split; apply Z.leb_le; lia. }
  rewrite E1, E2, E3.
  destruct (String.eqb (Config.background_mode cfg) "fit").
  - destruct (negb _ || negb _); eauto.
  - destruct (String.eqb (Config.background_mode cfg) "repeat"); [| eauto].
    unfold py_range at 1.
    destruct (PIL.width image =? 0) eqn:E;
      [apply Z.eqb_eq in E; lia |].
    apply tile_columns_some. lia.
Qed.

Lemma fit_text_top_down_size (img img' : PIL.image) (text : pytext)
    (tc sc : string) (fnt : font) (y fs x xe sh h : Z) :
  _fit_text_top_down textlength img text tc sc fnt y fs x xe sh = Some (img', h) ->
  same_size img' img.
Proof.
  unfold _fit_text_top_down.
  destruct (list_break_fix _ _ _ _) as [pieces|]; [| discriminate].
  rewrite draw_pieces_spec. intros [= <- _]. now split.
Qed.

Lemma fit_text_bottom_up_size (img img' : PIL.image) (text : pytext)
    (tc sc : string) (fnt : font) (y fs x xe sh h : Z) :
  _fit_text_bottom_up textlength img text tc sc fnt y fs x xe sh = Some (img', h) ->
  same_size img' img.
Proof.
  unfold _fit_text_bottom_up.
  destruct (list_break_fix _ _ _ _) as [pieces|]; [| discriminate].
  rewrite draw_pieces_spec. intros [= <- _]. now split.
Qed.

Lemma render_text_size (image_new im : PIL.image) (artist title : string) :
  render_text textlength cfg image_new artist title = Some im ->
  same_size im image_new.
Proof.
  unfold render_text.
  destruct (String.eqb (Config.text_direction cfg) "top-down").
  - destruct (_fit_text_top_down _ image_new _ _ _ _ _ _ _ _ _)
      as [[image1 h1]|] eqn:E1; [| discriminate].
    destruct (_fit_text_top_down _ image1 _ _ _ _ _ _ _ _ _)
      as [[image2 h2]|] eqn:E2; [| discriminate].
    intros [= <-]. apply fit_text_top_down_size in E1, E2.
    destruct E1, E2. split; congruence.
  - destruct (String.eqb (Config.text_direction cfg) "bottom-up").
    + destruct (_fit_text_bottom_up _ image_new _ _ _ _ _ _ _ _ _)
        as [[image1 h1]|] eqn:E1; [| discriminate].
      destruct (_fit_text_bottom_up _ image1 _ _ _ _ _ _ _ _ _)
        as [[image2 h2]|] eqn:E2; [| discriminate].
      intros [= <-]. apply fit_text_bottom_up_size in E1, E2.
      destruct E1, E2. split; congruence.
    + intros [= <-]. now split.
Qed.

Lemma small_cover_size (image image_new im : PIL.image) (show : bool) :
  small_cover cfg image image_new show = Some im -> same_size im image_new.
Proof.
  unfold small_cover.
  destruct (show && Config.album_cover_small cfg).
  - destruct (PIL.resize _ _ _); [| discriminate]. intros [= <-]. now split.
  - intros [= <-]. now split.
Qed.

Lemma blur_background_size (image_new : PIL.image) :
  same_size (blur_background cfg image_new) image_new.
Proof.
  unfold blur_background.
  destruct (Config.album_cover_small cfg && _); now split.
Qed.

(** Whatever [_gen_pic] returns has the canvas size. *)
Lemma gen_pic_size (image frame : PIL.image) (artist title : string)
    (show : bool) :
  _gen_pic textlength cfg image artist title show = Some frame ->
  PIL.width frame = W /\ PIL.height frame = H.
Proof.
  unfold _gen_pic.
  destruct (background cfg image) as [image_new|] eqn:Eb; [| discriminate].
  destruct (small_cover _ _ _ _) as [image_new'|] eqn:Es; [| discriminate].
  intros Hr. apply render_text_size in Hr. apply small_cover_size in Es.
  apply background_size in Eb.
  destruct (blur_background_size image_new) as [Hbw Hbh].
  destruct Hr, Es, Eb. split; congruence.
Qed.

End CompositorFacts.

Section CompositorProduces.

Variable textlength : font -> string -> Z.
Variable cfg : Config.t.

(** A string without tokens: nothing for the empty string, one empty
    segment for whitespace. *)
Lemma list_break_fix_blank (width : Z) (fnt : font) (s : string) :
  split s = [] ->
  list_break_fix textlength width fnt (TStr s)
  = Some (if is_empty s then [] else [("", textlength fnt "")]).
Proof.
  intros Hs. unfold list_break_fix. cbn [tokens_of]. rewrite Hs.
  cbn [List.length]. rewrite break_fix_eq. cbn [truthy_text tokens_of].
  destruct s as [|c s]; [reflexivity |]. rewrite Hs. reflexivity.
Qed.

(** [list(self._break_fix(...))] has a result whenever every token
    fits. *)
Lemma list_break_fix_some (width : Z) (fnt : font) (s : string) :
  tokens_fit textlength width fnt s ->
  exists pieces, list_break_fix textlength width fnt (TStr s) = Some pieces.
Proof.
  intros Hfit. destruct (split s) as [|w ws] eqn:Es.
  - rewrite list_break_fix_blank by assumption. eauto.
  - destruct (break_fix_wraps textlength width fnt s) as [segs [Hsegs _]].
    + rewrite Es. discriminate.
    + exact Hfit.
    + eauto.
Qed.

Lemma fit_text_top_down_some (img : PIL.image) (s tc sc : string)
    (fnt : font) (y fs x xe sh : Z) :
  tokens_fit textlength (PIL.width img - x - xe - sh) fnt s ->
  exists img' h,
    _fit_text_top_down textlength img (TStr s) tc sc fnt y fs x xe sh
    = Some (img', h).
Proof.
  intros Hfit. destruct (list_break_fix_some _ _ _ Hfit) as [pieces Hp].
  unfold _fit_text_top_down. rewrite Hp, draw_pieces_spec. eauto.
Qed.

Lemma fit_text_bottom_up_some (img : PIL.image) (s tc sc : string)
    (fnt : font) (y fs x xe sh : Z) :
  tokens_fit textlength (PIL.width img - x - xe - sh) fnt s ->
  exists img' h,
    _fit_text_bottom_up textlength img (TStr s) tc sc fnt y fs x xe sh
    = Some (img', h).
Proof.
  intros Hfit. destruct (list_break_fix_some _ _ _ Hfit) as [pieces Hp].
  unfold _fit_text_bottom_up. rewrite Hp, draw_pieces_spec. eauto.
Qed.

Lemma render_text_some (image_new : PIL.image) (artist title : string) :
  PIL.width image_new = Config.width cfg ->
  tokens_fit textlength (text_budget cfg)
    (mkFont (Config.font_path cfg) (Config.font_size_title cfg)) title ->
  tokens_fit textlength (text_budget cfg)
    (mkFont (Config.font_path cfg) (Config.font_size_artist cfg)) artist ->
  exists im, render_text textlength cfg image_new artist title = Some im.
Proof.
  intros Hw Ht Ha. unfold render_text, text_budget in *. rewrite <- Hw in Ht, Ha.
  destruct (String.eqb (Config.text_direction cfg) "top-down").
  - edestruct (fit_text_top_down_some image_new title) as [image1 [h1 E1]];
      [exact Ht |]. rewrite E1.
    pose proof (fit_text_top_down_size _ _ _ _ _ _ _ _ _ _ _ _ _ E1) as [Hw1 _].
    rewrite <- Hw1 in Ha.
    edestruct (fit_text_top_down_some image1 artist) as [image2 [h2 E2]];
      [exact Ha |]. rewrite E2. eauto.
  - destruct (String.eqb (Config.text_direction cfg) "bottom-up"); [| eauto].
    edestruct (fit_text_bottom_up_some image_new artist) as [image1 [h1 E1]];
      [exact Ha |]. rewrite E1.
    pose proof (fit_text_bottom_up_size _ _ _ _ _ _ _ _ _ _ _ _ _ E1) as [Hw1 _].
    rewrite <- Hw1 in Ht.
    edestruct (fit_text_bottom_up_some image1 title) as [image2 [h2 E2]];
      [exact Ht |]. rewrite E2. eauto.
Qed.

(** C5. Whatever the source image and the background mode ([fit],
    [repeat] or anything else), a frame returned by [_gen_pic] has exactly
    the canvas width and height; and a frame is returned for every source
    image of positive size, larger or smaller than the canvas, on a canvas
    of positive size, with a positive small-cover size and a title and an
    artist whose words each fit the text width. *)
Theorem frame_has_canvas_size :
  forall (image : PIL.image) (artist title : string) (show_small_cover : bool),
    (forall frame,
        _gen_pic textlength cfg image artist title show_small_cover = Some frame ->
        PIL.width frame = Config.width cfg
        /\ PIL.height frame = Config.height cfg)
    /\ (0 < PIL.width image -> 0 < PIL.height image ->
        0 < Config.width cfg -> 0 < Config.height cfg ->
        0 < Config.album_cover_small_px cfg ->
        tokens_fit textlength (text_budget cfg)
          (mkFont (Config.font_path cfg) (Config.font_size_title cfg)) title ->
        tokens_fit textlength (text_budget cfg)
          (mkFont (Config.font_path cfg) (Config.font_size_artist cfg)) artist ->
        exists frame,
          _gen_pic textlength cfg image artist title show_small_cover = Some frame
          /\ PIL.width frame = Config.width cfg
          /\ PIL.height frame = Config.height cfg).
Proof.
  intros image artist title show. split.
  - intros frame. apply gen_pic_size.
  - intros Hiw Hih Hw Hh Hpx Ht Ha.
    destruct (background_some cfg image Hiw Hih Hw Hh) as [image_new Eb].
    assert (Es : exists im,
               small_cover cfg image (blur_background cfg image_new) show
               = Some im).
    { unfold small_cover, PIL.resize.
      destruct (show && Config.album_cover_small cfg); [| eauto].
      replace (0 <? Config.album_cover_small_px cfg) with true
        by (symmetry; apply Z.ltb_lt; lia).
      cbn [andb]. eauto. }
    destruct Es as [image_new' Es].
    assert (Hw' : PIL.width image_new' = Config.width cfg).
    { apply small_cover_size in Es. apply background_size in Eb.
      destruct (blur_background_size cfg image_new). destruct Es, Eb.
      congruence. }
    destruct (render_text_some image_new' artist title Hw' Ht Ha) as [frame Er].
    assert (Eg : _gen_pic textlength cfg image artist title show = Some frame).
    { unfold _gen_pic. now rewrite Eb, Es. }
    exists frame. split; [exact Eg |]. now apply gen_pic_size in Eg.
Qed.

End CompositorProduces.

(** ** Sequencing *)

Lemma run_eta {A : Type} (x : list event * service * outcome A) :
  x = (events x, final x, result x).
Proof. now destruct x as [[e s] r]. Qed.

Lemma bind_returned {A B : Type} (m : M A) (k : A -> M B) (s : service) (a : A) :
  result (m s) = Returned a ->
  bind m k s
  = ((events (m s) ++ events (k a (final (m s))))%list,
     final (k a (final (m s))), result (k a (final (m s)))).
Proof.
  unfold bind, events, final, result. destruct (m s) as [[e1 s1] r]. cbn.
  intros ->. now destruct (k a s1) as [[e2 s2] r2].
Qed.

Lemma bind_raised {A B : Type} (m : M A) (k : A -> M B) (s : service) :
  result (m s) = Raised ->
  bind m k s = (events (m s), final (m s), Raised).
Proof.
  unfold bind, events, final, result. destruct (m s) as [[e1 s1] r]. cbn.
  now intros ->.
Qed.

Lemma try_except_returned {A : Type} (m h : M A) (s : service) (a : A) :
  result (m s) = Returned a -> try_except m h s = m s.
Proof.
  unfold try_except, result. destruct (m s) as [[e1 s1] r]. cbn. now intros ->.
Qed.

Lemma try_except_raised {A : Type} (m h : M A) (s : service) :
  result (m s) = Raised ->
  try_except m h s
  = ((events (m s) ++ events (h (final (m s))))%list,
     final (h (final (m s))), result (h (final (m s)))).
Proof.
  unfold try_except, events, final, result. destruct (m s) as [[e1 s1] r]. cbn.
  intros ->. now destruct (h s1) as [[e2 s2] r2].
Qed.

(** ** Methods that stay off the display and the poll *)

Lemma quiet_ret {A : Type} (a : A) : quiet (ret a).
Proof. intros s. unfold ret. svc. repeat split; discriminate. Qed.

Lemma quiet_raise {A : Type} : quiet (@raise A).
Proof. intros s. unfold raise. svc. repeat split; discriminate. Qed.

Lemma quiet_lift {A : Type} (o : option A) : quiet (lift o).
Proof. destruct o; [apply quiet_ret | apply quiet_raise]. Qed.

Lemma quiet_gets {A : Type} (f : service -> A) : quiet (gets f).
Proof. intros s. unfold gets. svc. repeat split; discriminate. Qed.

Lemma quiet_set_idle_index (v : Z) : quiet (modify (set_idle_index v)).
Proof. intros s. unfold modify. svc. repeat split; discriminate. Qed.

Lemma quiet_set_drawn (v : nat) : quiet (modify (set_drawn v)).
Proof. intros s. unfold modify. svc. repeat split; discriminate. Qed.

Lemma quiet_bind {A B : Type} (m : M A) (k : A -> M B) :
  quiet m -> (forall a, quiet (k a)) -> quiet (bind m k).
Proof.
  intros Hm Hk s. specialize (Hm s). unfold bind.
  destruct (m s) as [[e1 s1] [a | |]]; svc.
  - specialize (Hk a s1). destruct (k a s1) as [[e2 s2] r2]. svc.
    destruct Hm as (-> & Hsp & Hpc & Hc & Ha & _).
    destruct Hk as (-> & Hsp' & Hpc' & Hc' & Ha' & Hr).
    repeat split; try congruence.
  - repeat split; try apply Hm. discriminate.
  - destruct Hm as (_ & _ & _ & _ & _ & Hr). now elim Hr.
Qed.

Lemma quiet_try_except {A : Type} (m h : M A) :
  quiet m -> quiet h -> quiet (try_except m h).
Proof.
  intros Hm Hh s. specialize (Hm s). unfold try_except.
  destruct (m s) as [[e1 s1] [a | |]]; svc.
  - exact Hm.
  - specialize (Hh s1). destruct (h s1) as [[e2 s2] r2]. svc.
    destruct Hm as (-> & Hsp & Hpc & Hc & Ha & _).
    destruct Hh as (-> & Hsp' & Hpc' & Hc' & Ha' & Hr).
    repeat split; try congruence.
  - exact Hm.
Qed.

Create HintDb quiet.
#[export] Hint Resolve quiet_ret quiet_raise quiet_lift quiet_gets
  quiet_set_idle_index quiet_set_drawn quiet_bind quiet_try_except : quiet.

(** ** Methods that always end *)

Lemma never_stuck_ret {A : Type} (a : A) : never_stuck (ret a).
Proof. intros s. discriminate. Qed.

Lemma never_stuck_emit (e : event) : never_stuck (emit e).
Proof. intros s. discriminate. Qed.

Lemma never_stuck_gets {A : Type} (f : service -> A) : never_stuck (gets f).
Proof. intros s. discriminate. Qed.

Lemma never_stuck_modify (f : service -> service) : never_stuck (modify f).
Proof. intros s. discriminate. Qed.

Lemma never_stuck_bind {A B : Type} (m : M A) (k : A -> M B) :
  never_stuck m -> (forall a, never_stuck (k a)) -> never_stuck (bind m k).
Proof.
  intros Hm Hk s. specialize (Hm s). unfold bind, result in *.
  destruct (m s) as [[e1 s1] [a | |]]; cbn [snd] in *.
  - specialize (Hk a s1). unfold result in Hk.
    now destruct (k a s1) as [[e2 s2] r2].
  - discriminate.
  - now elim Hm.
Qed.

Lemma never_stuck_try_except {A : Type} (m h : M A) :
  never_stuck m -> never_stuck h -> never_stuck (try_except m h).
Proof.
  intros Hm Hh s. specialize (Hm s). unfold try_except, result in *.
  destruct (m s) as [[e1 s1] [a | |]]; cbn [snd] in *.
  - discriminate.
  - specialize (Hh s1). unfold result in Hh.
    now destruct (h s1) as [[e2 s2] r2].
  - now elim Hm.
Qed.

Create HintDb ends.
#[export] Hint Resolve never_stuck_ret never_stuck_emit never_stuck_gets
  never_stuck_modify never_stuck_bind never_stuck_try_except : ends.

(** ** Display updates *)

Section DisplayFacts.

Variable textlength : font -> string -> Z.
Variable cfg : Config.t.
Variable idle_images : list string.
Variable open_image : string -> option PIL.image.
Variable fetch_cover : string -> option PIL.image.
Variable rand : nat -> nat.

Local Notation "'compose''" :=
  (compose textlength cfg idle_images open_image fetch_cover rand).
Local Notation "'update'" :=
  (_display_update_process textlength cfg idle_images open_image
     fetch_cover rand).
Local Notation "'threshold'" := (Config.display_refresh_counter cfg).

(** Building the image causes no event, always ends, and touches neither
    the previous key nor the refresh counter nor the poll. *)
Lemma idle_path_quiet : quiet (idle_path cfg idle_images rand).
Proof.
  unfold idle_path. destruct idle_images as [|p ps]; [auto with quiet |].
  destruct (Config.idle_shuffle cfg); auto 10 with quiet.
Qed.

Lemma compose_is_quiet (req : song_info) : quiet (compose' req).
Proof.
  pose proof idle_path_quiet.
  unfold compose, _get_idle_image. destruct req; auto 10 with quiet.
Qed.

Lemma compose_quiet (req : song_info) (s : service) :
  events (compose' req s) = []
  /\ song_prev (final (compose' req s)) = song_prev s
  /\ pic_counter (final (compose' req s)) = pic_counter s
  /\ count (final (compose' req s)) = count s
  /\ asked (final (compose' req s)) = asked s
  /\ result (compose' req s) <> Stuck.
Proof. apply compose_is_quiet. Qed.

(** [_display_update_process], once the image is built: the clear, when
    the counter is above the threshold, comes before the push; the counter
    restarts from 0 on a clear and is incremented by the push. *)
Lemma update_eq (req : song_info) (s : service) :
  update req s =
  match result (compose' req s) with
  | Returned image =>
      (Update req
         :: (if pic_counter s >? threshold then [Clean] else [])
         ++ [Show image],
       set_pic_counter
         ((if pic_counter s >? threshold then 0 else pic_counter s) + 1)
         (final (compose' req s)),
       Returned tt)
  | Raised => ([Update req], final (compose' req s), Raised)
  | Stuck => ([Update req], final (compose' req s), Stuck)
  end.
Proof.
  destruct (compose_quiet req s) as [He [_ [Hpc _]]].
  unfold _display_update_process, _display_clean, _display_image, bind,
    emit, gets, modify, ret.
  destruct (compose' req s) as [[e s1] [image | |]]; svc; subst e;
    cbn [app]; try reflexivity.
  rewrite Hpc.
  destruct (pic_counter s >? threshold); cbn [app]; svc; rewrite ?Hpc;
    reflexivity.
Qed.

Lemma update_builds_once (req : song_info) (s : service) :
  builds (events (update req s)) = 1%nat
  /\ song_prev (final (update req s)) = song_prev s
  /\ count (final (update req s)) = count s
  /\ asked (final (update req s)) = asked s
  /\ slept (events (update req s)) = 0
  /\ result (update req s) <> Stuck.
Proof.
  rewrite update_eq.
  destruct (compose_quiet req s) as [_ [Hsp [_ [Hc [Ha Hst]]]]].
  destruct (result (compose' req s)) as [image | |]; svc;
    try (destruct (pic_counter s >? threshold); svc);
    repeat split; try assumption; try reflexivity; try discriminate;
    now elim Hst.
Qed.

(** Pushes that start at or below the threshold and stay there: no
    clear, one more on the counter each. *)
Lemma pushes_without_clear (req : song_info) :
  (forall s, exists image, result (compose' req s) = Returned image) ->
  forall n s,
    pic_counter s + Z.of_nat n <= threshold + 1 ->
    (exists l, result (calls n (update req) s) = Returned l)
    /\ pic_counter (final (calls n (update req) s)) = pic_counter s + Z.of_nat n
    /\ clears (events (calls n (update req) s)) = O.
Proof.
  intros Hc. induction n as [|n IH]; intros s Hle.
  - cbn [calls]. unfold ret. svc. repeat split; eauto; lia.
  - cbn [calls].
    destruct (Hc s) as [image Him].
    destruct (compose_quiet req s) as [_ [_ [Hpc _]]].
    pose proof (update_eq req s) as Hu. rewrite Him in Hu.
    assert (E : (pic_counter s >? threshold) = false).
    { rewrite Z.gtb_ltb. apply Z.ltb_ge. lia. }
    rewrite E in Hu. cbn [app] in Hu.
    erewrite bind_returned by (rewrite Hu; reflexivity).
    rewrite Hu. svc.
    set (s1 := set_pic_counter (pic_counter s + 1)
                 (final (compose' req s))).
    assert (Hs1 : pic_counter s1 = pic_counter s + 1) by reflexivity.
    destruct (IH s1 ltac:(lia)) as [[l Hl] [Hpc1 Hcl]].
    erewrite bind_returned by exact Hl.
    unfold ret. svc. fold s1. rewrite app_nil_r. repeat split.
    + eauto.
    + rewrite Hpc1. lia.
    + exact Hcl.
Qed.

(** C3, as the code has it. With a threshold of 20 and the counter at 0,
    none of the first 21 pushes clears the display, and the k-th leaves the
    counter at k; the 22nd push is the one that finds the counter at 21:
    it clears the display before it shows its frame, restarts the counter
    from 0 and leaves it at 1. *)
Theorem clear_on_the_push_that_finds_21 :
  threshold = 20 ->
  forall req,
    (forall s, exists image, result (compose' req s) = Returned image) ->
    forall s, pic_counter s = 0 ->
      (forall k, (k <= 21)%nat ->
          clears (events (calls k (update req) s)) = O
          /\ pic_counter (final (calls k (update req) s)) = Z.of_nat k)
      /\ (exists image,
            result (compose' req (final (calls 21 (update req) s)))
            = Returned image
            /\ update req (final (calls 21 (update req) s))
               = ([Update req; Clean; Show image],
                  set_pic_counter 1
                    (final (compose' req (final (calls 21 (update req) s)))),
                  Returned tt)).
Proof.
  intros Hth req Hc s H0.
  assert (Hfirst : forall k, (k <= 21)%nat ->
            clears (events (calls k (update req) s)) = O
            /\ pic_counter (final (calls k (update req) s)) = Z.of_nat k).
  { intros k Hk.
    destruct (pushes_without_clear req Hc k s ltac:(lia)) as [_ [Hpc Hcl]].
    split; [exact Hcl | rewrite Hpc; lia]. }
  split; [exact Hfirst |].
  destruct (Hfirst 21%nat (le_n _)) as [_ H21].
  set (s21 := final (calls 21 (update req) s)) in *.
  destruct (Hc s21) as [image Him]. exists image. split; [exact Him |].
  rewrite update_eq, Him, H21, Hth. reflexivity.
Qed.

End DisplayFacts.

Lemma clear_on_the_push_that_finds_21_witness :
  Sample.update Sample.song_a
    (final (calls 21 (Sample.update Sample.song_a) fresh))
  = ([Update Sample.song_a; Clean; Show Sample.frame_a],
     mkService "" 1 0 0 0 0, Returned tt).
Proof.
  destruct (clear_on_the_push_that_finds_21 Sample.textlength Sample.cfg
              Sample.idle_images Sample.open_image Sample.fetch_cover
              Sample.rand eq_refl Sample.song_a
              (fun s => ex_intro _ Sample.frame_a eq_refl) fresh eq_refl)
    as [_ [image [Him Hu]]].
  unfold Sample.update. rewrite Hu. vm_compute in Him.
  injection Him as <-. vm_compute. reflexivity.
Defined.

(** C3 as stated fails: after 20 pushes from 0 the counter is at 20, not
    21, and the 21st push does not clear the display. *)
Lemma clear_on_21st_push_counterexample :
  pic_counter (final (calls 20 (Sample.update Sample.song_a) fresh)) <> 21
  /\ ~ In Clean
        (events (Sample.update Sample.song_a
                   (final (calls 20 (Sample.update Sample.song_a) fresh)))).
Proof.
  split.
  - vm_compute. discriminate.
  - vm_compute. intros [H | [H | []]]; discriminate.
Qed.

(** ** IdleGallery *)

Lemma calls_add {A : Type} (f : M A) (m : nat) :
  forall n s l1,
    result (calls n f s) = Returned l1 ->
    calls (n + m) f s
    = ((events (calls n f s) ++ events (calls m f (final (calls n f s))))%list,
       final (calls m f (final (calls n f s))),
       match result (calls m f (final (calls n f s))) with
       | Returned l2 => Returned (l1 ++ l2)%list
       | Raised => Raised
       | Stuck => Stuck
       end).
Proof.
  induction n as [|n IH]; intros s l1.
  - cbn [calls Nat.add]. unfold ret, events, final, result. cbn [fst snd app].
    intros [= <-]. destruct (calls m f s) as [[e s'] [l | |]]; reflexivity.
  - cbn [calls Nat.add]. unfold bind, events, final, result.
    destruct (f s) as [[e1 s1] [a | |]]; cbn [fst snd]; try discriminate.
    specialize (IH s1). unfold events, final, result in IH.
    destruct (calls n f s1) as [[e2 s2] [l | |]]; cbn [fst snd] in *;
      try discriminate.
    unfold ret. cbn [fst snd]. intros [= <-].
    rewrite (IH l eq_refl).
    destruct (calls m f s2) as [[e3 s3] [l3 | |]]; cbn [fst snd app];
      rewrite ?app_nil_r, ?app_assoc; reflexivity.
Qed.

Lemma skipn_nth_error {A : Type} (l : list A) :
  forall c a, nth_error l c = Some a -> skipn c l = a :: skipn (S c) l.
Proof.
  induction l as [|x l IH]; intros [|c] a H; try discriminate.
  - now injection H as ->.
  - cbn [skipn]. now apply IH.
Qed.

Section GalleryFacts.

Variable cfg : Config.t.
Variable idle_images : list string.
Variable open_image : string -> option PIL.image.
Variable rand : nat -> nat.

Local Notation "'select'" := (_get_idle_image cfg idle_images open_image rand).
Local Notation "'K'" := (List.length idle_images).

(** One selection in cycle mode: the image under the cursor, and the
    cursor one further, modulo the size of the gallery. *)
Lemma get_idle_image_step (c : nat) (p : string) (im : PIL.image)
    (s : service) :
  Config.idle_shuffle cfg = false ->
  nth_error idle_images c = Some p ->
  open_image p = Some im ->
  idle_index s = Z.of_nat c ->
  select s
  = ([], set_idle_index ((Z.of_nat c + 1) mod Z.of_nat K) s, Returned im).
Proof.
  intros Hsh Hp Him Hc.
  assert (HcK : (c < K)%nat) by (apply nth_error_Some; congruence).
  unfold _get_idle_image, idle_path.
  destruct idle_images as [|p0 ps] eqn:El; [destruct c; discriminate |].
  rewrite <- El in *. rewrite Hsh.
  unfold bind, gets, modify, lift, ret, py_index. rewrite Hc.
  replace ((0 <=? Z.of_nat c) && (Z.of_nat c <? Z.of_nat K)) with true
    by (symmetry; apply andb_true_iff; split;
        [apply Z.leb_le | apply Z.ltb_lt]; lia).
  rewrite Nat2Z.id, Hp. svc. rewrite Him. reflexivity.
Qed.

(** Selections in a row, for as long as the cursor does not pass the
    end. *)
Lemma get_idle_image_run (ims : list PIL.image) :
  Config.idle_shuffle cfg = false ->
  map open_image idle_images = map Some ims ->
  forall n c s,
    idle_index s = Z.of_nat c -> (c < K)%nat -> (c + n <= K)%nat ->
    calls n select s
    = ([], set_idle_index (Z.of_nat (c + n) mod Z.of_nat K) s,
       Returned (firstn n (skipn c ims))).
Proof.
  intros Hsh Hmap.
  assert (Hlen : List.length ims = K).
  { apply (f_equal (@List.length _)) in Hmap. now rewrite !length_map in Hmap. }
  induction n as [|n IH]; intros c s Hc HcK Hn.
  - cbn [calls firstn]. unfold ret. do 2 f_equal.
    rewrite Nat.add_0_r, Z.mod_small by lia. destruct s; svc. subst.
    reflexivity.
  - destruct (nth_error idle_images c) as [p|] eqn:Ep;
      [| apply nth_error_None in Ep; lia].
    destruct (nth_error ims c) as [im|] eqn:Eim;
      [| apply nth_error_None in Eim; lia].
    assert (Him : open_image p = Some im).
    { pose proof (f_equal (fun l => nth_error l c) Hmap) as Hnth.
      cbn beta in Hnth. rewrite !nth_error_map, Ep, Eim in Hnth.
      now injection Hnth. }
    cbn [calls].
    erewrite bind_returned
      by (rewrite (get_idle_image_step c p im s Hsh Ep Him Hc); reflexivity).
    rewrite (get_idle_image_step c p im s Hsh Ep Him Hc). svc.
    rewrite (skipn_nth_error ims c im Eim). cbn [firstn].
    destruct n as [|n].
    + cbn [calls]. unfold bind, ret. svc.
      replace (Z.of_nat (c + 1)) with (Z.of_nat c + 1) by lia. reflexivity.
    + set (s1 := set_idle_index ((Z.of_nat c + 1) mod Z.of_nat K) s).
      assert (Hs1 : idle_index s1 = Z.of_nat (S c)).
      { subst s1. svc. rewrite Z.mod_small by lia. lia. }
      rewrite (bind_returned (calls (S n) select) _ s1
                 (firstn (S n) (skipn (S c) ims)))
        by (rewrite (IH (S c) s1 Hs1) by lia; reflexivity).
      rewrite (IH (S c) s1 Hs1) by lia. unfold ret. svc.
      replace (S c + S n)%nat with (c + S (S n))%nat by lia.
      reflexivity.
Qed.

(** A full round from any cursor [c]: the images from the cursor to the
    end, then those before the cursor, and the service is back where it
    was. *)
Lemma get_idle_image_round (ims : list PIL.image) (c : nat) (s : service) :
  Config.idle_shuffle cfg = false ->
  map open_image idle_images = map Some ims ->
  idle_index s = Z.of_nat c -> (c < K)%nat ->
  calls K select s = ([], s, Returned (skipn c ims ++ firstn c ims)%list).
Proof.
  intros Hsh Hmap Hc HcK.
  assert (Hlen : List.length ims = K).
  { apply (f_equal (@List.length _)) in Hmap. now rewrite !length_map in Hmap. }
  pose proof (get_idle_image_run ims Hsh Hmap (K - c) c s Hc HcK ltac:(lia))
    as Hfirst.
  replace (c + (K - c))%nat with K in Hfirst by lia.
  rewrite Z.mod_same in Hfirst by lia.
  rewrite firstn_all2 in Hfirst by (rewrite length_skipn; lia).
  pose proof (get_idle_image_run ims Hsh Hmap c 0 (set_idle_index 0 s)
                eq_refl ltac:(lia) ltac:(lia)) as Hsecond.
  cbn [Nat.add skipn] in Hsecond. rewrite Z.mod_small in Hsecond by lia.
  replace K with ((K - c) + c)%nat at 1 by lia.
  rewrite (calls_add select c (K - c) s (skipn c ims))
    by (rewrite Hfirst; reflexivity).
  rewrite Hfirst. svc. rewrite Hsecond. svc.
  do 2 f_equal. destruct s; svc. now subst.
Qed.

(** The cursor after [j] selections of a round. *)
Lemma get_idle_image_cursor (ims : list PIL.image) (c j : nat) (s : service) :
  Config.idle_shuffle cfg = false ->
  map open_image idle_images = map Some ims ->
  idle_index s = Z.of_nat c -> (c < K)%nat -> (j <= K)%nat ->
  idle_index (final (calls j select s)) = Z.of_nat (c + j) mod Z.of_nat K.
Proof.
  intros Hsh Hmap Hc HcK Hj.
  destruct (Nat.le_gt_cases (c + j) K) as [Hle | Hgt].
  - now rewrite (get_idle_image_run ims Hsh Hmap j c s Hc HcK Hle).
  - pose proof (get_idle_image_run ims Hsh Hmap (K - c) c s Hc HcK ltac:(lia))
      as Hfirst.
    replace (c + (K - c))%nat with K in Hfirst by lia.
    rewrite Z.mod_same in Hfirst by lia.
    pose proof (get_idle_image_run ims Hsh Hmap (j - (K - c)) 0
                  (set_idle_index 0 s) eq_refl ltac:(lia) ltac:(lia))
      as Hsecond.
    replace j with ((K - c) + (j - (K - c)))%nat at 1 by lia.
    rewrite (calls_add select (j - (K - c)) (K - c) s _)
      by (rewrite Hfirst; reflexivity).
    rewrite Hfirst. svc. rewrite Hsecond. svc.
    cbn [Nat.add]. rewrite Z.mod_small by lia.
    apply Z.mod_unique with (q := 1); lia.
Qed.

(** C7. Shuffle off, K > 0 images that all open. From the cursor where
    [__init__] (and every full round) leaves it, K selections return the
    images once each in discovery order; from any cursor they return each
    image once, in discovery order from the cursor on and around. Either
    way the service is back in the state it started from, so the next K
    selections return the same sequence again; on the way the cursor
    advances by one modulo K, to 0 after the last element. *)
Theorem gallery_round_robin :
  forall (ims : list PIL.image) (c : nat) (s : service),
    Config.idle_shuffle cfg = false ->
    map open_image idle_images = map Some ims ->
    idle_index s = Z.of_nat c -> (c < K)%nat ->
    (c = O -> calls K select s = ([], s, Returned ims))
    /\ calls K select s = ([], s, Returned (skipn c ims ++ firstn c ims)%list)
    /\ calls (K + K) select s
       = ([], s,
          Returned ((skipn c ims ++ firstn c ims)
                    ++ (skipn c ims ++ firstn c ims))%list)
    /\ (forall j, (j <= K)%nat ->
          idle_index (final (calls j select s))
          = Z.of_nat (c + j) mod Z.of_nat K).
Proof.
  intros ims c s Hsh Hmap Hc HcK.
  pose proof (get_idle_image_round ims c s Hsh Hmap Hc HcK) as Hround.
  split; [| split; [exact Hround | split]].
  - intros ->. rewrite Hround. cbn [skipn firstn]. now rewrite app_nil_r.
  - rewrite (calls_add select K K s _) by (rewrite Hround; reflexivity).
    rewrite Hround. svc. rewrite Hround. reflexivity.
  - intros j Hj. now apply (get_idle_image_cursor ims).
Qed.

End GalleryFacts.

Lemma gallery_round_robin_witness :
  calls 6
    (_get_idle_image Sample.cfg Sample.idle_images Sample.open_image Sample.rand)
    fresh
  = ([], fresh,
     Returned [PIL.mkImage 800 480 []; PIL.mkImage 1024 768 [];
               PIL.mkImage 320 200 []; PIL.mkImage 800 480 [];
               PIL.mkImage 1024 768 []; PIL.mkImage 320 200 []]).
Proof.
  assert (Hlt : (0 < List.length Sample.idle_images)%nat) by (cbn; lia).
  exact (proj1 (proj2 (proj2
    (gallery_round_robin Sample.cfg Sample.idle_images Sample.open_image
       Sample.rand
       [PIL.mkImage 800 480 []; PIL.mkImage 1024 768 []; PIL.mkImage 320 200 []]
       O fresh eq_refl eq_refl eq_refl Hlt)))).
Defined.

(** ** PlaybackPoller *)

Section LoopFacts.

Variable textlength : font -> string -> Z.
Variable cfg : Config.t.
Variable delay : Z.
Variable idle_images : list string.
Variable open_image : string -> option PIL.image.
Variable fetch_cover : string -> option PIL.image.
Variable source : nat -> playing.
Variable rand : nat -> nat.

Local Notation "'poll'" := (_get_song_info source).
Local Notation "'update'" :=
  (_display_update_process textlength cfg idle_images open_image
     fetch_cover rand).
Local Notation "'sleep_loop'" := (idle_sleep cfg source).
Local Notation "'wait'" := (idle_wait cfg source).
Local Notation "'playing'" :=
  (playing_branch textlength cfg idle_images open_image fetch_cover rand).
Local Notation "'idle'" :=
  (idle_branch textlength cfg idle_images open_image fetch_cover source rand).
Local Notation "'once'" :=
  (poll_once textlength cfg idle_images open_image fetch_cover source rand).
Local Notation "'turn'" :=
  (iteration textlength cfg delay idle_images open_image fetch_cover source
     rand).
Local Notation "'T'" := (Config.idle_display_time cfg).

Lemma idle_sleep_eq (fuel : nat) (elapsed : Z) (s : service) :
  sleep_loop fuel elapsed s =
  if elapsed <? T then
    match fuel with
    | O => ([], s, Stuck)
    | S fuel' =>
        match result (poll s) with
        | Returned r =>
            if truthy r
            then (Sleep 5 :: events (poll s), final (poll s),
                  Returned (elapsed + 5))
            else
              let w := sleep_loop fuel' (elapsed + 5) (final (poll s)) in
              (Sleep 5 :: events (poll s) ++ events w, final w, result w)
        | Raised => (Sleep 5 :: events (poll s), final (poll s), Raised)
        | Stuck => (Sleep 5 :: events (poll s), final (poll s), Stuck)
        end
    end
  else ([], s, Returned elapsed).
Proof.
  destruct fuel as [|fuel]; cbn [idle_sleep];
    destruct (elapsed <? T); try reflexivity.
  unfold bind, emit, ret. cbn [app].
  destruct (poll s) as [[e s1] [r | |]]; svc; try reflexivity.
  destruct (truthy r); svc; [now rewrite app_nil_r |].
  now destruct (sleep_loop fuel (elapsed + 5) s1) as [[e2 s2] r2].
Qed.

(** The wait stops with the poll that first returns a track: [i]
    increments of 5, no more. *)
Lemma idle_sleep_early :
  forall i fuel elapsed s,
    first_track_at source i s ->
    elapsed + 5 * (Z.of_nat i - 1) < T ->
    T - elapsed <= Z.of_nat fuel ->
    result (sleep_loop fuel elapsed s) = Returned (elapsed + 5 * Z.of_nat i)
    /\ slept (events (sleep_loop fuel elapsed s)) = 5 * Z.of_nat i.
Proof.
  induction i as [|i IH]; intros fuel elapsed s Hfirst Hlt Hfuel;
    [contradiction |].
  rewrite idle_sleep_eq.
  destruct (elapsed <? T) eqn:E; [| apply Z.ltb_ge in E; lia].
  destruct fuel as [|fuel]; [lia |].
  cbn [first_track_at] in Hfirst.
  destruct (poll_off_display source s) as [Hsl _].
  rewrite (run_eta (poll s)) in Hfirst.
  destruct (result (poll s)) as [r | |]; try contradiction.
  destruct (truthy r).
  - subst i. svc. split; [f_equal; lia | lia].
  - destruct (IH fuel (elapsed + 5) (final (poll s)) Hfirst) as [Hr Hs];
      [lia | lia |].
    cbv zeta. svc. rewrite Hr, slept_app, Hs, Hsl. split; [f_equal; lia | lia].
Qed.

(** Without a track the wait runs its [n] increments, the first count
    that reaches the idle time. *)
Lemma idle_sleep_full :
  forall n fuel elapsed s,
    no_track_for source n s ->
    elapsed + 5 * (Z.of_nat n - 1) < T <= elapsed + 5 * Z.of_nat n ->
    T - elapsed <= Z.of_nat fuel ->
    result (sleep_loop fuel elapsed s) = Returned (elapsed + 5 * Z.of_nat n)
    /\ slept (events (sleep_loop fuel elapsed s)) = 5 * Z.of_nat n.
Proof.
  induction n as [|n IH]; intros fuel elapsed s Hno Hlt Hfuel;
    rewrite idle_sleep_eq.
  - destruct (elapsed <? T) eqn:E; [apply Z.ltb_lt in E; lia |].
    svc. split; [f_equal; lia | reflexivity].
  - destruct (elapsed <? T) eqn:E; [| apply Z.ltb_ge in E; lia].
    destruct fuel as [|fuel]; [lia |].
    cbn [no_track_for] in Hno.
    destruct (poll_off_display source s) as [Hsl _].
    rewrite (run_eta (poll s)) in Hno.
    destruct (result (poll s)) as [r | |]; try contradiction.
    destruct Hno as [-> Hno].
    destruct (IH fuel (elapsed + 5) (final (poll s)) Hno) as [Hr Hs];
      [lia | lia |].
    cbv zeta. svc. rewrite Hr, slept_app, Hs, Hsl. split; [f_equal; lia | lia].
Qed.

(** The wait never runs out of fuel. *)
Lemma idle_sleep_not_stuck :
  forall fuel elapsed s,
    T - elapsed <= Z.of_nat fuel ->
    result (sleep_loop fuel elapsed s) <> Stuck.
Proof.
  induction fuel as [|fuel IH]; intros elapsed s Hfuel; rewrite idle_sleep_eq.
  - destruct (elapsed <? T) eqn:E; [apply Z.ltb_lt in E; lia | discriminate].
  - destruct (elapsed <? T) eqn:E; [| discriminate].
    pose proof (get_song_info_not_stuck source s) as Hns.
    destruct (result (poll s)) as [r | |]; try discriminate; [| contradiction].
    destruct (truthy r); [discriminate |].
    cbv zeta. svc. apply IH. lia.
Qed.


(** The turn of the loop when the poll returns a track: the frame is
    rebuilt only when the key differs from the stored one; the trailing
    delay follows in both cases, also when the rebuild raised. *)
Lemma iteration_playing (s : service) (t c a : string) :
  result (poll s) = Returned (Song t c a) ->
  turn s =
  if String.eqb (song_prev s) (t ++ c)
  then ((events (poll s) ++ [Sleep delay])%list, final (poll s), Returned tt)
  else
    let u := update (Song t c a) (set_song_prev (t ++ c) (final (poll s))) in
    ((events (poll s) ++ events u ++ [Sleep delay])%list, final u, Returned tt).
Proof.
  intros Hp. destruct (poll_off_display source s) as (_ & _ & _ & Hsp & _).
  unfold iteration, poll_once, try_except, playing_branch.
  unfold bind at 1 2. rewrite (run_eta (poll s)), Hp. svc.
  unfold bind, gets, modify, ret, emit. svc. rewrite Hsp.
  destruct (String.eqb (song_prev s) (t ++ c)); cbn [negb]; svc.
  - now rewrite app_nil_r.
  - cbv zeta.
    pose proof (update_builds_once textlength cfg idle_images open_image
                  fetch_cover rand (Song t c a)
                  (set_song_prev (t ++ c) (final (poll s))))
      as (_ & _ & _ & _ & _ & Hns).
    unfold final in *.
    destruct (update _ _) as [[e2 s2] [[] | |]]; svc;
      rewrite ?app_nil_r, <- ?app_assoc; try reflexivity.
    now elim Hns.
Qed.

(** The turn of the loop when the poll returns no track and the idle
    frame is shown: the turn ends with the wait, whatever it returned; no
    delay follows. *)
Lemma iteration_idle (s : service) (r : song_info) (elapsed : Z) :
  result (poll s) = Returned r -> truthy r = false ->
  let u := update SEmpty (set_song_prev "NO_SONG" (final (poll s))) in
  result u = Returned tt ->
  result (wait (final u)) = Returned elapsed ->
  turn s
  = ((events (poll s) ++ events u ++ events (wait (final u)))%list,
     final (wait (final u)), Returned tt).
Proof.
  intros Hp Hr u Hu Hw.
  unfold iteration, poll_once, try_except.
  unfold bind at 1 2. rewrite (run_eta (poll s)), Hp. svc.
  assert (Hb : idle (final (poll s))
               = ((events u ++ events (wait (final u)))%list,
                  final (wait (final u)), Returned Continue)).
  { unfold idle_branch. unfold bind at 1, modify at 1. cbv iota beta.
    rewrite (bind_returned (update SEmpty) _ _ tt) by exact Hu.
    rewrite (bind_returned wait _ _ elapsed) by exact Hw.
    unfold ret. svc. now rewrite app_nil_r. }
  unfold final in *.
  destruct r; try discriminate; rewrite Hb; unfold ret; svc;
    now rewrite app_nil_r.
Qed.

(** C4, as the code has it. Two turns of the loop in a row whose polls
    return tracks with the same title+coverUrl concatenation, whatever the
    artists: the two turns request one frame build when the key stored
    before the first differs from it, and none when it is already stored;
    the second turn never requests one, and stores no key: it is its poll
    followed by the delay, and leaves the key, the refresh counter and the
    gallery cursor as the first left them. *)
Theorem same_track_twice_builds_at_most_once :
  forall (s : service) (t c a t' c' a' : string),
    result (poll s) = Returned (Song t c a) ->
    result (poll (final (turn s))) = Returned (Song t' c' a') ->
    t ++ c = t' ++ c' ->
    builds (events (turn s) ++ events (turn (final (turn s))))
    = (if String.eqb (song_prev s) (t ++ c) then 0 else 1)%nat
    /\ builds (events (turn (final (turn s)))) = O
    /\ events (turn (final (turn s)))
       = (events (poll (final (turn s))) ++ [Sleep delay])%list
    /\ song_prev (final (turn s)) = t ++ c
    /\ song_prev (final (turn (final (turn s)))) = t ++ c
    /\ pic_counter (final (turn (final (turn s))))
       = pic_counter (final (turn s))
    /\ idle_index (final (turn (final (turn s))))
       = idle_index (final (turn s)).
Proof.
  intros s t c a t' c' a' Hp1 Hp2 Hkey.
  pose proof (iteration_playing s t c a Hp1) as H1.
  destruct (poll_off_display source s) as (_ & Hb1 & _ & Hsp1 & _).
  assert (Hprev : song_prev (final (turn s)) = t ++ c).
  { rewrite H1. destruct (String.eqb (song_prev s) (t ++ c)) eqn:E.
    - apply String.eqb_eq in E. svc. unfold final in Hsp1. congruence.
    - cbv zeta.
      pose proof (update_builds_once textlength cfg idle_images open_image
                    fetch_cover rand (Song t c a)
                    (set_song_prev (t ++ c) (final (poll s))))
        as (_ & Hsp & _).
      svc. exact Hsp. }
  pose proof (iteration_playing (final (turn s)) t' c' a' Hp2) as H2.
  rewrite Hprev, Hkey, String.eqb_refl in H2.
  destruct (poll_off_display source (final (turn s)))
    as (_ & Hb2 & _ & Hsp2 & Hpc2 & Hii2 & _).
  assert (Hsecond : builds (events (turn (final (turn s)))) = O).
  { rewrite H2. svc. rewrite builds_app. unfold events in Hb2.
    rewrite Hb2. reflexivity. }
  repeat split.
  - rewrite builds_app, Hsecond, Nat.add_0_r, H1.
    destruct (String.eqb (song_prev s) (t ++ c)).
    + svc. rewrite builds_app. unfold events in Hb1. now rewrite Hb1.
    + cbv zeta.
      pose proof (update_builds_once textlength cfg idle_images open_image
                    fetch_cover rand (Song t c a)
                    (set_song_prev (t ++ c) (final (poll s))))
        as (Hone & _).
      svc. rewrite !builds_app. unfold events in Hb1. rewrite Hb1, Hone.
      reflexivity.
  - exact Hsecond.
  - rewrite H2. reflexivity.
  - exact Hprev.
  - rewrite H2. svc. unfold final in *. congruence.
  - rewrite H2. svc. unfold final in *. congruence.
  - rewrite H2. svc. unfold final in *. congruence.
Qed.


(** The fuel of the model is never what ends a turn of the loop: a turn
    returns, whatever the source answers. *)
Lemma iteration_returns (s : service) : result (turn s) = Returned tt.
Proof.
  assert (Hpoll : never_stuck poll)
    by (intros s0; apply get_song_info_not_stuck).
  assert (Hupd : forall req, never_stuck (update req)).
  { intros req s0.
    apply (update_builds_once textlength cfg idle_images open_image
             fetch_cover rand req s0). }
  assert (Hwait : never_stuck wait).
  { intros s0. apply idle_sleep_not_stuck. lia. }
  assert (Honce : never_stuck once).
  { unfold poll_once, playing_branch, idle_branch.
    apply never_stuck_bind; [exact Hpoll |].
    intros [| | t c a]; auto 10 with ends.
    apply never_stuck_bind; [auto with ends |]. intros prev.
    destruct (negb (String.eqb prev (t ++ c))); auto 10 with ends. }
  specialize (Honce s). unfold iteration, try_except, bind, result in *.
  destruct (once s) as [[e1 s1] [[] | |]]; cbn [snd] in *;
    try reflexivity.
  now elim Honce.
Qed.

(** C8. A poll that starts with the limiter at rest. An answer of
    'unknown' makes the method call itself at once, one level deeper,
    after a query and a short pause: the poll is that nested poll, within
    the same call. The nesting is bounded: a poll is never out of fuel,
    and one that returns has asked the source at most 9 times and has
    given the counter back. When the source keeps answering 'unknown',
    the tenth call is refused by the limiter: the poll returns [None]
    after 9 queries, without raising, and the loop takes the idle
    branch. *)
Theorem unknown_is_retried_within_bounds :
  forall s : service, count s = 0 ->
    (source (asked s) = Unknown ->
       poll s
       = (let '(e, s3, r) := poll (set_asked (S (asked s)) (set_count 1 s)) in
          match r with
          | Returned a =>
              (Query :: Nap :: e, set_count (count s3 - 1) s3, Returned a)
          | Raised => (Query :: Nap :: e, s3, Raised)
          | Stuck => (Query :: Nap :: e, s3, Stuck)
          end))
    /\ result (poll s) <> Stuck
    /\ (forall a, result (poll s) = Returned a ->
          count (final (poll s)) = 0
          /\ (asked (final (poll s)) - asked s <= 9)%nat)
    /\ ((forall i, (i < 9)%nat -> source (asked s + i) = Unknown) ->
          poll s
          = (List.concat (repeat [Query; Nap] 9),
             set_asked (asked s + 9) s, Returned SNone)
          /\ truthy SNone = false
          /\ once s
             = ((List.concat (repeat [Query; Nap] 9)
                 ++ events (idle (set_asked (asked s + 9) s)))%list,
                final (idle (set_asked (asked s + 9) s)),
                result (idle (set_asked (asked s + 9) s)))).
Proof.
  intros s H0. split; [| split; [| split]].
  - intros Hu. unfold _get_song_info. rewrite H0.
    change (Z.to_nat (recursion_limit - 0)) with 10%nat.
    rewrite poll_rec_eq, H0, Hu. reflexivity.
  - apply get_song_info_not_stuck.
  - intros a Ha. unfold _get_song_info in *.
    destruct (poll_rec_bounded source _ s a Ha) as (Hc & Hle & Hb).
    split; [congruence |].
    replace (Z.max 0 (recursion_limit - 1 - count s)) with 9 in Hb
      by (rewrite H0; reflexivity).
    lia.
  - intros Hall.
    assert (Hp : poll s
                 = (List.concat (repeat [Query; Nap] 9),
                    set_asked (asked s + 9) s, Returned SNone)).
    { unfold _get_song_info. rewrite H0.
      change (Z.to_nat (recursion_limit - 0)) with 10%nat.
      apply unknown_chain; [rewrite H0; reflexivity | lia | exact Hall]. }
    split; [exact Hp |]. split; [reflexivity |].
    unfold poll_once.
    rewrite (bind_returned poll _ s SNone) by (rewrite Hp; reflexivity).
    rewrite Hp. reflexivity.
Qed.

(** C9. A turn of the loop whose poll returns no track and whose idle
    frame is shown. When the i-th poll of the wait is the first to return
    a track, and the i-th increment is within the idle time, the wait
    returns after i increments of 5: it has slept 5*i in all, and so has
    the whole turn. And whatever the wait returned, after all its
    increments or after fewer, the turn ends with it: no trailing delay
    follows. *)
Theorem idle_wait_stops_at_first_track :
  forall (i : nat) (s : service),
    (exists r, result (poll s) = Returned r /\ truthy r = false) ->
    result (update SEmpty (set_song_prev "NO_SONG" (final (poll s))))
    = Returned tt ->
    (first_track_at source i
       (final (update SEmpty (set_song_prev "NO_SONG" (final (poll s))))) ->
     5 * (Z.of_nat i - 1) < T ->
     result
       (wait (final (update SEmpty
                       (set_song_prev "NO_SONG" (final (poll s))))))
     = Returned (5 * Z.of_nat i)
     /\ slept
          (events
             (wait (final (update SEmpty
                             (set_song_prev "NO_SONG" (final (poll s)))))))
        = 5 * Z.of_nat i
     /\ slept (events (turn s)) = 5 * Z.of_nat i)
    /\ (forall elapsed,
          result
            (wait (final (update SEmpty
                            (set_song_prev "NO_SONG" (final (poll s))))))
          = Returned elapsed ->
          turn s
          = ((events (poll s)
              ++ events (update SEmpty
                           (set_song_prev "NO_SONG" (final (poll s))))
              ++ events
                   (wait (final (update SEmpty
                                   (set_song_prev "NO_SONG"
                                      (final (poll s)))))))%list,
             final
               (wait (final (update SEmpty
                               (set_song_prev "NO_SONG" (final (poll s)))))),
             Returned tt)).
Proof.
  intros i s [r [Hp Hr]] Hu.
  set (u := update SEmpty (set_song_prev "NO_SONG" (final (poll s)))) in *.
  assert (Hturn : forall elapsed,
            result (wait (final u)) = Returned elapsed ->
            turn s
            = ((events (poll s) ++ events u ++ events (wait (final u)))%list,
               final (wait (final u)), Returned tt)).
  { intros elapsed Hw. exact (iteration_idle s r elapsed Hp Hr Hu Hw). }
  split; [| exact Hturn].
  intros Hfirst Hlt.
  destruct (idle_sleep_early i (Z.to_nat T) 0 (final u) Hfirst) as [Hres Hsl];
    [lia | lia |].
  change (sleep_loop (Z.to_nat T) 0 (final u)) with (wait (final u)) in *.
  cbn [Z.add] in Hres. repeat split; [exact Hres | exact Hsl |].
  rewrite (Hturn _ Hres). svc. rewrite !slept_app.
  destruct (poll_off_display source s) as (Hs1 & _).
  destruct (update_builds_once textlength cfg idle_images open_image
              fetch_cover rand SEmpty
              (set_song_prev "NO_SONG" (final (poll s))))
    as (_ & _ & _ & _ & Hs2 & _).
  subst u. unfold events, final in *. rewrite Hs1, Hs2, Hsl. lia.
Qed.

End LoopFacts.

(** ** The claims at work in the sample world *)

Lemma frame_has_canvas_size_witness :
  exists frame,
    _gen_pic Sample.textlength Sample.cfg (PIL.mkImage 300 300 [])
      "Miles Davis" "Blue in Green" true = Some frame
    /\ PIL.width frame = 640 /\ PIL.height frame = 400.
Proof.
  apply (proj2 (frame_has_canvas_size Sample.textlength Sample.cfg
                  (PIL.mkImage 300 300 []) "Miles Davis" "Blue in Green" true));
    try reflexivity.
  - intros t Ht. vm_compute in Ht.
    destruct Ht as [<- | [<- | [<- | []]]]; vm_compute; discriminate.
  - intros t Ht. vm_compute in Ht.
    destruct Ht as [<- | [<- | []]]; vm_compute; discriminate.
Defined.

Lemma bottom_up_last_line_on_anchor_witness :
  exists img' earlier,
    _fit_text_bottom_up Sample.textlength (PIL.mkImage 640 400 [])
      (TStr "The Dark Side of the Moon: Fiftieth Anniversary Remastered Edition")
      "white" "black" Sample.title_font 340 40 20 20 4
    = Some (img', 120)
    /\ PIL.layers img'
       = (earlier ++ [PIL.Text 24 344 "Remastered Edition" "black";
                      PIL.Text 20 340 "Remastered Edition" "white"])%list.
Proof.
  assert (Hlen : (1 <= List.length
                         [("The Dark Side of the Moon:", 520);
                          ("Fiftieth Anniversary", 400);
                          ("Remastered Edition", 360)])%nat)
    by (cbn; lia).
  destruct (bottom_up_last_line_on_anchor Sample.textlength "white" "black"
              20 4 40 (PIL.mkImage 640 400 [])
              (TStr "The Dark Side of the Moon: Fiftieth Anniversary Remastered Edition")
              Sample.title_font 340 20
              [("The Dark Side of the Moon:", 520);
               ("Fiftieth Anniversary", 400); ("Remastered Edition", 360)]
              eq_refl Hlen)
    as [img' [earlier [Hfit [_ Hlast]]]].
  exists img', earlier. split; [exact Hfit | exact Hlast].
Defined.

Lemma same_track_twice_builds_at_most_once_witness :
  builds (events (Sample.turn Sample.always_a fresh)
          ++ events (Sample.turn Sample.always_a
                       (final (Sample.turn Sample.always_a fresh))))
  = 1%nat.
Proof.
  refine (proj1 (same_track_twice_builds_at_most_once Sample.textlength
                   Sample.cfg Sample.delay Sample.idle_images Sample.open_image
                   Sample.fetch_cover Sample.always_a Sample.rand fresh
                   "Blue in Green" "https://i.scdn.co/image/ab67616d"
                   "Miles Davis"
                   "Blue in Green" "https://i.scdn.co/image/ab67616d"
                   "Miles Davis" _ _ eq_refl)).
  - reflexivity.
  - vm_compute. reflexivity.
Defined.

(** C4 as stated fails: when the same track is polled three times in a
    row, the second and the third turn both poll it, and request no frame
    build between them, not one. *)
Lemma same_track_twice_counterexample :
  result (_get_song_info Sample.always_a
            (final (Sample.turns Sample.always_a 1 fresh)))
  = Returned Sample.song_a
  /\ result (_get_song_info Sample.always_a
               (final (Sample.turns Sample.always_a 2 fresh)))
     = Returned Sample.song_a
  /\ builds (events (Sample.turn Sample.always_a
                       (final (Sample.turns Sample.always_a 1 fresh)))
             ++ events (Sample.turn Sample.always_a
                          (final (Sample.turns Sample.always_a 2 fresh))))
     <> 1%nat.
Proof.
  repeat split; vm_compute; try reflexivity. discriminate.
Qed.

Lemma unknown_is_retried_within_bounds_witness :
  _get_song_info Sample.always_unknown fresh
  = ([Query; Nap; Query; Nap; Query; Nap; Query; Nap; Query; Nap; Query; Nap;
      Query; Nap; Query; Nap; Query; Nap],
     mkService "" 0 0 0 9 0, Returned SNone).
Proof.
  exact (proj1 (proj2 (proj2 (proj2
    (unknown_is_retried_within_bounds Sample.textlength Sample.cfg
       Sample.idle_images Sample.open_image Sample.fetch_cover
       Sample.always_unknown Sample.rand fresh eq_refl)))
    (fun i _ => eq_refl))).
Defined.

Lemma idle_wait_stops_at_first_track_witness :
  slept (events (Sample.turn (Sample.silent_then_a 3) fresh)) = 15.
Proof.
  refine (proj2 (proj2 (proj1
    (idle_wait_stops_at_first_track Sample.textlength Sample.cfg Sample.delay
       Sample.idle_images Sample.open_image Sample.fetch_cover
       (Sample.silent_then_a 3) Sample.rand 3%nat fresh _ _) _ _))).
  - exists SEmpty. split; reflexivity.
  - vm_compute. reflexivity.
  - vm_compute. reflexivity.
  - reflexivity.
Defined.

(** * More of the code *)

(** ** TextFlow: greedy lines *)

Section TextFlowMore.

Variable textlength : font -> string -> Z.
Variable width : Z.
Variable fnt : font.

Local Notation "'narrow''" := (narrow textlength width fnt).
Local Notation "'break_fix'" := (_break_fix textlength width fnt).
Local Notation "'measure'" := (textlength fnt).
Local Notation "'fits'" := (fits_budget textlength width fnt).
Local Notation "'seg_of'" := (segment_of textlength fnt).

Lemma fits_downwards (toks : list string) (a b : Z) :
  monotone textlength fnt -> 0 <= a <= b -> fits toks b -> fits toks a.
Proof.
  intros Hmono Hab Hb. unfold fits_budget in *.
  rewrite slice_to_nonneg in * by lia.
  pose proof (Hmono toks (Z.to_nat a) (Z.to_nat b) ltac:(lia)). lia.
Qed.

(** With a monotone measure the loop leaves the largest count that fits. *)
Lemma narrow_maximal (toks : list string) :
  monotone textlength fnt ->
  forall fuel lo hi r, 0 <= lo <= hi ->
    (forall k, hi < k <= Z.of_nat (List.length toks) -> ~ fits toks k) ->
    narrow' toks fuel lo hi = Some r ->
    forall k, r < k <= Z.of_nat (List.length toks) -> ~ fits toks k.
Proof.
  intros Hmono. induction fuel as [|fuel IH]; intros lo hi r Hle Hhi;
    rewrite narrow_eq.
  - destruct (lo <? hi) eqn:E; [discriminate |].
    apply Z.ltb_ge in E. intros [= <-] k Hk. apply Hhi. lia.
  - destruct (lo <? hi) eqn:E.
    + apply Z.ltb_lt in E. pose proof (mid_between textlength fnt lo hi E) as Hm.
      destruct (_ <=? width) eqn:Ew; intros Hr.
      * apply (IH ((lo + hi + 1) / 2) hi r ltac:(lia) Hhi Hr).
      * refine (IH lo ((lo + hi + 1) / 2 - 1) r ltac:(lia) _ Hr).
        intros k Hk Hfit. apply Z.leb_gt in Ew.
        pose proof (fits_downwards toks ((lo + hi + 1) / 2) k Hmono
                      ltac:(lia) Hfit) as Hmid.
        unfold fits_budget in Hmid. lia.
    + apply Z.ltb_ge in E. intros [= <-] k Hk. apply Hhi. lia.
Qed.

Lemma firstn_succ_skipn {A : Type} (l : list A) :
  forall n t rest, skipn n l = t :: rest ->
    firstn (S n) l = (firstn n l ++ [t])%list.
Proof.
  induction l as [|x l IH]; intros [|n] t rest H; try discriminate.
  - cbn in H. injection H as -> _. reflexivity.
  - cbn [skipn] in H. cbn [firstn app]. f_equal. exact (IH n t rest H).
Qed.

(** The chunks of a text whose tokens each fit, under a monotone measure:
    a partition of the tokens into chunks that fit and are greedy. *)
Lemma break_fix_chunks_greedy :
  monotone textlength fnt ->
  forall n toks, (List.length toks <= n)%nat ->
    (forall t, In t toks -> measure t <= width) ->
    forall fuel, (n < fuel)%nat ->
    exists chunks,
      break_fix fuel (TList toks) = (map seg_of chunks, true)
      /\ List.concat chunks = toks
      /\ Forall (fun c => c <> [] /\ measure (join " " c) <= width) chunks
      /\ greedy textlength width fnt chunks.
Proof.
  intros Hmono. induction n as [|n IH]; intros toks Hlen Hfit fuel Hfuel.
  - destruct toks; [| simpl in Hlen; lia].
    destruct fuel; [lia |]. exists []. repeat split; constructor.
  - destruct fuel as [|fuel]; [lia |].
    destruct toks as [|t toks].
    { exists []. repeat split; constructor. }
    set (l := t :: toks) in *.
    assert (Hl : 1 <= Z.of_nat (List.length l)) by (subst l; simpl; lia).
    destruct (narrow_exits textlength width fnt l (List.length l) 0
                (Z.of_nat (List.length l)) ltac:(lia)) as [r Hr].
    pose proof (narrow_sound textlength width fnt l _ 0
                  (Z.of_nat (List.length l)) r ltac:(lia) Hr)
      as [Hrange Hor].
    assert (H1 : fits l 1).
    { unfold fits_budget. rewrite slice_to_nonneg by lia.
      subst l. simpl. apply Hfit. now left. }
    pose proof (narrow_keeps_one textlength width fnt l H1 _ 0
                  (Z.of_nat (List.length l)) r ltac:(lia) Hl Hr) as Hpos.
    destruct Hor as [-> | Hfits]; [lia |].
    assert (Hmax : forall k, r < k <= Z.of_nat (List.length l) -> ~ fits l k).
    { apply (narrow_maximal l Hmono (List.length l) 0
               (Z.of_nat (List.length l)) r ltac:(lia)); [| exact Hr].
      intros k Hk. lia. }
    assert (Hrest : (List.length (slice_from l r) <= n)%nat).
    { rewrite slice_from_nonneg by lia. rewrite length_skipn.
      subst l. cbn [List.length] in *. lia. }
    destruct (IH (slice_from l r) Hrest
                (fun t' Ht' => Hfit t' (in_slice_from l r t' Ht'))
                fuel ltac:(lia)) as [chunks [Hbf [Hcat [Hall Hgreedy]]]].
    exists (slice_to l r :: chunks).
    rewrite break_fix_eq. subst l. cbn [truthy_text negb tokens_of].
    rewrite Hr, Hbf. repeat split.
    + simpl. rewrite Hcat. apply slice_to_from.
    + constructor; [| exact Hall]. split; [| exact Hfits].
      rewrite slice_to_nonneg by lia.
      destruct (Z.to_nat r) eqn:E; [lia | discriminate].
    + rewrite Hcat. destruct (slice_from (t :: toks) r) as [|t' rest] eqn:Es;
        [exact I |].
      rewrite slice_from_nonneg in Es by lia.
      rewrite slice_to_nonneg by lia.
      rewrite <- (firstn_succ_skipn _ _ _ _ Es).
      assert (Hr1 : r + 1 <= Z.of_nat (List.length (t :: toks))).
      { apply (f_equal (@List.length _)) in Es. rewrite length_skipn in Es.
        cbn [List.length] in *. lia. }
      specialize (Hmax (r + 1) ltac:(lia)). unfold fits_budget in Hmax.
      rewrite slice_to_nonneg in Hmax by lia.
      replace (Z.to_nat (r + 1)) with (S (Z.to_nat r)) in Hmax by lia. lia.
    + exact Hgreedy.
Qed.

End TextFlowMore.

Lemma length_concat_nonempty {A : Type} (chunks : list (list A)) :
  Forall (fun c => c <> []) chunks ->
  (List.length chunks <= List.length (List.concat chunks))%nat.
Proof.
  induction 1 as [|c cs Hc _ IH]; [reflexivity |].
  cbn [List.concat List.length]. rewrite length_app.
  destruct c; [congruence | cbn [List.length]; lia].
Qed.

Lemma string_length_append (a b : string) :
  String.length (a ++ b) = (String.length a + String.length b)%nat.
Proof. induction a as [|c a IH]; cbn; [reflexivity | now rewrite IH]. Qed.

(** A text never gets shorter when a token is added. *)
Lemma joined_length_grows (toks : list string) :
  forall i j, (i <= j)%nat ->
    (String.length (join " " (firstn i toks))
     <= String.length (join " " (firstn j toks)))%nat.
Proof.
  induction toks as [|w toks IH]; intros i j Hij.
  - now rewrite !firstn_nil.
  - destruct i as [|i]; [cbn; lia |]. destruct j as [|j]; [lia |].
    specialize (IH i j ltac:(lia)). cbn [firstn join].
    destruct (firstn i toks) as [|x xs] eqn:Ei;
      destruct (firstn j toks) as [|y ys] eqn:Ej.
    + lia.
    + rewrite !string_length_append. lia.
    + exfalso. destruct i; [discriminate |]. destruct j; [lia |].
      destruct toks; discriminate.
    + rewrite !string_length_append in *. cbn [String.length] in *. lia.
Qed.

(** The fixed-pitch measure of the sample world is monotone. *)
Lemma sample_measure_monotone (f : font) :
  0 <= font_size f -> monotone Sample.textlength f.
Proof.
  intros Hf toks i j Hij. unfold Sample.textlength.
  pose proof (joined_length_grows toks i j Hij) as Hlen.
  apply Z.div_le_mono; [lia |]. apply Z.mul_le_mono_nonneg_l; lia.
Qed.

Section TextFlowExtras.

Variable textlength : font -> string -> Z.
Variable width : Z.
Variable fnt : font.

(** X1. Under a monotone measure the lines of a text whose words each fit
    are greedy: the segments are the chunks of a partition of the tokens,
    and every chunk but the last would exceed the budget with the first
    token of the next line added to it. *)
Theorem lines_are_greedy :
  forall s : string,
    monotone textlength fnt ->
    split s <> [] ->
    tokens_fit textlength width fnt s ->
    exists chunks,
      list_break_fix textlength width fnt (TStr s)
      = Some (map (segment_of textlength fnt) chunks)
      /\ List.concat chunks = split s
      /\ greedy textlength width fnt chunks.
Proof.
  intros s Hmono Hne Hfit.
  destruct (break_fix_chunks_greedy textlength width fnt Hmono
              (List.length (split s)) (split s) (le_n _) Hfit
              (S (S (List.length (split s)))) ltac:(lia))
    as [chunks [Hbf [Hcat [_ Hgreedy]]]].
  exists chunks. repeat split; try assumption.
  unfold list_break_fix. rewrite break_fix_str by assumption.
  cbn [tokens_of]. now rewrite Hbf.
Qed.

(** X2. For any measure, monotone or not, a text with at least one word
    whose words each fit the budget is broken into lines: the generator is
    exhausted, the words of the lines are the words of the text in order,
    every line carries its own measure, is within the budget and is not
    empty, and there are at least one line and at most one line per
    word. *)
Theorem wrapping_keeps_every_word :
  forall s : string,
    split s <> [] ->
    tokens_fit textlength width fnt s ->
    exists segs,
      list_break_fix textlength width fnt (TStr s) = Some segs
      /\ flat_map (fun sg : segment => split (fst sg)) segs = split s
      /\ Forall (fun sg : segment =>
                   snd sg = textlength fnt (fst sg) /\ snd sg <= width
                   /\ fst sg <> "") segs
      /\ (1 <= List.length segs <= List.length (split s))%nat.
Proof.
  intros s Hne Hfit.
  destruct (break_fix_wraps textlength width fnt s Hne Hfit)
    as [segs [Hsegs [Hflat Hall]]].
  exists segs. repeat split; try assumption.
  - destruct segs; [| cbn; lia]. cbn in Hflat. now elim Hne.
  - destruct (break_fix_chunks textlength width fnt
                (List.length (split s)) (split s) (le_n _) Hfit
                (S (S (List.length (split s)))) ltac:(lia))
      as [chunks [Hbf [Hcat Hch]]].
    unfold list_break_fix in Hsegs. rewrite break_fix_str in Hsegs by assumption.
    cbn [tokens_of] in Hsegs. rewrite Hbf in Hsegs. injection Hsegs as <-.
    rewrite length_map, <- Hcat. apply length_concat_nonempty.
    eapply Forall_impl; [| exact Hch]. now intros c [Hc _].
Qed.

End TextFlowExtras.

Lemma lines_are_greedy_witness :
  exists chunks,
    list_break_fix Sample.textlength Sample.budget Sample.title_font
      (TStr "The Dark Side of the Moon: Fiftieth Anniversary Remastered Edition")
    = Some (map (segment_of Sample.textlength Sample.title_font) chunks)
    /\ List.concat chunks
       = ["The"; "Dark"; "Side"; "of"; "the"; "Moon:"; "Fiftieth";
          "Anniversary"; "Remastered"; "Edition"]
    /\ greedy Sample.textlength Sample.budget Sample.title_font chunks.
Proof.
  apply (lines_are_greedy Sample.textlength Sample.budget Sample.title_font
           "The Dark Side of the Moon: Fiftieth Anniversary Remastered Edition").
  - apply sample_measure_monotone. vm_compute. discriminate.
  - vm_compute. discriminate.
  - intros t Ht. vm_compute in Ht.
    repeat (destruct Ht as [<- | Ht]; [vm_compute; discriminate |]).
    destruct Ht.
Defined.

Lemma wrapping_keeps_every_word_witness :
  exists segs,
    list_break_fix Sample.textlength Sample.budget Sample.title_font
      (TStr "The Dark Side of the Moon: Fiftieth Anniversary Remastered Edition")
    = Some segs
    /\ (1 <= List.length segs <= 10)%nat.
Proof.
  destruct (wrapping_keeps_every_word Sample.textlength Sample.budget
              Sample.title_font
              "The Dark Side of the Moon: Fiftieth Anniversary Remastered Edition")
    as [segs [Hsegs [_ [_ Hlen]]]].
  - vm_compute. discriminate.
  - intros t Ht. vm_compute in Ht.
    repeat (destruct Ht as [<- | Ht]; [vm_compute; discriminate |]).
    destruct Ht.
  - exists segs. split; [exact Hsegs | exact Hlen].
Defined.

(** ** TextBlockRenderer: every line *)

Section RenderMore.

Variable textlength : font -> string -> Z.
Variables (text_color shadow_text_color : string).
Variables (x_start shadow fsize : Z).

Local Notation "'stack'" :=
  (stacked text_color shadow_text_color x_start shadow fsize).
Local Notation "'line'" :=
  (line_layers text_color shadow_text_color x_start shadow).

(** The [k]-th piece is drawn [k] line heights below the first. *)
Lemma stacked_nth (pieces : list segment) :
  forall k t w y,
    nth_error pieces k = Some (t, w) ->
    exists before after,
      stack y pieces
      = (before ++ line (y + Z.of_nat k * fsize) t ++ after)%list.
Proof.
  induction pieces as [|[t' w'] rest IH]; intros [|k] t w y H; try discriminate.
  - cbn in H. injection H as -> ->. exists [], (stack (y + fsize) rest).
    cbn [stacked app Z.of_nat]. now replace (y + 0 * fsize) with y by lia.
  - cbn [nth_error] in H.
    destruct (IH k t w (y + fsize) H) as [before [after Hs]].
    exists (line y t' ++ before)%list, after.
    cbn [stacked]. rewrite Hs, <- app_assoc.
    replace (y + Z.of_nat (S k) * fsize) with (y + fsize + Z.of_nat k * fsize)
      by lia.
    reflexivity.
Qed.

Lemma stacked_length (pieces : list segment) :
  forall y,
    List.length (stack y pieces)
    = ((if shadow >? 0 then 2 else 1) * List.length pieces)%nat.
Proof.
  induction pieces as [|[t w] rest IH]; intros y.
  - cbn. lia.
  - cbn [stacked]. rewrite length_app, IH. unfold line_layers.
    destruct (shadow >? 0); cbn [List.length app]; lia.
Qed.

(** Bottom-up starts [(N-1)] lines above the anchor, for every N. *)
Lemma stacked_from_shifted (pieces : list segment) (y : Z) :
  let n := Z.of_nat (List.length pieces) in
  stack (if n >? 1 then y - (n - 1) * fsize else y) pieces
  = stack (y - (n - 1) * fsize) pieces.
Proof.
  intros n. destruct (n >? 1) eqn:E; [reflexivity |].
  destruct pieces as [|p [|q rest]].
  - reflexivity.
  - subst n. cbn [List.length Z.of_nat Pos.of_succ_nat].
    now replace (y - (1 - 1) * fsize) with y by lia.
  - subst n. rewrite Z.gtb_ltb in E. apply Z.ltb_ge in E.
    cbn [List.length] in E. lia.
Qed.

Lemma fit_text_top_down_eq (img : PIL.image) (text : pytext) (fnt : font)
    (y_offset x_end : Z) (pieces : list segment) :
  list_break_fix textlength (PIL.width img - x_start - x_end - shadow) fnt text
  = Some pieces ->
  _fit_text_top_down textlength img text text_color shadow_text_color fnt
    y_offset fsize x_start x_end shadow
  = Some (PIL.mkImage (PIL.width img) (PIL.height img)
            (PIL.layers img ++ stack y_offset pieces),
          Z.of_nat (List.length pieces) * fsize).
Proof.
  intros Hp. unfold _fit_text_top_down. rewrite Hp, draw_pieces_spec.
  reflexivity.
Qed.

Lemma fit_text_bottom_up_eq (img : PIL.image) (text : pytext) (fnt : font)
    (y_offset x_end : Z) (pieces : list segment) :
  list_break_fix textlength (PIL.width img - x_start - x_end - shadow) fnt text
  = Some pieces ->
  _fit_text_bottom_up textlength img text text_color shadow_text_color fnt
    y_offset fsize x_start x_end shadow
  = Some (PIL.mkImage (PIL.width img) (PIL.height img)
            (PIL.layers img
             ++ stack (y_offset - (Z.of_nat (List.length pieces) - 1) * fsize)
                  pieces),
          Z.of_nat (List.length pieces) * fsize).
Proof.
  intros Hp. unfold _fit_text_bottom_up. rewrite Hp, draw_pieces_spec.
  rewrite (stacked_from_shifted pieces y_offset). reflexivity.
Qed.

(** X3. Top-down rendering of the pieces of a text: the image keeps its
    size, the [k]-th line (from 0) is written in the text colour at the
    anchor plus [k] font sizes, the first one at the anchor; one command is
    added per line, two when the shadow offset is positive; the height
    returned is the number of lines times the font size. *)
Theorem top_down_lines_step_down :
  forall (img : PIL.image) (text : pytext) (fnt : font)
         (y_offset x_end : Z) (pieces : list segment),
    list_break_fix textlength (PIL.width img - x_start - x_end - shadow) fnt
      text = Some pieces ->
    exists img',
      _fit_text_top_down textlength img text text_color shadow_text_color fnt
        y_offset fsize x_start x_end shadow
      = Some (img', Z.of_nat (List.length pieces) * fsize)
      /\ same_size img' img
      /\ List.length (PIL.layers img')
         = (List.length (PIL.layers img)
            + (if shadow >? 0 then 2 else 1) * List.length pieces)%nat
      /\ (forall k t w,
            nth_error pieces k = Some (t, w) ->
            In (PIL.Text x_start (y_offset + Z.of_nat k * fsize) t text_color)
              (PIL.layers img')).
Proof.
  intros img text fnt y_offset x_end pieces Hp.
  eexists. split; [apply (fit_text_top_down_eq img text fnt y_offset x_end
                            pieces Hp) |].
  cbn [PIL.layers]. split; [now split |]. split.
  - now rewrite length_app, stacked_length.
  - intros k t w Hk.
    destruct (stacked_nth pieces k t w y_offset Hk) as [before [after Hs]].
    rewrite Hs. apply in_or_app. right. apply in_or_app. right.
    apply in_or_app. left. unfold line_layers. apply in_or_app. right.
    now left.
Qed.

End RenderMore.

Lemma top_down_lines_step_down_witness :
  exists img',
    _fit_text_top_down Sample.textlength (PIL.mkImage 640 400 [])
      (TStr "The Dark Side of the Moon: Fiftieth Anniversary Remastered Edition")
      "white" "black" Sample.title_font 210 40 20 20 4
    = Some (img', 120)
    /\ In (PIL.Text 20 290 "Remastered Edition" "white") (PIL.layers img').
Proof.
  destruct (top_down_lines_step_down Sample.textlength "white" "black" 20 4 40
              (PIL.mkImage 640 400 [])
              (TStr "The Dark Side of the Moon: Fiftieth Anniversary Remastered Edition")
              Sample.title_font 210 20
              [("The Dark Side of the Moon:", 520);
               ("Fiftieth Anniversary", 400); ("Remastered Edition", 360)]
              eq_refl)
    as [img' [Hfit [_ [_ Hline]]]].
  exists img'. split; [exact Hfit |].
  exact (Hline 2%nat "Remastered Edition" 360 eq_refl).
Defined.

(** ** FrameCompositor: tiles, overlay and text block *)

(** [range(0, stop, step)] with a positive step: the multiples of [step]
    from 0 up to, not including, [stop]. *)
Lemma py_range_multiples (stop step : Z) (l : list Z) :
  0 < step -> py_range 0 stop step = Some l ->
  forall x, In x l <-> 0 <= x < stop /\ x mod step = 0.
Proof.
  intros Hs. unfold py_range.
  destruct (step =? 0) eqn:E0; [apply Z.eqb_eq in E0; lia |].
  destruct (0 <? step) eqn:E1; [| apply Z.ltb_ge in E1; lia].
  intros [= <-] x. rewrite in_map_iff. split.
  - intros [i [<- Hi]]. apply in_seq in Hi.
    assert (Hn : Z.of_nat i < (stop - 0 + step - 1) / step) by lia.
    rewrite Z.mod_mul by lia. split; [| reflexivity].
    split; [nia |].
    assert (Z.of_nat i * step <= ((stop - 0 + step - 1) / step - 1) * step)
      by nia.
    pose proof (Z.mul_div_le (stop - 0 + step - 1) step Hs). nia.
  - intros [[Hx0 Hx1] Hmod].
    exists (Z.to_nat (x / step)). split.
    + rewrite Z2Nat.id by (apply Z.div_pos; lia).
      pose proof (Z.div_mod x step ltac:(lia)). nia.
    + apply in_seq. split; [lia |]. cbn [Nat.add].
      apply Z2Nat.inj_lt.
      * apply Z.div_pos; lia.
      * apply Z.div_pos; lia.
      * apply Z.div_lt_upper_bound; [lia |].
        pose proof (Z.div_mod x step ltac:(lia)).
        pose proof (Z.mod_pos_bound (stop - 0 + step - 1) step Hs).
        pose proof (Z.div_mod (stop - 0 + step - 1) step ltac:(lia)). nia.
Qed.

Lemma tile_column_eq (image : PIL.image) (x : Z) (ys : list Z) :
  forall image_new,
    tile_column image_new image x ys
    = PIL.mkImage (PIL.width image_new) (PIL.height image_new)
        (PIL.layers image_new
         ++ map (fun y => PIL.Pasted (PIL.width image) (PIL.height image) x y)
              ys).
Proof.
  unfold tile_column. induction ys as [|y ys IH]; intros image_new.
  - cbn. rewrite app_nil_r. now destruct image_new.
  - cbn [fold_left map]. rewrite IH. unfold PIL.paste.
    cbn [PIL.width PIL.height PIL.layers]. now rewrite <- app_assoc.
Qed.

Lemma tile_columns_eq (image : PIL.image) (target_h bg_h : Z) (ys : list Z) :
  py_range 0 target_h bg_h = Some ys ->
  forall xs image_new,
    tile_columns image_new image xs target_h bg_h
    = Some (PIL.mkImage (PIL.width image_new) (PIL.height image_new)
              (PIL.layers image_new
               ++ flat_map
                    (fun x =>
                       map (fun y => PIL.Pasted (PIL.width image)
                                       (PIL.height image) x y) ys) xs)).
Proof.
  intros Hys. induction xs as [|x xs IH]; intros image_new.
  - cbn. rewrite app_nil_r. now destruct image_new.
  - cbn [tile_columns flat_map]. rewrite Hys, IH, tile_column_eq.
    cbn [PIL.width PIL.height PIL.layers]. now rewrite <- app_assoc.
Qed.

Section CompositorMore.

Variable textlength : font -> string -> Z.
Variable cfg : Config.t.

Local Notation "'W'" := (Config.width cfg).
Local Notation "'H'" := (Config.height cfg).

(** X4. Background mode [repeat], for a source image of positive size on
    a canvas of non-negative size: the frame background is made of copies
    of the source pasted without scaling, each at a multiple of the source
    width and of the source height inside the canvas, and every pixel of
    the canvas lies under one of them. *)
Theorem repeat_tiles_cover_the_canvas :
  forall image : PIL.image,
    Config.background_mode cfg = "repeat" ->
    0 < PIL.width image -> 0 < PIL.height image -> 0 <= W -> 0 <= H ->
    exists image_new,
      background cfg image = Some image_new
      /\ (forall l, In l (PIL.layers image_new) ->
            exists x y,
              l = PIL.Pasted (PIL.width image) (PIL.height image) x y
              /\ 0 <= x < W /\ x mod PIL.width image = 0
              /\ 0 <= y < H /\ y mod PIL.height image = 0)
      /\ (forall px py, 0 <= px < W -> 0 <= py < H ->
            exists x y,
              In (PIL.Pasted (PIL.width image) (PIL.height image) x y)
                (PIL.layers image_new)
              /\ x <= px < x + PIL.width image
              /\ y <= py < y + PIL.height image).
Proof.
  intros image Hmode Hiw Hih Hw Hh.
  destruct (py_range 0 W (PIL.width image)) as [xs|] eqn:Exs;
    [| unfold py_range in Exs;
       destruct (PIL.width image =? 0) eqn:E;
       [apply Z.eqb_eq in E; lia | discriminate]].
  destruct (py_range 0 H (PIL.height image)) as [ys|] eqn:Eys;
    [| unfold py_range in Eys;
       destruct (PIL.height image =? 0) eqn:E;
       [apply Z.eqb_eq in E; lia | discriminate]].
  pose proof (py_range_multiples W _ xs Hiw Exs) as Hxs.
  pose proof (py_range_multiples H _ ys Hih Eys) as Hys.
  eexists. split; [| split].
  - unfold background, PIL.new. rewrite Hmode. cbn [String.eqb Ascii.eqb Bool.eqb].
    replace ((0 <=? W) && (0 <=? H)) with true
      by (symmetry; apply andb_true_iff; split; apply Z.leb_le; lia).
    rewrite Exs. apply (tile_columns_eq image H _ ys Eys).
  - cbn [PIL.layers app]. intros l Hl. apply in_flat_map in Hl.
    destruct Hl as [x [Hx Hl]]. apply in_map_iff in Hl.
    destruct Hl as [y [<- Hy]]. exists x, y.
    apply Hxs in Hx. apply Hys in Hy. tauto.
  - cbn [PIL.layers app]. intros px py Hpx Hpy.
    exists (PIL.width image * (px / PIL.width image)),
           (PIL.height image * (py / PIL.height image)).
    pose proof (Z.div_mod px (PIL.width image) ltac:(lia)).
    pose proof (Z.mod_pos_bound px (PIL.width image) Hiw).
    pose proof (Z.div_mod py (PIL.height image) ltac:(lia)).
    pose proof (Z.mod_pos_bound py (PIL.height image) Hih).
    assert (0 <= px / PIL.width image) by (apply Z.div_pos; lia).
    assert (0 <= py / PIL.height image) by (apply Z.div_pos; lia).
    split; [| lia].
    apply in_flat_map. exists (PIL.width image * (px / PIL.width image)).
    split.
    + apply Hxs. split; [nia |]. rewrite Z.mul_comm. apply Z.mod_mul. lia.
    + apply in_map. apply Hys. split; [nia |]. rewrite Z.mul_comm.
      apply Z.mod_mul. lia.
Qed.

End CompositorMore.

Section CompositorLayout.

Variable textlength : font -> string -> Z.
Variable cfg : Config.t.

Local Notation "'W'" := (Config.width cfg).
Local Notation "'H'" := (Config.height cfg).
Local Notation "'px'" := (Config.album_cover_small_px cfg).



(** X6. The small cover. When the caller asks for it and the
    configuration enables it, the source image, resized to a square of the
    configured size, is pasted last, after the blur, at the configured top
    offset and centred: the left margin is the right margin or one pixel
    less. When the caller does not ask for it, or the configuration
    disables it, nothing is pasted; and a configuration that disables it
    never blurs the background either. *)
Theorem small_cover_is_centred_over_the_blur :
  forall (image image_new : PIL.image) (show_small_cover : bool),
    PIL.width image_new = W ->
    (show_small_cover = true -> Config.album_cover_small cfg = true ->
     0 < px ->
     small_cover cfg image (blur_background cfg image_new) show_small_cover
     = Some (PIL.mkImage (PIL.width image_new) (PIL.height image_new)
               (PIL.layers (blur_background cfg image_new)
                ++ [PIL.Pasted px px ((W - px) / 2) (Config.offset_px_top cfg)]))
     /\ 0 <= (W - px - (W - px) / 2) - (W - px) / 2 <= 1)
    /\ (show_small_cover = false \/ Config.album_cover_small cfg = false ->
        small_cover cfg image (blur_background cfg image_new) show_small_cover
        = Some (blur_background cfg image_new))
    /\ (Config.album_cover_small cfg = false ->
        blur_background cfg image_new = image_new).
Proof.
  intros image image_new show Hw. split; [| split].
  - intros -> Hsmall Hpx. split.
    + destruct (blur_background_size cfg image_new) as [Hbw Hbh].
      unfold small_cover, PIL.resize, PIL.paste. rewrite Hsmall. cbn [andb].
      replace (0 <? px) with true by (symmetry; apply Z.ltb_lt; lia).
      cbn [andb PIL.width PIL.height]. now rewrite Hbw, Hbh, Hw.
    + pose proof (Z.div_mod (W - px) 2 ltac:(lia)).
      pose proof (Z.mod_pos_bound (W - px) 2 ltac:(lia)). lia.
  - intros [-> | Hoff]; unfold small_cover; [reflexivity |].
    rewrite Hoff. now rewrite andb_false_r.
  - intros Hoff. unfold blur_background. now rewrite Hoff.
Qed.

(** X7. The text block. In [top-down] mode the title starts 10 pixels
    below the small-cover area and the artist starts exactly where the
    title block ends. In [bottom-up] mode the artist is drawn first, its
    last line one artist font size above the bottom offset, and the title
    block ends exactly where the artist block starts. With any other
    direction no text is drawn. *)
Theorem text_block_is_stacked :
  forall (image_new : PIL.image) (artist title : string)
         (title_pieces artist_pieces : list segment),
    let left := Config.offset_px_left cfg in
    let shadow := Config.offset_text_px_shadow cfg in
    let budget :=
      PIL.width image_new - left - Config.offset_px_right cfg - shadow in
    let ft := Config.font_size_title cfg in
    let fa := Config.font_size_artist cfg in
    let nt := Z.of_nat (List.length title_pieces) in
    let na := Z.of_nat (List.length artist_pieces) in
    list_break_fix textlength budget (mkFont (Config.font_path cfg) ft)
      (TStr title) = Some title_pieces ->
    list_break_fix textlength budget (mkFont (Config.font_path cfg) fa)
      (TStr artist) = Some artist_pieces ->
    (Config.text_direction cfg = "top-down" ->
     let y0 := px + Config.offset_px_top cfg + 10 in
     render_text textlength cfg image_new artist title
     = Some (PIL.mkImage (PIL.width image_new) (PIL.height image_new)
               (PIL.layers image_new
                ++ stacked "white" "black" left shadow ft y0 title_pieces
                ++ stacked "white" "black" left shadow fa (y0 + nt * ft)
                     artist_pieces)))
    /\ (Config.text_direction cfg = "bottom-up" ->
        let floor := PIL.height image_new - Config.offset_px_bottom cfg in
        render_text textlength cfg image_new artist title
        = Some (PIL.mkImage (PIL.width image_new) (PIL.height image_new)
                  (PIL.layers image_new
                   ++ stacked "white" "black" left shadow fa
                        (floor - na * fa) artist_pieces
                   ++ stacked "white" "black" left shadow ft
                        (floor - na * fa - nt * ft) title_pieces)))
    /\ (Config.text_direction cfg <> "top-down" ->
        Config.text_direction cfg <> "bottom-up" ->
        render_text textlength cfg image_new artist title = Some image_new).
Proof.
  intros image_new artist title pt pa left shadow budget ft fa nt na Ht Ha.
  subst left shadow budget ft fa nt na. split; [| split].
  - intros Hdir y0. subst y0. unfold render_text. rewrite Hdir, String.eqb_refl.
    rewrite (fit_text_top_down_eq textlength "white" "black" _ _ _
               image_new (TStr title) _ _ (Config.offset_px_right cfg) pt Ht).
    match goal with
    | |- context [_fit_text_top_down _ ?i (TStr artist)] =>
        rewrite (fit_text_top_down_eq textlength "white" "black" _ _ _
                   i (TStr artist) _ _ (Config.offset_px_right cfg) pa Ha)
    end.
    cbn [PIL.width PIL.height PIL.layers]. rewrite <- app_assoc. reflexivity.
  - intros Hdir floor. subst floor. unfold render_text. rewrite Hdir.
    cbn [String.eqb Ascii.eqb Bool.eqb]. cbv iota.
    rewrite (fit_text_bottom_up_eq textlength "white" "black" _ _ _
               image_new (TStr artist) _ _ (Config.offset_px_right cfg) pa Ha).
    match goal with
    | |- context [_fit_text_bottom_up _ ?i (TStr title)] =>
        rewrite (fit_text_bottom_up_eq textlength "white" "black" _ _ _
                   i (TStr title) _ _ (Config.offset_px_right cfg) pt Ht)
    end.
    cbn [PIL.width PIL.height PIL.layers]. rewrite <- app_assoc.
    match goal with
    | |- Some (PIL.mkImage _ _ (_ ++ stacked _ _ _ _ _ ?a _
                                 ++ stacked _ _ _ _ _ ?b _))
         = Some (PIL.mkImage _ _ (_ ++ stacked _ _ _ _ _ ?a' _
                                   ++ stacked _ _ _ _ _ ?b' _)) =>
        replace a with a' by lia; replace b with b' by lia
    end.
    reflexivity.
  - intros Hn1 Hn2. unfold render_text.
    destruct (String.eqb (Config.text_direction cfg) "top-down") eqn:E1;
      [apply String.eqb_eq in E1; contradiction |].
    destruct (String.eqb (Config.text_direction cfg) "bottom-up") eqn:E2;
      [apply String.eqb_eq in E2; contradiction |].
    reflexivity.
Qed.

End CompositorLayout.

(** ** IdleGallery: discovery, fallback and shuffle *)

Import Files.






Section FilesFacts.

Variable idle_folder : string.
Variable isdir : string -> bool.
Variable listdir : string -> option (list string).


End FilesFacts.

Section GalleryMore.

Variable cfg : Config.t.
Variable open_image : string -> option PIL.image.
Variable rand : nat -> nat.


(** X10. Shuffle on, gallery not empty: a selection opens one of the
    gallery's own paths, picked by the random draw, consumes that one draw
    and leaves the cursor of the cycle where it was. *)
Theorem shuffle_picks_from_the_gallery :
  forall (idle_images : list string) (s : service),
    idle_images <> [] ->
    Config.idle_shuffle cfg = true ->
    exists p,
      In p idle_images
      /\ nth_error idle_images (rand (drawn s) mod List.length idle_images)
         = Some p
      /\ _get_idle_image cfg idle_images open_image rand s
         = ([], set_drawn (S (drawn s)) s,
            match open_image p with
            | Some image => Returned image
            | None => Raised
            end)
      /\ idle_index
           (final (_get_idle_image cfg idle_images open_image rand s))
         = idle_index s.
Proof.
  intros idle_images s Hne Hsh.
  assert (Hlt : (rand (drawn s) mod List.length idle_images
                 < List.length idle_images)%nat).
  { apply Nat.mod_upper_bound. destruct idle_images; [congruence | discriminate]. }
  destruct (nth_error idle_images (rand (drawn s) mod List.length idle_images))
    as [p|] eqn:Ep; [| apply nth_error_None in Ep; lia].
  exists p. split; [eapply nth_error_In; exact Ep |]. split; [reflexivity |].
  assert (Heq : _get_idle_image cfg idle_images open_image rand s
                = ([], set_drawn (S (drawn s)) s,
                   match open_image p with
                   | Some image => Returned image
                   | None => Raised
                   end)).
  { unfold _get_idle_image, idle_path.
    destruct idle_images as [|p0 ps]; [congruence |]. rewrite Hsh.
    unfold bind, gets, modify, lift, ret, raise. svc. rewrite Ep.
    destruct (open_image p); reflexivity. }
  split; [exact Heq |]. rewrite Heq. reflexivity.
Qed.

End GalleryMore.

Lemma repeat_tiles_cover_the_canvas_witness :
  exists image_new,
    background tiled_cfg (PIL.mkImage 300 300 []) = Some image_new
    /\ exists x y,
         In (PIL.Pasted 300 300 x y) (PIL.layers image_new)
         /\ x <= 639 < x + 300 /\ y <= 399 < y + 300.
Proof.
  destruct (repeat_tiles_cover_the_canvas tiled_cfg (PIL.mkImage 300 300 [])
              eq_refl eq_refl eq_refl)
    as [image_new [Hbg [_ Hcover]]]; try (vm_compute; discriminate).
  exists image_new. split; [exact Hbg |].
  apply Hcover; split; vm_compute; (reflexivity || discriminate).
Defined.


Lemma small_cover_is_centred_over_the_blur_witness :
  small_cover Sample.cfg (PIL.mkImage 640 640 [])
    (blur_background Sample.cfg (PIL.mkImage 640 400 [PIL.Fitted 640 640]))
    true
  = Some (PIL.mkImage 640 400
            [PIL.Fitted 640 640; PIL.Blurred 5; PIL.Pasted 200 200 220 0]).
Proof.
  exact (proj1 (proj1 (small_cover_is_centred_over_the_blur Sample.cfg
                         (PIL.mkImage 640 640 [])
                         (PIL.mkImage 640 400 [PIL.Fitted 640 640]) true
                         eq_refl)
                  eq_refl eq_refl eq_refl)).
Defined.

Lemma text_block_is_stacked_witness :
  render_text Sample.textlength Sample.cfg (PIL.mkImage 640 400 [])
    "Miles Davis" "Blue in Green"
  = Some (PIL.mkImage 640 400
            [PIL.Text 24 354 "Miles Davis" "black";
             PIL.Text 20 350 "Miles Davis" "white";
             PIL.Text 24 314 "Blue in Green" "black";
             PIL.Text 20 310 "Blue in Green" "white"]).
Proof.
  exact (proj1 (proj2
    (text_block_is_stacked Sample.textlength Sample.cfg
       (PIL.mkImage 640 400 []) "Miles Davis" "Blue in Green"
       [("Blue in Green", 260)] [("Miles Davis", 165)] eq_refl eq_refl))
    eq_refl).
Defined.



Lemma shuffle_picks_from_the_gallery_witness :
  exists p,
    In p Sample.idle_images
    /\ _get_idle_image
         (Config.mk 640 400 200 true 20 20 0 20 4 "bottom-up" 5 "fit"
            "FreeSans.ttf" 40 30 20 300 true "default.jpg")
         Sample.idle_images Sample.open_image Sample.rand
         (mkService "" 0 0 0 0 4)
       = ([], mkService "" 0 0 0 0 5,
          match Sample.open_image p with
          | Some image => Returned image
          | None => Raised
          end).
Proof.
  assert (Hne : Sample.idle_images <> []) by discriminate.
  destruct (shuffle_picks_from_the_gallery
              (Config.mk 640 400 200 true 20 20 0 20 4 "bottom-up" 5 "fit"
                 "FreeSans.ttf" 40 30 20 300 true "default.jpg")
              Sample.open_image Sample.rand Sample.idle_images
              (mkService "" 0 0 0 0 4) Hne eq_refl)
    as [p [Hin [_ [Heq _]]]].
  exists p. split; [exact Hin | exact Heq].
Defined.

(** ** The poll: retries, exceptions and the limiter *)

Lemma shows_app (a b : list event) : shows (a ++ b) = (shows a + shows b)%nat.
Proof.
  induction a as [|e a IH]; [reflexivity |].
  destruct e; simpl; rewrite IH; lia.
Qed.

Lemma queries_app (a b : list event) :
  queries (a ++ b) = (queries a + queries b)%nat.
Proof.
  induction a as [|e a IH]; [reflexivity |].
  destruct e; simpl; rewrite IH; lia.
Qed.

Lemma retried_cases (p : playing) :
  retried p = true -> p = Unknown \/ p = Malformed.
Proof. destruct p; try discriminate; auto. Qed.

Section PollMore.

Variable source : nat -> playing.

Local Notation "'poll_rec'" := (get_song_info_rec source).
Local Notation "'poll'" := (_get_song_info source).

(** [k] answers that are retried, then one that is not: one query and one
    pause per retry, the last query, and every level gives its count
    back. *)
Lemma retry_chain_settled :
  forall k fuel s r,
    count s + Z.of_nat k + 1 < recursion_limit -> (k < fuel)%nat ->
    (forall i, (i < k)%nat -> retried (source (asked s + i)) = true) ->
    settled (source (asked s + k)) = Some r ->
    poll_rec fuel s
    = ((List.concat (repeat [Query; Nap] k) ++ [Query])%list,
       set_asked (asked s + k + 1) s, Returned r).
Proof.
  induction k as [|k IH]; intros fuel s r Hroom Hfuel Hre Hset;
    rewrite poll_rec_eq; cbv zeta;
    (destruct (count s + 1 <? recursion_limit) eqn:E;
     [| apply Z.ltb_ge in E; lia]);
    (destruct fuel as [|fuel]; [lia |]).
  - rewrite Nat.add_0_r in Hset.
    destruct (source (asked s)); try discriminate; injection Hset as <-;
      destruct s; svc; cbn [repeat List.concat app]; do 2 f_equal;
      same_state.
  - pose proof (Hre O ltac:(lia)) as H0. rewrite Nat.add_0_r in H0.
    assert (Hin : poll_rec fuel
                    (set_asked (S (asked s)) (set_count (count s + 1) s))
                  = ((List.concat (repeat [Query; Nap] k) ++ [Query])%list,
                     set_asked (S (asked s) + k + 1)
                       (set_asked (S (asked s)) (set_count (count s + 1) s)),
                     Returned r)).
    { apply IH.
      - destruct s; svc. lia.
      - lia.
      - intros i Hi. destruct s; svc.
        replace (S asked0 + i)%nat with (asked0 + S i)%nat by lia.
        apply Hre. lia.
      - destruct s; svc.
        replace (S asked0 + k)%nat with (asked0 + S k)%nat by lia.
        exact Hset. }
    destruct (retried_cases _ H0) as [Eq | Eq]; rewrite Eq, Hin;
      destruct s; svc; cbn [repeat List.concat app]; do 2 f_equal;
      same_state.
Qed.

(** [k] answers that are retried, then an exception: it leaves through
    every level, and none of them gives its count back. *)
Lemma retry_chain_raises :
  forall k fuel s,
    count s + Z.of_nat k + 1 < recursion_limit -> (k < fuel)%nat ->
    (forall i, (i < k)%nat -> retried (source (asked s + i)) = true) ->
    source (asked s + k) = Fails ->
    poll_rec fuel s
    = ((List.concat (repeat [Query; Nap] k) ++ [Query])%list,
       set_asked (asked s + k + 1) (set_count (count s + Z.of_nat k + 1) s),
       Raised).
Proof.
  induction k as [|k IH]; intros fuel s Hroom Hfuel Hre Hf;
    rewrite poll_rec_eq; cbv zeta;
    (destruct (count s + 1 <? recursion_limit) eqn:E;
     [| apply Z.ltb_ge in E; lia]);
    (destruct fuel as [|fuel]; [lia |]).
  - rewrite Nat.add_0_r in Hf. rewrite Hf.
    destruct s; svc; cbn [repeat List.concat app]; do 2 f_equal;
      same_state.
  - pose proof (Hre O ltac:(lia)) as H0. rewrite Nat.add_0_r in H0.
    assert (Hin : poll_rec fuel
                    (set_asked (S (asked s)) (set_count (count s + 1) s))
                  = ((List.concat (repeat [Query; Nap] k) ++ [Query])%list,
                     set_asked (S (asked s) + k + 1)
                       (set_count (count s + 1 + Z.of_nat k + 1)
                          (set_asked (S (asked s))
                             (set_count (count s + 1) s))),
                     Raised)).
    { rewrite (IH fuel (set_asked (S (asked s)) (set_count (count s + 1) s))).
      - destruct s; svc. reflexivity.
      - destruct s; svc. lia.
      - lia.
      - intros i Hi. destruct s; svc.
        replace (S asked0 + i)%nat with (asked0 + S i)%nat by lia.
        apply Hre. lia.
      - destruct s; svc.
        replace (S asked0 + k)%nat with (asked0 + S k)%nat by lia.
        exact Hf. }
    destruct (retried_cases _ H0) as [Eq | Eq]; rewrite Eq, Hin;
      destruct s; svc; cbn [repeat List.concat app]; do 2 f_equal;
      same_state.
Qed.

(** With the limiter at its last level the call is refused: [None],
    without a query, and nothing changes. *)
Lemma poll_refused (s : service) :
  recursion_limit - 1 <= count s -> poll s = ([], s, Returned SNone).
Proof.
  intros Hs. unfold _get_song_info. rewrite poll_rec_eq. cbv zeta.
  destruct (count s + 1 <? recursion_limit) eqn:E;
    [apply Z.ltb_lt in E; lia |].
  destruct s; reflexivity.
Qed.

Lemma poll_asks_nothing : asks_nothing poll.
Proof.
  intros s Hs. rewrite poll_refused by (unfold recursion_limit; lia).
  trace. auto.
Qed.

Lemma poll_rec_shows_nothing (fuel : nat) :
  forall s, shows (events (poll_rec fuel s)) = O.
Proof.
  induction fuel as [|fuel IH]; intros s; rewrite poll_rec_eq; cbv zeta.
  - destruct (count s + 1 <? recursion_limit); reflexivity.
  - destruct (count s + 1 <? recursion_limit); [| reflexivity].
    destruct (source (asked s)); try reflexivity.
    all: specialize (IH (set_asked (S (asked s)) (set_count (count s + 1) s)));
      destruct (poll_rec fuel _) as [[e s3] [x | |]]; trace; exact IH.
Qed.

Lemma poll_keeps_display : keeps_display poll.
Proof.
  intros s.
  destruct (poll_off_display source s) as (_ & Hb & Hc & Hsp & Hpc & Hii & _).
  repeat split; try assumption. apply poll_rec_shows_nothing.
Qed.

(** X11. A poll that meets [k] answers without a type (or malformed
    ones) and then an answer it can settle returns what that answer
    settles to, after [k + 1] queries and [k] short pauses, with the
    limiter back where it was; this holds whenever the limiter has room
    for the [k + 1] nested calls. *)
Theorem retries_end_at_the_first_settled_answer :
  forall (k : nat) (s : service) (r : song_info),
    count s + Z.of_nat k + 1 < recursion_limit ->
    (forall i, (i < k)%nat -> retried (source (asked s + i)) = true) ->
    settled (source (asked s + k)) = Some r ->
    poll s
    = ((List.concat (repeat [Query; Nap] k) ++ [Query])%list,
       set_asked (asked s + k + 1) s, Returned r)
    /\ queries (events (poll s)) = S k
    /\ count (final (poll s)) = count s.
Proof.
  intros k s r Hroom Hre Hset.
  assert (Hp : poll s
               = ((List.concat (repeat [Query; Nap] k) ++ [Query])%list,
                  set_asked (asked s + k + 1) s, Returned r)).
  { unfold _get_song_info. apply retry_chain_settled; try assumption. lia. }
  rewrite Hp. trace. repeat split.
  rewrite queries_app. cbn [queries].
  clear. induction k as [|k IH]; [reflexivity |].
  cbn [repeat List.concat app queries]. lia.
Qed.

(** X12. An exception raised by the Spotify client leaves
    [_get_song_info] through the limiter, whose decrement is skipped at
    every level the exception crosses: after [k] retried answers and a
    failing one the poll raises and the counter of the limiter stays
    [k + 1] higher than before. *)
Theorem exception_leaves_the_limiter_raised :
  forall (k : nat) (s : service),
    count s + Z.of_nat k + 1 < recursion_limit ->
    (forall i, (i < k)%nat -> retried (source (asked s + i)) = true) ->
    source (asked s + k) = Fails ->
    poll s
    = ((List.concat (repeat [Query; Nap] k) ++ [Query])%list,
       set_asked (asked s + k + 1) (set_count (count s + Z.of_nat k + 1) s),
       Raised)
    /\ count (final (poll s)) = count s + Z.of_nat k + 1.
Proof.
  intros k s Hroom Hre Hf.
  assert (Hp : poll s
               = ((List.concat (repeat [Query; Nap] k) ++ [Query])%list,
                  set_asked (asked s + k + 1)
                    (set_count (count s + Z.of_nat k + 1) s),
                  Raised)).
  { unfold _get_song_info. apply retry_chain_raises; try assumption. lia. }
  rewrite Hp. split; reflexivity.
Qed.

End PollMore.

Lemma retries_end_at_the_first_settled_answer_witness :
  _get_song_info unknown_twice_then_a fresh
  = ([Query; Nap; Query; Nap; Query], mkService "" 0 0 0 3 0,
     Returned Sample.song_a).
Proof.
  refine (proj1 (retries_end_at_the_first_settled_answer unknown_twice_then_a
                   2 fresh Sample.song_a _ _ _)).
  - vm_compute. reflexivity.
  - intros i Hi. destruct i as [|[|i]]; [reflexivity | reflexivity | lia].
  - reflexivity.
Defined.

Lemma exception_leaves_the_limiter_raised_witness :
  _get_song_info (fun k => match k with O => Unknown | _ => Fails end) fresh
  = ([Query; Nap; Query], mkService "" 0 0 2 2 0, Raised).
Proof.
  refine (proj1 (exception_leaves_the_limiter_raised
                   (fun k => match k with O => Unknown | _ => Fails end)
                   1 fresh _ _ _)).
  - vm_compute. reflexivity.
  - intros i Hi. destruct i as [|i]; [reflexivity | lia].
  - reflexivity.
Defined.

(** ** Display updates: the refresh cycle and the lost cover *)

Section DisplayMore.

Variable textlength : font -> string -> Z.
Variable cfg : Config.t.
Variable idle_images : list string.
Variable open_image : string -> option PIL.image.
Variable fetch_cover : string -> option PIL.image.
Variable rand : nat -> nat.

Local Notation "'compose''" :=
  (compose textlength cfg idle_images open_image fetch_cover rand).
Local Notation "'update'" :=
  (_display_update_process textlength cfg idle_images open_image
     fetch_cover rand).
Local Notation "'threshold'" := (Config.display_refresh_counter cfg).

(** What an update leaves on the trace besides its request: one push when
    the frame was built, none otherwise; never a query. *)
Lemma update_trace (req : song_info) (s : service) :
  shows (events (update req s))
  = match result (compose' req s) with Returned _ => 1%nat | _ => O end
  /\ queries (events (update req s)) = O
  /\ pic_counter (final (update req s))
     = match result (compose' req s) with
       | Returned _ =>
           (if pic_counter s >? threshold then 0 else pic_counter s) + 1
       | _ => pic_counter s
       end.
Proof.
  rewrite update_eq.
  destruct (compose_quiet textlength cfg idle_images open_image fetch_cover
              rand req s) as [_ [_ [Hpc _]]].
  destruct (result (compose' req s)) as [image | |]; trace;
    try (destruct (pic_counter s >? threshold); trace);
    repeat split; try assumption; reflexivity.
Qed.

Lemma update_asks_nothing (req : song_info) : asks_nothing (update req).
Proof.
  intros s _.
  destruct (update_builds_once textlength cfg idle_images open_image
              fetch_cover rand req s) as (_ & _ & Hc & Ha & _).
  destruct (update_trace req s) as (_ & Hq & _).
  repeat split; assumption.
Qed.

(** From a counter of 1, as a clear leaves it: [threshold] pushes without
    a clear, and the next one clears and leaves 1 again. *)
Lemma refresh_cycle (req : song_info) :
  0 <= threshold ->
  (forall s, exists image, result (compose' req s) = Returned image) ->
  forall s, pic_counter s = 1 ->
    (exists l,
        result (calls (S (Z.to_nat threshold)) (update req) s) = Returned l)
    /\ pic_counter (final (calls (S (Z.to_nat threshold)) (update req) s)) = 1
    /\ clears (events (calls (S (Z.to_nat threshold)) (update req) s))
       = 1%nat.
Proof.
  intros Hth Hc s H1.
  assert (Hle : pic_counter s + Z.of_nat (Z.to_nat threshold) <= threshold + 1)
    by lia.
  destruct (pushes_without_clear textlength cfg idle_images open_image
              fetch_cover rand req Hc (Z.to_nat threshold) s Hle)
    as [[l Hl] [Hpc Hcl]].
  replace (S (Z.to_nat threshold)) with (Z.to_nat threshold + 1)%nat by lia.
  rewrite (calls_add (update req) 1 (Z.to_nat threshold) s l Hl).
  set (sn := final (calls (Z.to_nat threshold) (update req) s)) in *.
  destruct (Hc sn) as [image Him].
  pose proof (update_eq textlength cfg idle_images open_image fetch_cover
                rand req sn) as Hu.
  rewrite Him in Hu.
  assert (E : (pic_counter sn >? threshold) = true)
    by (apply Z.gtb_lt; lia).
  rewrite E in Hu. cbn [app] in Hu.
  cbn [calls]. erewrite bind_returned by (rewrite Hu; reflexivity).
  rewrite Hu. unfold ret, bind. svc.
  rewrite clears_app, Hcl. cbn [clears]. repeat split; eauto.
Qed.

(** X13. In steady state the display is cleared once every
    [display_refresh_counter + 1] pushes, for any threshold that is not
    negative: from a counter of 1, which is what a clear followed by its
    push leaves, [m] cycles of [threshold + 1] pushes contain exactly [m]
    clears and end with the counter at 1 again. *)
Theorem one_clear_every_refresh_cycle :
  forall (req : song_info),
    0 <= threshold ->
    (forall s, exists image, result (compose' req s) = Returned image) ->
    forall (m : nat) (s : service),
      pic_counter s = 1 ->
      (exists l,
          result (calls (m * S (Z.to_nat threshold)) (update req) s)
          = Returned l)
      /\ clears (events (calls (m * S (Z.to_nat threshold)) (update req) s))
         = m
      /\ pic_counter
           (final (calls (m * S (Z.to_nat threshold)) (update req) s))
         = 1.
Proof.
  intros req Hth Hc. induction m as [|m IH]; intros s H1.
  - cbn [Nat.mul calls]. unfold ret. svc. eauto.
  - destruct (refresh_cycle req Hth Hc s H1) as [[l Hl] [Hpc Hcl]].
    replace (S m * S (Z.to_nat threshold))%nat
      with (S (Z.to_nat threshold) + m * S (Z.to_nat threshold))%nat by lia.
    rewrite (calls_add (update req) (m * S (Z.to_nat threshold))
               (S (Z.to_nat threshold)) s l Hl).
    destruct (IH _ Hpc) as [[l2 Hl2] [Hcl2 Hpc2]].
    svc. unfold result in Hl2. rewrite Hl2, clears_app.
    unfold events in Hcl, Hcl2. rewrite Hcl, Hcl2.
    repeat split; eauto.
Qed.

(** X14. When the album cover cannot be fetched, the frame of the track
    is built over the default image, with the same title and artist and
    with the small cover, and is pushed as any other; when the default
    image cannot be opened either, the update raises: nothing is pushed or
    cleared and the refresh counter stays where it was. *)
Theorem lost_cover_falls_back_to_the_default :
  forall (t c a : string) (s : service),
    fetch_cover c = None ->
    (forall fb frame,
        open_image (Config.no_song_cover cfg) = Some fb ->
        _gen_pic textlength cfg fb a t true = Some frame ->
        update (Song t c a) s
        = (Update (Song t c a)
             :: (if pic_counter s >? threshold then [Clean] else [])
             ++ [Show frame],
           set_pic_counter
             ((if pic_counter s >? threshold then 0 else pic_counter s) + 1)
             s,
           Returned tt))
    /\ (open_image (Config.no_song_cover cfg) = None ->
        update (Song t c a) s = ([Update (Song t c a)], s, Raised)).
Proof.
  intros t c a s Hfetch. split.
  - intros fb frame Hfb Hframe.
    rewrite update_eq. unfold compose, try_except, bind, lift, ret, raise.
    rewrite Hfetch, Hfb, Hframe. svc. reflexivity.
  - intros Hfb.
    rewrite update_eq. unfold compose, try_except, bind, lift, ret, raise.
    rewrite Hfetch, Hfb. svc. reflexivity.
Qed.

End DisplayMore.

Lemma one_clear_every_refresh_cycle_witness :
  clears (events (calls 42 (Sample.update Sample.song_a)
                    (mkService "" 1 0 0 0 0))) = 2%nat.
Proof.
  exact (proj1 (proj2
    (one_clear_every_refresh_cycle Sample.textlength Sample.cfg
       Sample.idle_images Sample.open_image Sample.fetch_cover Sample.rand
       Sample.song_a ltac:(vm_compute; discriminate)
       (fun s => ex_intro _ Sample.frame_a eq_refl)
       2 (mkService "" 1 0 0 0 0) eq_refl))).
Defined.

Lemma lost_cover_falls_back_to_the_default_witness :
  exists frame,
    _gen_pic Sample.textlength Sample.cfg (PIL.mkImage 640 400 [])
      "Miles Davis" "Blue in Green" true = Some frame
    /\ _display_update_process Sample.textlength Sample.cfg
         Sample.idle_images Sample.open_image (fun _ => None) Sample.rand
         Sample.song_a fresh
       = ([Update Sample.song_a; Show frame], mkService "" 1 0 0 0 0,
          Returned tt).
Proof.
  destruct (_gen_pic Sample.textlength Sample.cfg (PIL.mkImage 640 400 [])
              "Miles Davis" "Blue in Green" true) as [frame |] eqn:E;
    [| vm_compute in E; discriminate].
  exists frame. split; [reflexivity |].
  exact (proj1 (lost_cover_falls_back_to_the_default Sample.textlength
                  Sample.cfg Sample.idle_images Sample.open_image
                  (fun _ => None) Sample.rand
                  "Blue in Green" "https://i.scdn.co/image/ab67616d"
                  "Miles Davis" fresh eq_refl)
           (PIL.mkImage 640 400 []) frame eq_refl E).
Defined.

(** ** Methods that ask the source nothing, and methods that keep the
    display *)

Lemma asks_nothing_ret {A : Type} (a : A) : asks_nothing (ret a).
Proof. intros s _. trace. auto. Qed.

Lemma asks_nothing_sleep (secs : Z) : asks_nothing (emit (Sleep secs)).
Proof. intros s _. trace. auto. Qed.

Lemma asks_nothing_gets {A : Type} (f : service -> A) : asks_nothing (gets f).
Proof. intros s _. trace. auto. Qed.

Lemma asks_nothing_set_song_prev (v : string) :
  asks_nothing (modify (set_song_prev v)).
Proof. intros s _. trace. auto. Qed.

Lemma asks_nothing_bind {A B : Type} (m : M A) (k : A -> M B) :
  asks_nothing m -> (forall a, asks_nothing (k a)) -> asks_nothing (bind m k).
Proof.
  intros Hm Hk s Hs. destruct (Hm s Hs) as (Hq & Hc & Ha).
  unfold bind. destruct (m s) as [[e1 s1] [a | |]]; trace; auto.
  destruct (Hk a s1 ltac:(lia)) as (Hq2 & Hc2 & Ha2).
  destruct (k a s1) as [[e2 s2] r2]; trace.
  rewrite queries_app, Hq, Hq2. repeat split; congruence.
Qed.

Lemma asks_nothing_try_except {A : Type} (m h : M A) :
  asks_nothing m -> asks_nothing h -> asks_nothing (try_except m h).
Proof.
  intros Hm Hh s Hs. destruct (Hm s Hs) as (Hq & Hc & Ha).
  unfold try_except. destruct (m s) as [[e1 s1] [a | |]]; trace; auto.
  destruct (Hh s1 ltac:(lia)) as (Hq2 & Hc2 & Ha2).
  destruct (h s1) as [[e2 s2] r2]; trace.
  rewrite queries_app, Hq, Hq2. repeat split; congruence.
Qed.

Create HintDb silent.

#[local] Hint Resolve asks_nothing_ret asks_nothing_sleep asks_nothing_gets
  asks_nothing_set_song_prev asks_nothing_bind asks_nothing_try_except
  : silent.

Lemma keeps_display_ret {A : Type} (a : A) : keeps_display (ret a).
Proof. intros s. trace. auto 10. Qed.

Lemma keeps_display_sleep (secs : Z) : keeps_display (emit (Sleep secs)).
Proof. intros s. trace. auto 10. Qed.

Lemma keeps_display_bind {A B : Type} (m : M A) (k : A -> M B) :
  keeps_display m -> (forall a, keeps_display (k a)) ->
  keeps_display (bind m k).
Proof.
  intros Hm Hk s. destruct (Hm s) as (Hb & Hs & Hc & Hsp & Hpc & Hii).
  unfold bind. destruct (m s) as [[e1 s1] [a | |]]; trace; auto 10.
  destruct (Hk a s1) as (Hb2 & Hs2 & Hc2 & Hsp2 & Hpc2 & Hii2).
  destruct (k a s1) as [[e2 s2] r2]; trace.
  rewrite builds_app, shows_app, clears_app, Hb, Hb2, Hs, Hs2, Hc, Hc2.
  repeat split; congruence.
Qed.

(** ** PlaybackPoller: failures, idle turns and the debounce at length *)

Section LoopMore.

Variable textlength : font -> string -> Z.
Variable cfg : Config.t.
Variable delay : Z.
Variable idle_images : list string.
Variable open_image : string -> option PIL.image.
Variable fetch_cover : string -> option PIL.image.
Variable source : nat -> playing.
Variable rand : nat -> nat.

Local Notation "'poll'" := (_get_song_info source).
Local Notation "'compose''" :=
  (compose textlength cfg idle_images open_image fetch_cover rand).
Local Notation "'update'" :=
  (_display_update_process textlength cfg idle_images open_image
     fetch_cover rand).
Local Notation "'sleep_loop'" := (idle_sleep cfg source).
Local Notation "'wait'" := (idle_wait cfg source).
Local Notation "'idle'" :=
  (idle_branch textlength cfg idle_images open_image fetch_cover source rand).
Local Notation "'once'" :=
  (poll_once textlength cfg idle_images open_image fetch_cover source rand).
Local Notation "'turn'" :=
  (iteration textlength cfg delay idle_images open_image fetch_cover source
     rand).
Local Notation "'turns'" :=
  (iterations textlength cfg delay idle_images open_image fetch_cover source
     rand).
Local Notation "'T'" := (Config.idle_display_time cfg).

Lemma iterations_succ (n : nat) (s : service) :
  turns (S n) s
  = ((events (turn s) ++ events (turns n (final (turn s))))%list,
     final (turns n (final (turn s))), result (turns n (final (turn s)))).
Proof.
  cbn [iterations].
  apply (bind_returned turn (fun _ => turns n) s tt).
  apply iteration_returns.
Qed.

Lemma iterations_return (n : nat) :
  forall s, result (turns n s) = Returned tt.
Proof.
  induction n as [|n IH]; intros s; [reflexivity |].
  rewrite iterations_succ. apply IH.
Qed.

(** A turn of the loop whose poll raises: the exception is caught by the
    loop, and the delay follows. *)
Lemma iteration_poll_raises (s : service) :
  result (poll s) = Raised ->
  turn s = ((events (poll s) ++ [Sleep delay])%list, final (poll s),
            Returned tt).
Proof.
  intros Hp. unfold iteration, poll_once, try_except.
  unfold bind at 1 2. rewrite (run_eta (poll s)), Hp. svc.
  unfold ret, emit. svc. now rewrite app_nil_r.
Qed.

Lemma iteration_failing (s : service) :
  source (asked s) = Fails -> count s + 1 < recursion_limit ->
  turn s
  = ([Query; Sleep delay],
     set_asked (S (asked s)) (set_count (count s + 1) s), Returned tt).
Proof.
  intros Hf Hroom.
  assert (Hp : poll s
               = ([Query],
                  set_asked (S (asked s)) (set_count (count s + 1) s),
                  Raised)).
  { unfold _get_song_info.
    destruct (Z.to_nat (recursion_limit - count s)) as [|fuel] eqn:Ef;
      [lia |].
    rewrite poll_rec_eq. cbv zeta.
    destruct (count s + 1 <? recursion_limit) eqn:E;
      [| apply Z.ltb_ge in E; lia].
    now rewrite Hf. }
  rewrite iteration_poll_raises by (rewrite Hp; reflexivity).
  rewrite Hp. reflexivity.
Qed.

(** [n] turns in a row whose poll raises at its first answer. *)
Lemma iterations_failing :
  forall n s,
    fails_for source n s -> count s + Z.of_nat n < recursion_limit ->
    turns n s
    = (List.concat (repeat [Query; Sleep delay] n),
       set_asked (asked s + n) (set_count (count s + Z.of_nat n) s),
       Returned tt).
Proof.
  induction n as [|n IH]; intros s Hf Hroom.
  - cbn [iterations repeat List.concat]. unfold ret. do 2 f_equal.
    destruct s. same_state.
  - rewrite iterations_succ.
    rewrite iteration_failing;
      [| rewrite <- (Nat.add_0_r (asked s)); apply Hf; lia | lia].
    svc. rewrite IH.
    + cbn [repeat List.concat app]. svc. do 2 f_equal.
      destruct s. svc. same_state.
    + intros i Hi. destruct s. svc.
      replace (S asked0 + i)%nat with (asked0 + S i)%nat by lia.
      apply (Hf (S i)). lia.
    + destruct s. svc. lia.
Qed.

Lemma idle_sleep_asks_nothing (fuel : nat) :
  forall elapsed, asks_nothing (sleep_loop fuel elapsed).
Proof.
  induction fuel as [|fuel IH]; intros elapsed s Hs; rewrite idle_sleep_eq.
  - destruct (elapsed <? T); trace; auto.
  - destruct (elapsed <? T); [| trace; auto].
    destruct (poll_asks_nothing source s Hs) as (Hq & Hc & Ha).
    destruct (result (poll s)) as [r | |]; [| trace; auto | trace; auto].
    destruct (truthy r); [trace; auto |].
    destruct (IH (elapsed + 5) (final (poll s)) ltac:(lia))
      as (Hq2 & Hc2 & Ha2).
    cbv zeta. trace. rewrite queries_app.
    unfold events, final in *. rewrite Hq, Hq2.
    repeat split; congruence.
Qed.

Lemma iteration_asks_nothing : asks_nothing turn.
Proof.
  pose proof (poll_asks_nothing source) as Hpoll.
  pose proof (update_asks_nothing textlength cfg idle_images open_image
                fetch_cover rand) as Hupd.
  assert (Hwait : asks_nothing wait) by apply idle_sleep_asks_nothing.
  unfold iteration, poll_once, playing_branch, idle_branch.
  apply asks_nothing_bind.
  - apply asks_nothing_try_except; [| auto with silent].
    apply asks_nothing_bind; [exact Hpoll |].
    intros [| | t c a]; auto 10 with silent.
    apply asks_nothing_bind; [auto with silent |]. intros prev.
    destruct (negb (String.eqb prev (t ++ c))); auto 10 with silent.
  - intros [|]; auto with silent.
Qed.

Lemma iterations_asks_nothing (n : nat) : asks_nothing (turns n).
Proof.
  induction n as [|n IH]; cbn [iterations]; [auto with silent |].
  apply asks_nothing_bind; [apply iteration_asks_nothing | intros _; exact IH].
Qed.

Lemma idle_sleep_keeps_display (fuel : nat) :
  forall elapsed, keeps_display (sleep_loop fuel elapsed).
Proof.
  induction fuel as [|fuel IH]; intros elapsed; cbn [idle_sleep];
    (destruct (elapsed <? T); [| apply keeps_display_ret]).
  - intros s. trace. auto 10.
  - apply keeps_display_bind; [apply keeps_display_sleep |]. intros _.
    apply keeps_display_bind; [apply poll_keeps_display |]. intros r.
    destruct (truthy r); [apply keeps_display_ret | apply IH].
Qed.

(** X15. The limiter of [_get_song_info] never recovers from
    exceptions: once the polls that open [n] turns of the loop have raised
    and brought its counter to 9, every later poll is refused without
    asking Spotify, so the loop never queries again, whatever plays and
    however long it runs. *)
Theorem failed_polls_silence_the_poller :
  forall (n : nat) (s : service),
    fails_for source n s ->
    count s + Z.of_nat n = recursion_limit - 1 ->
    turns n s
    = (List.concat (repeat [Query; Sleep delay] n),
       set_asked (asked s + n) (set_count (recursion_limit - 1) s),
       Returned tt)
    /\ forall m,
         queries (events (turns m (final (turns n s)))) = O
         /\ poll (final (turns m (final (turns n s))))
            = ([], final (turns m (final (turns n s))), Returned SNone).
Proof.
  intros n s Hf Hn.
  assert (Hrun : turns n s
                 = (List.concat (repeat [Query; Sleep delay] n),
                    set_asked (asked s + n)
                      (set_count (recursion_limit - 1) s),
                    Returned tt)).
  { rewrite iterations_failing by (assumption || lia).
    rewrite Hn. reflexivity. }
  split; [exact Hrun |]. intros m.
  assert (H9 : 9 <= count (final (turns n s))).
  { rewrite Hrun. destruct s. svc. unfold recursion_limit. lia. }
  destruct (iterations_asks_nothing m _ H9) as (Hq & Hc & _).
  split; [exact Hq |].
  apply poll_refused. unfold recursion_limit. lia.
Qed.

(** X16. Without a track the idle wait lasts the whole idle time,
    rounded up to the next multiple of 5: it sleeps
    [5 * ceil(idle_display_time / 5)] seconds, which is at least the idle
    time and less than 5 more; with an idle time that is not positive it
    neither sleeps nor polls. *)
Theorem idle_wait_lasts_the_whole_time :
  forall s : service,
    (0 < T ->
     no_track_for source (Z.to_nat ((T + 4) / 5)) s ->
     result (wait s) = Returned (5 * ((T + 4) / 5))
     /\ slept (events (wait s)) = 5 * ((T + 4) / 5)
     /\ T <= 5 * ((T + 4) / 5) < T + 5)
    /\ (T <= 0 -> wait s = ([], s, Returned 0)).
Proof.
  intros s. split.
  - intros Hpos Hno.
    assert (Hdiv : T <= 5 * ((T + 4) / 5) < T + 5).
    { pose proof (Z.div_mod (T + 4) 5 ltac:(lia)) as Hdm.
      pose proof (Z.mod_pos_bound (T + 4) 5 ltac:(lia)). lia. }
    destruct (idle_sleep_full cfg source (Z.to_nat ((T + 4) / 5))
                (Z.to_nat T) 0 s Hno) as [Hr Hs]; [lia | lia |].
    unfold idle_wait. rewrite Hr, Hs.
    replace (Z.of_nat (Z.to_nat ((T + 4) / 5))) with ((T + 4) / 5) by lia.
    repeat split; try (f_equal; lia); lia.
  - intros Hle. unfold idle_wait. rewrite idle_sleep_eq.
    destruct (0 <? T) eqn:E; [apply Z.ltb_lt in E; lia | reflexivity].
Qed.

(** X17. The loop outlives whatever its turns meet: [start] clears the
    display first, and after any number of turns it has returned from each
    of them, whether the poll or the update raised or not. *)
Theorem loop_survives_every_turn :
  forall (n : nat) (s : service),
    result (start textlength cfg delay idle_images open_image fetch_cover
              source rand n s) = Returned tt
    /\ events (start textlength cfg delay idle_images open_image fetch_cover
                 source rand n s)
       = Clean :: events (turns n s)
    /\ (result (poll s) = Raised ->
        turn s = ((events (poll s) ++ [Sleep delay])%list, final (poll s),
                  Returned tt)).
Proof.
  intros n s. pose proof (iterations_return n s) as Hr.
  unfold start, _display_clean, bind, emit. svc.
  destruct (turns n s) as [[e s'] r]. svc. subst r.
  repeat split. apply iteration_poll_raises.
Qed.

(** The idle branch: the key, the idle frame, the wait. *)
Lemma idle_branch_eq (s : service) :
  let u := update SEmpty (set_song_prev "NO_SONG" s) in
  idle s =
  match result u with
  | Returned _ =>
      ((events u ++ events (wait (final u)))%list, final (wait (final u)),
       match result (wait (final u)) with
       | Returned _ => Returned Continue
       | Raised => Raised
       | Stuck => Stuck
       end)
  | Raised => (events u, final u, Raised)
  | Stuck => (events u, final u, Stuck)
  end.
Proof.
  cbv zeta. unfold idle_branch, bind, modify, ret.
  destruct (update SEmpty (set_song_prev "NO_SONG" s))
    as [[eu su] [[] | |]]; svc; try reflexivity.
  destruct (wait su) as [[ew sw] [z | |]]; svc; rewrite ?app_nil_r;
    reflexivity.
Qed.

Lemma idle_branch_builds_once (s : service) :
  builds (events (idle s)) = 1%nat
  /\ song_prev (final (idle s)) = "NO_SONG".
Proof.
  rewrite idle_branch_eq. cbv zeta.
  pose proof (update_builds_once textlength cfg idle_images open_image
                fetch_cover rand SEmpty (set_song_prev "NO_SONG" s))
    as (Hb1 & Hsp1 & _).
  destruct (idle_sleep_keeps_display (Z.to_nat T) 0
              (final (update SEmpty (set_song_prev "NO_SONG" s))))
    as (Hbw & _ & _ & Hspw & _).
  fold wait in Hbw, Hspw.
  destruct (result (update SEmpty (set_song_prev "NO_SONG" s)))
    as [[] | |]; svc; rewrite ?builds_app; unfold events, final in *;
    rewrite ?Hbw, ?Hspw, ?Hb1, ?Hsp1; auto.
Qed.

(** A turn of the loop whose poll returns no track: the idle branch, and
    the delay only when the branch raised. *)
Lemma iteration_no_track (s : service) (r : song_info) :
  result (poll s) = Returned r -> truthy r = false ->
  let b := idle (final (poll s)) in
  turn s =
  match result b with
  | Returned Continue =>
      ((events (poll s) ++ events b)%list, final b, Returned tt)
  | Returned FallThrough | Raised =>
      ((events (poll s) ++ events b ++ [Sleep delay])%list, final b,
       Returned tt)
  | Stuck => ((events (poll s) ++ events b)%list, final b, Stuck)
  end.
Proof.
  intros Hp Hr. cbv zeta.
  unfold iteration, poll_once, try_except.
  unfold bind at 1 2. rewrite (run_eta (poll s)), Hp. svc.
  unfold final, events, result.
  destruct r; try discriminate;
    destruct (idle (snd (fst (poll s)))) as [[eb sb] [[|] | |]];
    unfold ret, emit; svc; rewrite ?app_nil_r, <- ?app_assoc; reflexivity.
Qed.

(** X18. Idle turns are not debounced: whenever the poll that opens a
    turn returns no track, the turn asks for exactly one frame build and
    stores the key 'NO_SONG', whatever key was stored before, also when
    it was 'NO_SONG' already. *)
Theorem idle_turn_always_rebuilds :
  forall (s : service) (r : song_info),
    result (poll s) = Returned r -> truthy r = false ->
    builds (events (turn s)) = 1%nat
    /\ song_prev (final (turn s)) = "NO_SONG".
Proof.
  intros s r Hp Hr. rewrite (iteration_no_track s r Hp Hr). cbv zeta.
  destruct (idle_branch_builds_once (final (poll s))) as [Hb Hsp].
  destruct (poll_keeps_display source s) as (Hbp & _).
  destruct (result (idle (final (poll s)))) as [[|] | |]; svc;
    rewrite ?builds_app; unfold events, final in *;
    rewrite ?Hbp, ?Hb; cbn [builds]; split; (assumption || lia).
Qed.

(** The same key for [n] turns: nothing is built, pushed or cleared. *)
Lemma iterations_same_key (key : string) :
  forall n s,
    song_prev s = key ->
    same_key_for textlength cfg delay idle_images open_image fetch_cover
      source rand key n s ->
    builds (events (turns n s)) = O
    /\ shows (events (turns n s)) = O
    /\ clears (events (turns n s)) = O
    /\ slept (events (turns n s)) = Z.of_nat n * delay
    /\ song_prev (final (turns n s)) = key
    /\ pic_counter (final (turns n s)) = pic_counter s
    /\ idle_index (final (turns n s)) = idle_index s.
Proof.
  induction n as [|n IH]; intros s Hprev Hsame.
  - cbn [iterations]. unfold ret. trace. repeat split; auto; lia.
  - cbn [same_key_for] in Hsame.
    destruct Hsame as [(t & c & a & Hp & Hkey) Hrest].
    pose proof (iteration_playing textlength cfg delay idle_images open_image
                  fetch_cover source rand s t c a Hp) as Ht.
    rewrite Hprev, <- Hkey, String.eqb_refl in Ht.
    destruct (poll_keeps_display source s)
      as (Hb & Hs & Hc & Hsp & Hpc & Hii).
    destruct (poll_off_display source s) as (Hsl & _).
    assert (Hprev' : song_prev (final (turn s)) = key).
    { rewrite Ht. svc. unfold final in Hsp. congruence. }
    destruct (IH (final (turn s)) Hprev' Hrest)
      as (Hb2 & Hs2 & Hc2 & Hsl2 & Hsp2 & Hpc2 & Hii2).
    rewrite iterations_succ. trace.
    unfold events, final in *.
    rewrite builds_app, shows_app, clears_app, slept_app,
      Hb2, Hs2, Hc2, Hsl2, Hsp2, Hpc2, Hii2.
    rewrite Ht. trace.
    rewrite builds_app, shows_app, clears_app, slept_app, Hb, Hs, Hc, Hsl.
    trace. repeat split; try congruence; lia.
Qed.

(** X19. While the polls that open the turns of the loop keep returning
    tracks with the stored title+coverUrl key, for any number of turns,
    the loop builds, pushes and clears nothing, sleeps its delay once per
    turn, and leaves the key, the refresh counter and the gallery cursor
    untouched. *)
Theorem same_key_never_rebuilds :
  forall (key : string) (n : nat) (s : service),
    song_prev s = key ->
    same_key_for textlength cfg delay idle_images open_image fetch_cover
      source rand key n s ->
    builds (events (turns n s)) = O
    /\ shows (events (turns n s)) = O
    /\ clears (events (turns n s)) = O
    /\ slept (events (turns n s)) = Z.of_nat n * delay
    /\ song_prev (final (turns n s)) = key
    /\ pic_counter (final (turns n s)) = pic_counter s
    /\ idle_index (final (turns n s)) = idle_index s.
Proof. intros key n s. apply iterations_same_key. Qed.

(** X20. The key of a new track is stored before its frame is built, so
    a build that fails is never tried again: when the frame of a newly
    detected track cannot be composed, the turn pushes nothing, and as
    long as the following polls return the same key, for any number of
    turns, the track is never shown: the whole run asks for one build and
    pushes no frame. *)
Theorem failed_build_is_not_retried :
  forall (s : service) (t c a : string) (n : nat),
    result (poll s) = Returned (Song t c a) ->
    song_prev s <> t ++ c ->
    result (compose' (Song t c a) (set_song_prev (t ++ c) (final (poll s))))
    = Raised ->
    same_key_for textlength cfg delay idle_images open_image fetch_cover
      source rand (t ++ c) n (final (turn s)) ->
    builds (events (turns (S n) s)) = 1%nat
    /\ shows (events (turns (S n) s)) = O
    /\ song_prev (final (turns (S n) s)) = t ++ c.
Proof.
  intros s t c a n Hp Hnew Hcomp Hsame.
  pose proof (iteration_playing textlength cfg delay idle_images open_image
                fetch_cover source rand s t c a Hp) as Ht.
  apply String.eqb_neq in Hnew. rewrite Hnew in Ht. cbv zeta in Ht.
  set (s1 := set_song_prev (t ++ c) (final (poll s))) in *.
  pose proof (update_eq textlength cfg idle_images open_image fetch_cover
                rand (Song t c a) s1) as Hu.
  rewrite Hcomp in Hu.
  destruct (compose_quiet textlength cfg idle_images open_image fetch_cover
              rand (Song t c a) s1) as (_ & Hsp & _).
  destruct (poll_keeps_display source s) as (Hb & Hs & _).
  assert (Hprev : song_prev (final (turn s)) = t ++ c).
  { rewrite Ht, Hu. svc. exact Hsp. }
  destruct (iterations_same_key (t ++ c) n (final (turn s)) Hprev Hsame)
    as (Hb2 & Hs2 & _ & _ & Hsp2 & _).
  rewrite iterations_succ. trace. unfold events, final in *.
  rewrite builds_app, shows_app, Hb2, Hs2, Hsp2.
  rewrite Ht, Hu. trace.
  rewrite !builds_app, !shows_app, Hb, Hs. trace.
  repeat split; lia.
Qed.

End LoopMore.

(** ** The loop at work in the sample world *)

Lemma failed_polls_silence_the_poller_witness :
  queries
    (events (Sample.turns nine_failures_then_a 3
               (final (Sample.turns nine_failures_then_a 9 fresh))))
  = O.
Proof.
  assert (Hf : fails_for nine_failures_then_a 9 fresh).
  { intros i Hi. do 9 (destruct i as [|i]; [reflexivity |]). simpl in Hi. lia. }
  exact (proj1 (proj2 (failed_polls_silence_the_poller Sample.textlength
                         Sample.cfg Sample.delay Sample.idle_images
                         Sample.open_image Sample.fetch_cover
                         nine_failures_then_a Sample.rand 9 fresh Hf eq_refl)
                  3%nat)).
Defined.

Lemma idle_wait_lasts_the_whole_time_witness :
  slept (events (idle_wait Sample.cfg (Sample.silent_then_a 100) fresh)) = 300.
Proof.
  assert (Hno : no_track_for (Sample.silent_then_a 100)
                  (Z.to_nat ((Config.idle_display_time Sample.cfg + 4) / 5))
                  fresh).
  { vm_compute. repeat split. }
  exact (proj1 (proj2 (proj1 (idle_wait_lasts_the_whole_time Sample.cfg
                                (Sample.silent_then_a 100) fresh)
                         ltac:(reflexivity) Hno))).
Defined.

Lemma loop_survives_every_turn_witness :
  Sample.turn (fun _ => Fails) fresh
  = ([Query; Sleep 1], mkService "" 0 0 1 1 0, Returned tt).
Proof.
  exact (proj2 (proj2 (loop_survives_every_turn Sample.textlength Sample.cfg
                         Sample.delay Sample.idle_images Sample.open_image
                         Sample.fetch_cover (fun _ => Fails) Sample.rand
                         1 fresh))
           eq_refl).
Defined.

Lemma idle_turn_always_rebuilds_witness :
  builds (events (Sample.turn (Sample.silent_then_a 100)
                    (mkService "NO_SONG" 3 1 0 0 0)))
  = 1%nat.
Proof.
  exact (proj1 (idle_turn_always_rebuilds Sample.textlength Sample.cfg
                  Sample.delay Sample.idle_images Sample.open_image
                  Sample.fetch_cover (Sample.silent_then_a 100) Sample.rand
                  (mkService "NO_SONG" 3 1 0 0 0) SEmpty eq_refl eq_refl)).
Defined.

Lemma same_key_never_rebuilds_witness :
  shows (events (Sample.turns Sample.always_a 3
                   (final (Sample.turn Sample.always_a fresh))))
  = O.
Proof.
  assert (Hsame :
    same_key_for Sample.textlength Sample.cfg Sample.delay
      Sample.idle_images Sample.open_image Sample.fetch_cover
      Sample.always_a Sample.rand
      "Blue in Greenhttps://i.scdn.co/image/ab67616d" 3
      (final (Sample.turn Sample.always_a fresh))).
  { cbn [same_key_for].
    repeat (split;
            [exists "Blue in Green", "https://i.scdn.co/image/ab67616d",
               "Miles Davis"; split; reflexivity |]).
    exact I. }
  exact (proj1 (proj2
    (same_key_never_rebuilds Sample.textlength Sample.cfg Sample.delay
       Sample.idle_images Sample.open_image Sample.fetch_cover
       Sample.always_a Sample.rand
       "Blue in Greenhttps://i.scdn.co/image/ab67616d" 3
       (final (Sample.turn Sample.always_a fresh)) eq_refl Hsame))).
Defined.

Lemma failed_build_is_not_retried_witness :
  builds (events (Sample.turns always_wide 3 fresh)) = 1%nat
  /\ shows (events (Sample.turns always_wide 3 fresh)) = O.
Proof.
  assert (Hsame :
    same_key_for Sample.textlength Sample.cfg Sample.delay
      Sample.idle_images Sample.open_image Sample.fetch_cover
      always_wide Sample.rand
      ("Supercalifragilisticexpialidocious"
       ++ "https://i.scdn.co/image/ab67616d0000b273") 2
      (final (Sample.turn always_wide fresh))).
  { cbn [same_key_for].
    repeat (split;
            [exists "Supercalifragilisticexpialidocious",
               "https://i.scdn.co/image/ab67616d0000b273", "Julie Andrews";
             split; reflexivity |]).
    exact I. }
  destruct (failed_build_is_not_retried Sample.textlength Sample.cfg
              Sample.delay Sample.idle_images Sample.open_image
              Sample.fetch_cover always_wide Sample.rand fresh
              "Supercalifragilisticexpialidocious"
              "https://i.scdn.co/image/ab67616d0000b273" "Julie Andrews" 2
              eq_refl ltac:(discriminate) ltac:(vm_compute; reflexivity)
              Hsame)
    as (Hb & Hs & _).
  split; [exact Hb | exact Hs].
Defined.

(** ** Invariants of the loop *)

Section LoopInvariants.

Variable textlength : font -> string -> Z.
Variable cfg : Config.t.
Variable delay : Z.
Variable idle_images : list string.
Variable open_image : string -> option PIL.image.
Variable fetch_cover : string -> option PIL.image.
Variable source : nat -> playing.
Variable rand : nat -> nat.

Local Notation "'poll'" := (_get_song_info source).
Local Notation "'update'" :=
  (_display_update_process textlength cfg idle_images open_image
     fetch_cover rand).
Local Notation "'wait'" := (idle_wait cfg source).
Local Notation "'idle'" :=
  (idle_branch textlength cfg idle_images open_image fetch_cover source rand).
Local Notation "'turn'" :=
  (iteration textlength cfg delay idle_images open_image fetch_cover source
     rand).
Local Notation "'turns'" :=
  (iterations textlength cfg delay idle_images open_image fetch_cover source
     rand).

(** An invariant that reads only the refresh counter and the gallery
    cursor, and that every display update keeps. *)
Variable I : service -> Prop.

Hypothesis I_ext :
  forall s s',
    pic_counter s' = pic_counter s -> idle_index s' = idle_index s ->
    I s -> I s'.

Hypothesis I_update : forall req s, I s -> I (final (update req s)).

Lemma poll_keeps_invariant (s : service) : I s -> I (final (poll s)).
Proof.
  intros H.
  destruct (poll_off_display source s) as (_ & _ & _ & _ & Hpc & Hii & _).
  exact (I_ext s _ Hpc Hii H).
Qed.

Lemma idle_wait_keeps_invariant (s : service) : I s -> I (final (wait s)).
Proof.
  intros H.
  destruct (idle_sleep_keeps_display cfg source
              (Z.to_nat (Config.idle_display_time cfg)) 0 s)
    as (_ & _ & _ & _ & Hpc & Hii).
  exact (I_ext s _ Hpc Hii H).
Qed.

Lemma idle_branch_keeps_invariant (s : service) : I s -> I (final (idle s)).
Proof.
  intros H. rewrite idle_branch_eq. cbv zeta.
  assert (H1 : I (set_song_prev "NO_SONG" s))
    by (apply (I_ext s); [reflexivity | reflexivity | exact H]).
  pose proof (I_update SEmpty _ H1) as H2.
  pose proof (idle_wait_keeps_invariant _ H2) as H3.
  destruct (result (update SEmpty (set_song_prev "NO_SONG" s)))
    as [[] | |]; svc; assumption.
Qed.

Lemma iteration_keeps_invariant (s : service) : I s -> I (final (turn s)).
Proof.
  intros H. pose proof (poll_keeps_invariant s H) as Hp.
  pose proof (idle_branch_keeps_invariant _ Hp) as Hi.
  destruct (result (poll s)) as [r | |] eqn:Er.
  - destruct r as [| | t c a].
    + rewrite (iteration_no_track textlength cfg delay idle_images
                 open_image fetch_cover source rand s SNone Er eq_refl).
      cbv zeta. destruct (result (idle (final (poll s)))) as [[|] | |];
        svc; assumption.
    + rewrite (iteration_no_track textlength cfg delay idle_images
                 open_image fetch_cover source rand s SEmpty Er eq_refl).
      cbv zeta. destruct (result (idle (final (poll s)))) as [[|] | |];
        svc; assumption.
    + rewrite (iteration_playing textlength cfg delay idle_images open_image
                 fetch_cover source rand s t c a Er).
      destruct (String.eqb (song_prev s) (t ++ c)); [svc; exact Hp |].
      cbv zeta. svc. apply I_update.
      apply (I_ext (snd (fst (poll s)))); [reflexivity | reflexivity |].
      exact Hp.
  - rewrite (iteration_poll_raises textlength cfg delay idle_images
               open_image fetch_cover source rand s Er).
    svc. exact Hp.
  - now elim (get_song_info_not_stuck source s).
Qed.

Lemma start_keeps_invariant (n : nat) :
  forall s,
    I s ->
    I (final (start textlength cfg delay idle_images open_image fetch_cover
                source rand n s)).
Proof.
  assert (Hturns : forall k s, I s -> I (final (turns k s))).
  { induction k as [|k IH]; intros s H; [exact H |].
    rewrite iterations_succ. svc. apply IH.
    apply iteration_keeps_invariant, H. }
  intros s H. specialize (Hturns n s H).
  unfold start, _display_clean, bind, emit. svc.
  destruct (turns n s) as [[e s'] r]. svc. exact Hturns.
Qed.

End LoopInvariants.

Section CursorAndCounter.

Variable textlength : font -> string -> Z.
Variable cfg : Config.t.
Variable delay : Z.
Variable idle_images : list string.
Variable open_image : string -> option PIL.image.
Variable fetch_cover : string -> option PIL.image.
Variable source : nat -> playing.
Variable rand : nat -> nat.

Local Notation "'compose''" :=
  (compose textlength cfg idle_images open_image fetch_cover rand).
Local Notation "'update'" :=
  (_display_update_process textlength cfg idle_images open_image
     fetch_cover rand).
Local Notation "'threshold'" := (Config.display_refresh_counter cfg).
Local Notation "'K'" := (Z.of_nat (List.length idle_images)).

Lemma idle_path_keeps_cursor (s : service) :
  cursor_in_range idle_images s ->
  cursor_in_range idle_images (final (idle_path cfg idle_images rand s)).
Proof.
  unfold cursor_in_range, idle_path. intros H.
  destruct idle_images as [|p ps] eqn:E; [exact H |]. rewrite <- E in *.
  assert (HK : 0 < K) by (rewrite E; cbn [List.length]; lia).
  destruct (Config.idle_shuffle cfg).
  - unfold bind, gets, modify, lift, ret, raise.
    destruct (nth_error idle_images _); svc; exact H.
  - unfold bind, gets, modify, lift, ret, raise.
    destruct (py_index idle_images (idle_index s)); svc; [| exact H].
    pose proof (Z.mod_pos_bound (idle_index s + 1) K HK). lia.
Qed.

Lemma compose_keeps_cursor (req : song_info) (s : service) :
  cursor_in_range idle_images s ->
  cursor_in_range idle_images (final (compose' req s)).
Proof.
  intros H. pose proof (idle_path_keeps_cursor s H) as Hp.
  unfold compose, _get_idle_image, try_except, bind, lift, ret, raise in *.
  destruct req as [| | t c a].
  - destruct (idle_path cfg idle_images rand s) as [[e s1] [p | |]]; svc;
      try exact Hp.
    destruct (open_image p); svc; [| exact Hp].
    destruct (_gen_pic _ _ _ _ _ _); svc; exact Hp.
  - destruct (idle_path cfg idle_images rand s) as [[e s1] [p | |]]; svc;
      try exact Hp.
    destruct (open_image p); svc; [| exact Hp].
    destruct (_gen_pic _ _ _ _ _ _); svc; exact Hp.
  - destruct (fetch_cover c) as [cover |]; svc;
      [destruct (_gen_pic textlength cfg cover a t true); svc;
       try exact H |];
      (destruct (open_image (Config.no_song_cover cfg)) as [fb |]; svc;
       [destruct (_gen_pic textlength cfg fb a t true); svc |]; exact H).
Qed.

Lemma update_keeps_cursor (req : song_info) (s : service) :
  cursor_in_range idle_images s ->
  cursor_in_range idle_images (final (update req s)).
Proof.
  intros H. pose proof (compose_keeps_cursor req s H) as Hc.
  rewrite update_eq. unfold cursor_in_range in *.
  destruct (result (compose' req s)); svc; exact Hc.
Qed.

Lemma update_keeps_counter (req : song_info) (s : service) :
  0 <= threshold ->
  counter_in_range cfg s -> counter_in_range cfg (final (update req s)).
Proof.
  intros Hth H. unfold counter_in_range in *.
  destruct (update_trace textlength cfg idle_images open_image fetch_cover
              rand req s) as (_ & _ & Hpc).
  rewrite Hpc.
  destruct (result (compose' req s)); try exact H.
  destruct (pic_counter s >? threshold) eqn:E; [lia |].
  rewrite Z.gtb_ltb in E. apply Z.ltb_ge in E. lia.
Qed.

(** X21. The gallery cursor never leaves the gallery: from a cursor that
    is an index of the gallery (as [__init__] leaves it), [start] keeps
    it one after any number of turns of the loop, whatever Spotify
    answers and whatever fails on the way, so reading the gallery at the
    cursor never raises an index error. *)
Theorem gallery_cursor_stays_in_range :
  forall (n : nat) (s : service),
    cursor_in_range idle_images s ->
    cursor_in_range idle_images
      (final (start textlength cfg delay idle_images open_image fetch_cover
                source rand n s))
    /\ (idle_images <> [] ->
        exists p,
          py_index idle_images
            (idle_index
               (final (start textlength cfg delay idle_images open_image
                         fetch_cover source rand n s)))
          = Some p).
Proof.
  intros n s H.
  assert (Hin : cursor_in_range idle_images
                  (final (start textlength cfg delay idle_images open_image
                            fetch_cover source rand n s))).
  { apply (start_keeps_invariant textlength cfg delay idle_images open_image
             fetch_cover source rand (cursor_in_range idle_images)).
    - unfold cursor_in_range. intros s0 s' _ Hii. rewrite Hii. auto.
    - intros req s0. apply update_keeps_cursor.
    - exact H. }
  split; [exact Hin |]. intros Hne.
  unfold cursor_in_range in Hin.
  set (i := idle_index _) in *.
  assert (HK : 0 < K).
  { destruct idle_images; [congruence | cbn [List.length]; lia]. }
  unfold py_index.
  replace ((0 <=? i) && (i <? K)) with true
    by (symmetry; apply andb_true_iff; split;
        [apply Z.leb_le | apply Z.ltb_lt]; lia).
  destruct (nth_error idle_images (Z.to_nat i)) as [p |] eqn:E;
    [eauto |].
  apply nth_error_None in E. lia.
Qed.

(** X22. The refresh counter stays between 0 and one above the
    threshold: from such a counter (0 after [__init__]) and with a
    threshold that is not negative, [start] keeps it so after any number
    of turns of the loop, whatever is played and whatever fails. *)
Theorem refresh_counter_stays_in_range :
  forall (n : nat) (s : service),
    0 <= threshold ->
    counter_in_range cfg s ->
    counter_in_range cfg
      (final (start textlength cfg delay idle_images open_image fetch_cover
                source rand n s)).
Proof.
  intros n s Hth H.
  apply (start_keeps_invariant textlength cfg delay idle_images open_image
           fetch_cover source rand (counter_in_range cfg)).
  - unfold counter_in_range. intros s0 s' Hpc _. rewrite Hpc. auto.
  - intros req s0. apply update_keeps_counter, Hth.
  - exact H.
Qed.

End CursorAndCounter.

Lemma gallery_cursor_stays_in_range_witness :
  cursor_in_range Sample.idle_images
    (final (start Sample.textlength Sample.cfg Sample.delay
              Sample.idle_images Sample.open_image Sample.fetch_cover
              (Sample.silent_then_a 100) Sample.rand 5 fresh)).
Proof.
  apply (gallery_cursor_stays_in_range Sample.textlength Sample.cfg
           Sample.delay Sample.idle_images Sample.open_image
           Sample.fetch_cover (Sample.silent_then_a 100) Sample.rand 5
           fresh).
  unfold cursor_in_range. simpl. lia.
Defined.

Lemma refresh_counter_stays_in_range_witness :
  counter_in_range Sample.cfg
    (final (start Sample.textlength Sample.cfg Sample.delay
              Sample.idle_images Sample.open_image Sample.fetch_cover
              Sample.always_a Sample.rand 30 fresh)).
Proof.
  apply (refresh_counter_stays_in_range Sample.textlength Sample.cfg
           Sample.delay Sample.idle_images Sample.open_image
           Sample.fetch_cover Sample.always_a Sample.rand 30 fresh).
  - simpl. lia.
  - unfold counter_in_range. simpl. lia.
Defined.
